(** * Workflow Station: the sequential branching engine

    A shallow embedding of the TypeScript workflow engine
    (workflow-engine/src): the condition evaluator (utils/condition.ts), the
    step handlers (steps/*.ts), the queue-driven scheduler [MyWorkflow.run]
    and the submission validation of the [fetch] handler (index.ts).

    Conventions of the embedding.
    - A JavaScript string is a [string] (a sequence of bytes); the string
      methods are modelled on their ASCII fragment.
    - A JavaScript number that holds an index or a step number is a [Z].
    - The LLM providers and the endpoint gateway are external: they are
      operations on an abstract [World], which may answer differently at
      every call and may throw.
    - Time stamps and durations ([processedAt], [duration], [timestamp],
      [finalizedAt]) and the free-form [data] payload of a log entry are left
      out of the records. *)

From Stdlib Require Import ZArith Lia List Bool Ascii String DecimalString.
From stdpp Require Import base list gmap strings.

Local Open Scope string_scope.
Local Open Scope list_scope.

(** ** JavaScript strings *)

Module JS.

Definition dquote : ascii := "034"%char.
Definition squote : ascii := "039"%char.
Definition backslash : ascii := "092"%char.
Definition newline : ascii := "010"%char.

(** A one-character string, and the two used most often. *)
Definition str1 (c : ascii) : string := String c EmptyString.
Definition DQ : string := str1 dquote.
Definition NL : string := str1 newline.

(** [String(n)] for an integer [n]. *)
Definition showZ (z : Z) : string := NilZero.string_of_int (Z.to_int z).

Definition isUpper (c : ascii) : bool :=
  let n := nat_of_ascii c in (65 <=? n)%nat && (n <=? 90)%nat.

Definition lowerChar (c : ascii) : ascii :=
  if isUpper c then ascii_of_nat (nat_of_ascii c + 32) else c.

(** [s.toLowerCase()] *)
Fixpoint toLowerCase (s : string) : string :=
  match s with
  | EmptyString => EmptyString
  | String c r => String (lowerChar c) (toLowerCase r)
  end.

(** White space removed by [trim]: TAB, LF, VT, FF, CR and SPACE. *)
Definition isWhiteSpace (c : ascii) : bool :=
  let n := nat_of_ascii c in ((9 <=? n)%nat && (n <=? 13)%nat) || (n =? 32)%nat.

Fixpoint trimStart (s : string) : string :=
  match s with
  | EmptyString => EmptyString
  | String c r => if isWhiteSpace c then trimStart r else s
  end.

Fixpoint trimEnd (s : string) : string :=
  match s with
  | EmptyString => EmptyString
  | String c r =>
      match trimEnd r with
      | EmptyString => if isWhiteSpace c then EmptyString else str1 c
      | r' => String c r'
      end
  end.

(** [s.trim()] *)
Definition trim (s : string) : string := trimEnd (trimStart s).

(** [s.includes(sub)] *)
Fixpoint includes (s sub : string) : bool :=
  String.prefix sub s ||
  match s with
  | EmptyString => false
  | String _ r => includes r sub
  end.

(** [s.replace] with the global pattern of the two quote characters and the
    empty replacement: every single and double quote is removed. *)
Fixpoint stripQuotes (s : string) : string :=
  match s with
  | EmptyString => EmptyString
  | String c r =>
      if Ascii.eqb c squote || Ascii.eqb c dquote then stripQuotes r
      else String c (stripQuotes r)
  end.

(** [l.join(sep)] *)
Fixpoint join (sep : string) (l : list string) : string :=
  match l with
  | [] => EmptyString
  | [x] => x
  | x :: r => x +:+ sep +:+ join sep r
  end.

(** [s.substring(0, n)] *)
Definition substring0 (n : nat) (s : string) : string := String.substring 0 n s.

(** Truthiness of a string: [!!s]. *)
Definition truthy (s : string) : bool :=
  match s with EmptyString => false | _ => true end.

(** [a || b] on strings. *)
Definition orElse (a : option string) (b : string) : string :=
  match a with
  | Some s => if truthy s then s else b
  | None => b
  end.

End JS.

(** ** JSON values and [JSON.stringify] *)

Module Json.

(** JSON values; the numbers the engine prints are integers. *)
#[warnings="-register-all"]
Inductive t : Type :=
| Null
| Bool (b : bool)
| Num (n : Z)
| Str (s : string)
| Arr (items : list t)
| Obj (fields : list (string * t)).

Definition hexDigit (n : nat) : ascii :=
  if (n <? 10)%nat then ascii_of_nat (48 + n) else ascii_of_nat (87 + n).

(** The escape of one character inside a JSON string literal. *)
Definition escapeChar (c : ascii) : string :=
  let n := nat_of_ascii c in
  if Ascii.eqb c JS.dquote then String JS.backslash JS.DQ
  else if Ascii.eqb c JS.backslash then String JS.backslash (JS.str1 JS.backslash)
  else if (n =? 8)%nat then String JS.backslash "b"
  else if (n =? 9)%nat then String JS.backslash "t"
  else if (n =? 10)%nat then String JS.backslash "n"
  else if (n =? 12)%nat then String JS.backslash "f"
  else if (n =? 13)%nat then String JS.backslash "r"
  else if (n <? 32)%nat then
    String JS.backslash
      ("u00" +:+ String (hexDigit (n / 16)) (JS.str1 (hexDigit (n mod 16))))
  else JS.str1 c.

Fixpoint escape (s : string) : string :=
  match s with
  | EmptyString => EmptyString
  | String c r => escapeChar c +:+ escape r
  end.

Definition quote (s : string) : string := JS.DQ +:+ escape s +:+ JS.DQ.

(** [JSON.stringify(v, null, gap)] at the indentation [ind]; the empty [gap]
    gives the compact form of [JSON.stringify(v)]. *)
Fixpoint stringifyAt (gap ind : string) (v : t) : string :=
  let inner := ind +:+ gap in
  let compact := negb (JS.truthy gap) in
  match v with
  | Null => "null"
  | Bool true => "true"
  | Bool false => "false"
  | Num n => JS.showZ n
  | Str s => quote s
  | Arr [] => "[]"
  | Arr items =>
      let parts := map (stringifyAt gap inner) items in
      if compact then "[" +:+ JS.join "," parts +:+ "]"
      else "[" +:+ JS.NL +:+ inner +:+ JS.join ("," +:+ JS.NL +:+ inner) parts
           +:+ JS.NL +:+ ind +:+ "]"
  | Obj [] => "{}"
  | Obj fields =>
      let colon := if compact then ":" else ": " in
      let parts :=
        map (fun kv => quote (fst kv) +:+ colon +:+ stringifyAt gap inner (snd kv))
            fields in
      if compact then "{" +:+ JS.join "," parts +:+ "}"
      else "{" +:+ JS.NL +:+ inner +:+ JS.join ("," +:+ JS.NL +:+ inner) parts
           +:+ JS.NL +:+ ind +:+ "}"
  end.

(** [JSON.stringify(v)] *)
Definition stringify (v : t) : string := stringifyAt "" "" v.

(** [JSON.stringify(v, null, 2)] *)
Definition stringify2 (v : t) : string := stringifyAt "  " "" v.






End Json.

(** ** The data model (types.ts) *)

Inductive Provider := openai | anthropic.

Inductive Method := GET | POST | PUT | PATCH | DELETE.

Definition showMethod (m : Method) : string :=
  match m with
  | GET => "GET" | POST => "POST" | PUT => "PUT" | PATCH => "PATCH"
  | DELETE => "DELETE"
  end.

Inductive OutputFormat := json | markdown | numbered.

Inductive CompletionMode := deterministic | llm.

Inductive FallbackBehavior := fallbackLlm | fallbackSkip.

Inductive BranchTaken := branchTrue | branchFalse | branchSequential.

Inductive Level := info | warn | error | debug.

(** The [condition] sub-object an instruction of any variant may carry. *)
Module Condition.
Record t := mk {
  evaluateAfterStep : option Z;
  expression : string;
  ifTrue : option (list Z);
  ifFalse : option (list Z) }.
End Condition.

Module ConditionalInstruction.
Record t := mk {
  instruction : string;
  condition : option Condition.t }.
End ConditionalInstruction.

Module EndpointInstruction.
Record t := mk {
  endpointUrl : string;
  apiUrl : string;
  method : option Method;
  headers : option (list (string * string));
  body : option Json.t;
  retries : option Z;
  retryDelay : option Z;
  timeout : option Z;
  description : option string;
  condition : option Condition.t }.
End EndpointInstruction.

Module CompletionCheck.
Record t := mk {
  mode : CompletionMode;
  expression : option string }.
End CompletionCheck.

Module ThreadInstruction.
Record t := mk {
  collectFromSteps : list Z;
  outputFormat : option OutputFormat;
  description : option string;
  completionCheck : option CompletionCheck.t;
  condition : option Condition.t }.
End ThreadInstruction.

(** The [endpoint] object of a router option or an agent tool. *)
Module Endpoint.
Record t := mk {
  endpointUrl : string;
  apiUrl : string;
  method : option Method;
  headers : option (list (string * string));
  body : option Json.t }.
End Endpoint.

(** An element of [options] (router) or of [availableTools] (agent); the two
    have the same shape. *)
Module Choice.
Record t := mk {
  id : string;
  name : string;
  description : string;
  endpoint : Endpoint.t }.
End Choice.

Module RouterInstruction.
Record t := mk {
  description : string;
  evaluationPrompt : string;
  options : list Choice.t;
  defaultOption : option string;
  retries : option Z;
  retryDelay : option Z;
  timeout : option Z;
  condition : option Condition.t }.
End RouterInstruction.

Module AgentInstruction.
Record t := mk {
  description : string;
  decisionPrompt : string;
  availableTools : list Choice.t;
  fallbackBehavior : FallbackBehavior;
  llmFallbackPrompt : option string;
  retries : option Z;
  retryDelay : option Z;
  timeout : option Z;
  condition : option Condition.t }.
End AgentInstruction.

(** The union of the five variants; the [type] discriminator is the
    constructor, and an object without [type] is a conditional (LLM)
    instruction. *)
Inductive NormalizedInstruction :=
| Conditional (i : ConditionalInstruction.t)
| EndpointI (i : EndpointInstruction.t)
| ThreadI (i : ThreadInstruction.t)
| RouterI (i : RouterInstruction.t)
| AgentI (i : AgentInstruction.t).

(** [Simple{instruction}]: the normal form of a bare string. *)
Definition Simple (s : string) : NormalizedInstruction :=
  Conditional (ConditionalInstruction.mk s None).

(** ["condition" in inst && inst.condition] *)
Definition conditionOf (inst : NormalizedInstruction) : option Condition.t :=
  match inst with
  | Conditional i => ConditionalInstruction.condition i
  | EndpointI i => EndpointInstruction.condition i
  | ThreadI i => ThreadInstruction.condition i
  | RouterI i => RouterInstruction.condition i
  | AgentI i => AgentInstruction.condition i
  end.

Module Params.
Record t := mk {
  context : string;
  instructions : option (list (string + NormalizedInstruction));
  provider : option Provider;
  model : option string;
  firstInstruction : option string;
  secondInstruction : option string }.
End Params.

Module StepResult.
Record t := mk {
  stepNumber : Z;
  instruction : string;
  result : string;
  conditionEvaluated : bool;
  conditionResult : option bool;
  branchTaken : BranchTaken }.
End StepResult.

Module ErrorEntry.
Record t := mk {
  stepNumber : Z;
  stepIndex : Z;
  error : string;
  errorType : string;
  context : option string }.
End ErrorEntry.

Module LogEntry.
Record t := mk {
  level : Level;
  message : string;
  stepNumber : option Z }.
End LogEntry.

Module WorkflowResult.
Record t := mk {
  originalContext : string;
  steps : list StepResult.t;
  errors : list ErrorEntry.t;
  logs : list LogEntry.t }.
End WorkflowResult.

(** The context handed to a step handler. [currentResult] is shared by
    reference in the source: its [steps] are read by the thread handler and
    are listed here as the handler finds them; its [logs] and [errors] are
    written through [addLog] and [addError] and live in the store below. *)
Module StepContext.
Record t := mk {
  provider : Provider;
  apiKey : string;
  model : string;
  previousResult : string;
  isFirstStep : bool;
  stepNumber : Z;
  stepIndex : Z;
  currentSteps : list StepResult.t }.
End StepContext.

(** [n || d] on an optional number. *)
Definition numOr (n : option Z) (d : Z) : Z :=
  match n with
  | Some v => if (v =? 0)%Z then d else v
  | None => d
  end.

(** ** Results, the store and the monad of the handlers *)

Inductive Result (A : Type) : Type :=
| Ok (a : A)
| Throw (e : string).
Arguments Ok {A} a.
Arguments Throw {A} e.

(** A request of the gateway ([callEndpoint]) and of a direct [fetch]. *)
Module GatewayCall.
Record t := mk {
  endpointUrl : string;
  apiUrl : string;
  method : Method;
  headers : option (list (string * string));
  body : option Json.t;
  retries : Z;
  retryDelay : Z;
  timeout : Z }.
End GatewayCall.

Module FetchRequest.
Record t := mk {
  url : string;
  method : Method;
  headers : list (string * string);
  body : option string }.
End FetchRequest.

Module Response.
Record t := mk {
  ok : bool;
  status : Z;
  statusText : string;
  json : Result Json.t }.
End Response.

(** An element of [collectedResults] in the thread handler. *)
Module Collected.
Record t := mk {
  stepNumber : Z;
  instruction : string;
  result : string }.
End Collected.

Section Engine.

(** The outside world: the LLM providers behind [callLLM]
    (providers/index.ts), the endpoint workers behind [callEndpoint]
    (steps/endpoint-step.ts), the global [fetch] and [JSON.parse]. An
    operation on the world returns its answer, or throws, and the next
    world. *)
Context {World : Type}.
Variable callLLM :
  Provider -> string -> string -> string -> string -> World -> Result string * World.
Variable callEndpoint : GatewayCall.t -> World -> Result string * World.
Variable fetch : FetchRequest.t -> World -> Result Response.t * World.
Variable JSON_parse : string -> Result Json.t.

(** The objects the closures of a run share and mutate: the log and error
    lists of [currentResult], the console, and the world. *)
Record Store := mkStore {
  world : World;
  logs : list LogEntry.t;
  errors : list ErrorEntry.t;
  console : list string }.

Definition M (A : Type) : Type := Store -> Result A * Store.

Definition ret {A} (a : A) : M A := fun s => (Ok a, s).

Definition throw {A} (e : string) : M A := fun s => (Throw e, s).

Definition bind {A B} (m : M A) (k : A -> M B) : M B :=
  fun s =>
    match m s with
    | (Ok a, s') => k a s'
    | (Throw e, s') => (Throw e, s')
    end.

(** [try { m } catch (e) { h(e.message) }] *)
Definition tryCatch {A} (m : M A) (h : string -> M A) : M A :=
  fun s =>
    match m s with
    | (Ok a, s') => (Ok a, s')
    | (Throw e, s') => h e s'
    end.

Definition liftWorld {A} (op : World -> Result A * World) : M A :=
  fun s =>
    let (r, w) := op (world s) in
    (r, mkStore w (logs s) (errors s) (console s)).

Definition liftResult {A} (r : Result A) : M A := fun s => (r, s).

Notation "'let!' x := m 'in' k" := (bind m (fun x => k))
  (at level 10, x name, m at level 100, k at level 200, only parsing).
Notation "'do!' m 'in' k" := (bind m (fun _ => k))
  (at level 10, m at level 100, k at level 200, only parsing).

(** [currentResult.logs.push(...)] *)
Definition addLog (level : Level) (message : string) (stepNumber : option Z)
  : M unit :=
  fun s =>
    (Ok tt, mkStore (world s) (logs s ++ [LogEntry.mk level message stepNumber])
                    (errors s) (console s)).

(** [currentResult.errors.push(...)] *)
Definition addError (stepNumber stepIndex : Z) (err errorType : string)
    (errorContext : option string) : M unit :=
  fun s =>
    (Ok tt, mkStore (world s) (logs s)
                    (errors s ++ [ErrorEntry.mk stepNumber stepIndex err errorType
                                                errorContext])
                    (console s)).

(** [console.warn(msg)] *)
Definition consoleWarn (msg : string) : M unit :=
  fun s => (Ok tt, mkStore (world s) (logs s) (errors s) (console s ++ [msg])).

(** ** utils/condition.ts *)

Definition evaluatorSystemPrompt : string :=
  "You are a logical evaluator. Evaluate the given condition and respond with ONLY 'true' or 'false' (lowercase, no punctuation).".

Definition evaluatorUserPrompt (conditionExpression stepResult : string)
    (stepNumber : Z) : string :=
  "Evaluate this condition: " +:+ JS.DQ +:+ conditionExpression +:+ JS.DQ
  +:+ JS.NL +:+ JS.NL
  +:+ "Step " +:+ JS.showZ stepNumber +:+ " result:" +:+ JS.NL
  +:+ stepResult +:+ JS.NL +:+ JS.NL
  +:+ "Respond with only 'true' or 'false'.".

Definition unclearWarning (response : string) : string :=
  "⚠️ Unclear condition evaluation result: " +:+ JS.DQ +:+ response +:+ JS.DQ
  +:+ ", defaulting to false".

Definition evaluateCondition (provider : Provider) (apiKey model : string)
    (conditionExpression stepResult : string) (stepNumber : Z) : M bool :=
  let! response := liftWorld (callLLM provider apiKey model evaluatorSystemPrompt
                (evaluatorUserPrompt conditionExpression stepResult stepNumber)) in
  let normalized := JS.toLowerCase (JS.trim response) in
  if JS.includes normalized "true" && negb (JS.includes normalized "false")
  then ret true
  else if JS.includes normalized "false" then ret false
  else do! consoleWarn (unclearWarning response) in ret false.

(** ** steps/llm-step.ts *)

Definition executeLLMStep (instruction : ConditionalInstruction.t)
    (ctx : StepContext.t) : M (string * string) :=
  let systemPrompt :=
    if StepContext.isFirstStep ctx
    then "You are a helpful assistant that processes and analyzes content."
    else "You are a helpful assistant that processes and refines content based on previous results." in
  let userPrompt :=
    if StepContext.isFirstStep ctx
    then ConditionalInstruction.instruction instruction +:+ JS.NL +:+ JS.NL
         +:+ "Context:" +:+ JS.NL +:+ StepContext.previousResult ctx
    else ConditionalInstruction.instruction instruction +:+ JS.NL +:+ JS.NL
         +:+ "Previous Result:" +:+ JS.NL +:+ StepContext.previousResult ctx in
  let! result := liftWorld (callLLM (StepContext.provider ctx) (StepContext.apiKey ctx)
              (StepContext.model ctx) systemPrompt userPrompt) in
  ret (ConditionalInstruction.instruction instruction, result).

(** ** steps/endpoint-step.ts *)

Definition executeEndpointStep (instruction : EndpointInstruction.t)
    (ctx : StepContext.t) : M (string * string) :=
  let apiUrl := EndpointInstruction.apiUrl instruction in
  let desc := JS.orElse (EndpointInstruction.description instruction)
                        ("Call " +:+ apiUrl) in
  do! addLog info ("Endpoint step calling " +:+ apiUrl)
         (Some (StepContext.stepNumber ctx)) in
  tryCatch
    (let! result := liftWorld (callEndpoint (GatewayCall.mk
                 (EndpointInstruction.endpointUrl instruction)
                 apiUrl
                 (default GET (EndpointInstruction.method instruction))
                 (EndpointInstruction.headers instruction)
                 (EndpointInstruction.body instruction)
                 (numOr (EndpointInstruction.retries instruction) 3)
                 (numOr (EndpointInstruction.retryDelay instruction) 1000)
                 (numOr (EndpointInstruction.timeout instruction) 30000))) in
     do! addLog info "Endpoint call successful" (Some (StepContext.stepNumber ctx)) in
     ret (desc, result))
    (fun errMsg =>
       do! addLog error ("Endpoint call failed: " +:+ errMsg)
              (Some (StepContext.stepNumber ctx)) in
       do! addError (StepContext.stepNumber ctx) (StepContext.stepIndex ctx) errMsg
                "endpoint" (Some ("Endpoint " +:+ apiUrl +:+ " failed")) in
       throw errMsg).

(** ** steps/thread-step.ts *)

(** [steps.find((s) => s.stepNumber === stepNum)] *)
Definition findStep (steps : list StepResult.t) (stepNum : Z)
  : option StepResult.t :=
  List.find (fun s => (StepResult.stepNumber s =? stepNum)%Z) steps.

(** The collecting loop: the results found, and the step numbers without a
    result, both in the order of [collectFromSteps]. *)
Definition collectResults (steps : list StepResult.t) (collectFromSteps : list Z)
  : list Collected.t * list Z :=
  fold_left
    (fun acc stepNum =>
       match findStep steps stepNum with
       | Some stepData =>
           (fst acc ++ [Collected.mk (StepResult.stepNumber stepData)
                                     (StepResult.instruction stepData)
                                     (StepResult.result stepData)],
            snd acc)
       | None => (fst acc, snd acc ++ [stepNum])
       end)
    collectFromSteps ([], []).

Definition threadIncomplete (missingSteps : list Z) : string :=
  "Thread incomplete: missing results from steps "
  +:+ JS.join ", " (map JS.showZ missingSteps) +:+ ". "
  +:+ "Ensure these steps execute before this thread step.".

(** The formatting of the collected results. The source ends with a branch
    for any other format, which the type of [outputFormat] leaves empty. *)
Definition formatCollected (collectFromSteps : list Z)
    (outputFormat : OutputFormat) (collectedResults : list Collected.t) : string :=
  match outputFormat with
  | json =>
      Json.stringify2
        (Json.Obj
           [("collectedSteps", Json.Arr (map Json.Num collectFromSteps));
            ("results",
             Json.Arr
               (map (fun r =>
                       Json.Obj [("step", Json.Num (Collected.stepNumber r));
                                 ("instruction", Json.Str (Collected.instruction r));
                                 ("result", Json.Str (Collected.result r))])
                    collectedResults))])
  | markdown =>
      JS.join (JS.NL +:+ JS.NL +:+ "---" +:+ JS.NL +:+ JS.NL)
        (map (fun r =>
                "## Step " +:+ JS.showZ (Collected.stepNumber r) +:+ JS.NL
                +:+ "**Instruction:** " +:+ Collected.instruction r
                +:+ JS.NL +:+ JS.NL +:+ "**Result:**" +:+ JS.NL
                +:+ Collected.result r)
             collectedResults)
  | numbered =>
      JS.join (JS.NL +:+ JS.NL)
        (imap (fun idx r =>
                 JS.showZ (Z.of_nat idx + 1) +:+ ". [Step "
                 +:+ JS.showZ (Collected.stepNumber r) +:+ "] "
                 +:+ Collected.result r)
              collectedResults)
  end.

Definition executeThreadStep (instruction : ThreadInstruction.t)
    (ctx : StepContext.t) : M (string * string) :=
  let collectFromSteps := ThreadInstruction.collectFromSteps instruction in
  let desc :=
    JS.orElse (ThreadInstruction.description instruction)
      ("Collect results from steps: "
       +:+ JS.join ", " (map JS.showZ collectFromSteps)) in
  let collected := collectResults (StepContext.currentSteps ctx) collectFromSteps in
  let collectedResults := fst collected in
  let missingSteps := snd collected in
  let completionCheck :=
    default (CompletionCheck.mk deterministic None)
            (ThreadInstruction.completionCheck instruction) in
  let! isComplete :=
    match CompletionCheck.mode completionCheck,
          CompletionCheck.expression completionCheck with
    | deterministic, _ => ret (Nat.eqb (length missingSteps) 0)
    | llm, Some expression =>
        if JS.truthy expression then
          let collectionSummary :=
            JS.join JS.NL
              (map (fun r =>
                      "Step " +:+ JS.showZ (Collected.stepNumber r) +:+ ": "
                      +:+ JS.substring0 200 (Collected.result r) +:+ "...")
                   collectedResults) in
          evaluateCondition (StepContext.provider ctx) (StepContext.apiKey ctx)
            (StepContext.model ctx) expression collectionSummary
            (StepContext.stepNumber ctx)
        else ret false
    | llm, None => ret false
    end in
  if negb isComplete && (0 <? length missingSteps)%nat
  then throw (threadIncomplete missingSteps)
  else
    let outputFormat := default json (ThreadInstruction.outputFormat instruction) in
    ret (desc, formatCollected collectFromSteps outputFormat collectedResults).

(** ** The endpoint call shared by the router and the agent handler *)

(** Truthiness of an optional JSON value. *)
Definition jsonTruthy (v : option Json.t) : bool :=
  match v with
  | None | Some Json.Null => false
  | Some (Json.Bool b) => b
  | Some (Json.Num n) => negb (n =? 0)%Z
  | Some (Json.Str s) => JS.truthy s
  | Some _ => true
  end.

Definition hasRequestBody (m : Method) : bool :=
  match m with POST | PUT | PATCH => true | _ => false end.

(** The body of the [try] block that calls the endpoint of the selected
    option: a target under [/mock/] is fetched directly, any other goes
    through the gateway. *)
Definition callSelected (endpoint : Endpoint.t) (retries retryDelay timeout : option Z)
    (stepNumber : Z) : M string :=
  let apiUrl := Endpoint.apiUrl endpoint in
  let endpointUrl := Endpoint.endpointUrl endpoint in
  let method := default GET (Endpoint.method endpoint) in
  let isMockEndpoint := JS.includes apiUrl "/mock/" in
  if isMockEndpoint then
    do! addLog info ("Calling mock endpoint directly: " +:+ apiUrl)
               (Some stepNumber) in
    let requestBody :=
      if jsonTruthy (Endpoint.body endpoint) && hasRequestBody method then
        match Endpoint.body endpoint with
        | Some (Json.Str s) => Some s
        | Some v => Some (Json.stringify v)
        | None => None
        end
      else None in
    let! response :=
      liftWorld (fetch (FetchRequest.mk apiUrl method
                   (("Content-Type", "application/json")
                      :: default [] (Endpoint.headers endpoint))
                   requestBody)) in
    if negb (Response.ok response) then
      throw ("Mock endpoint returned " +:+ JS.showZ (Response.status response)
             +:+ ": " +:+ Response.statusText response)
    else
      let! responseData := liftResult (Response.json response) in
      ret (Json.stringify responseData)
  else
    liftWorld (callEndpoint (GatewayCall.mk endpointUrl apiUrl method
                 (Endpoint.headers endpoint) (Endpoint.body endpoint)
                 (numOr retries 3) (numOr retryDelay 1000) (numOr timeout 30000))).

(** ** steps/router-step.ts *)

(** The lines of a template literal. *)
Definition lines (l : list string) : string := JS.join JS.NL l.

(** [response.trim().toLowerCase()] with the quotes removed. *)
Definition cleanResponse (response : string) : string :=
  JS.stripQuotes (JS.toLowerCase (JS.trim response)).

Definition exactMatch (cleaned : string) (opt : Choice.t) : bool :=
  String.eqb (JS.toLowerCase (Choice.id opt)) cleaned.

Definition partialMatch (cleaned : string) (opt : Choice.t) : bool :=
  JS.includes cleaned (JS.toLowerCase (Choice.id opt))
  || JS.includes (JS.toLowerCase (Choice.id opt)) cleaned.

Definition listedAs (idx : nat) (opt : Choice.t) : string :=
  JS.showZ (Z.of_nat idx + 1) +:+ ". " +:+ Choice.id opt +:+ ": "
  +:+ Choice.description opt.

(** [list[0]?.id || fallback] *)
Definition firstIdOr (l : list Choice.t) (fallback : string) : string :=
  JS.orElse (Choice.id <$> head l) fallback.

Definition selectionPrompt (instruction : RouterInstruction.t)
    (ctx : StepContext.t) : string :=
  let optionsText := lines (imap listedAs (RouterInstruction.options instruction)) in
  lines
    ["You are evaluating which data source or API to query based on the context.";
     "";
     "CONTEXT/PREVIOUS RESULT:";
     StepContext.previousResult ctx;
     "";
     "AVAILABLE OPTIONS:";
     optionsText;
     "";
     "TASK: " +:+ RouterInstruction.evaluationPrompt instruction;
     "";
     "IMPORTANT: Respond with ONLY the option ID (e.g., " +:+ JS.DQ
       +:+ firstIdOr (RouterInstruction.options instruction) "option1"
       +:+ JS.DQ +:+ "). ";
     "Do not include any other text, explanation, or punctuation. Just the ID."].

Definition routerSystemPrompt : string :=
  "You are a decision-making assistant. Your job is to analyze context and select the most appropriate option. Respond with ONLY the option ID, nothing else.".

(** The selection of the option from the cleaned answer: the three [if]
    blocks between the LLM call and the endpoint call. *)
Definition selectOption (instruction : RouterInstruction.t)
    (cleanedSelection : string) (stepNumber : Z) : M (option Choice.t) :=
  let options := RouterInstruction.options instruction in
  let selectedOption := List.find (exactMatch cleanedSelection) options in
  let! selectedOption :=
    match selectedOption with
    | Some o => ret (Some o)
    | None =>
        do! addLog warn
              ("Exact match not found for " +:+ JS.DQ +:+ cleanedSelection
               +:+ JS.DQ +:+ ", trying partial match")
              (Some stepNumber) in
        ret (List.find (partialMatch cleanedSelection) options)
    end in
  match selectedOption with
  | Some o => ret (Some o)
  | None =>
      do! addLog warn
            ("No match found, falling back to default option: "
             +:+ JS.orElse (RouterInstruction.defaultOption instruction)
                           "first option")
            (Some stepNumber) in
      let selectedOption :=
        match RouterInstruction.defaultOption instruction with
        | Some d =>
            if JS.truthy d
            then List.find (fun opt => String.eqb (Choice.id opt) d) options
            else None
        | None => None
        end in
      match selectedOption with
      | Some o => ret (Some o)
      | None => ret (head options)
      end
  end.

Definition executeRouterStep (instruction : RouterInstruction.t)
    (ctx : StepContext.t) : M (string * string) :=
  let stepNumber := StepContext.stepNumber ctx in
  let desc :=
    JS.orElse (Some (RouterInstruction.description instruction))
      ("Router: " +:+ RouterInstruction.evaluationPrompt instruction) in
  do! addLog info
        ("Router step started with "
         +:+ JS.showZ (Z.of_nat (length (RouterInstruction.options instruction)))
         +:+ " options")
        (Some stepNumber) in
  do! addLog debug "Sending selection prompt to LLM" (Some stepNumber) in
  let! selectedOptionId :=
    tryCatch
      (let! answer :=
         liftWorld (callLLM (StepContext.provider ctx) (StepContext.apiKey ctx)
                      (StepContext.model ctx) routerSystemPrompt
                      (selectionPrompt instruction ctx)) in
       do! addLog info
             ("LLM returned selection: " +:+ JS.DQ +:+ JS.trim answer +:+ JS.DQ)
             (Some stepNumber) in
       ret answer)
      (fun errMsg =>
         do! addLog error ("LLM selection failed: " +:+ errMsg) (Some stepNumber) in
         do! addError stepNumber (StepContext.stepIndex ctx) errMsg "router-llm"
               (Some "LLM failed to select option") in
         throw ("Router LLM selection failed: " +:+ errMsg)) in
  let cleanedSelection := cleanResponse selectedOptionId in
  let! selectedOption := selectOption instruction cleanedSelection stepNumber in
  match selectedOption with
  | None =>
      let errMsg :=
        "Router could not select an option. LLM returned: " +:+ JS.DQ
        +:+ selectedOptionId +:+ JS.DQ in
      do! addLog error errMsg (Some stepNumber) in
      do! addError stepNumber (StepContext.stepIndex ctx) errMsg "router-selection"
            (Some "No valid option could be selected") in
      throw errMsg
  | Some selectedOption =>
      let apiUrl := Endpoint.apiUrl (Choice.endpoint selectedOption) in
      do! addLog info
            ("Selected option: " +:+ Choice.id selectedOption +:+ " ("
             +:+ Choice.name selectedOption +:+ ")")
            (Some stepNumber) in
      let! endpointResult :=
        tryCatch
          (let! r := callSelected (Choice.endpoint selectedOption)
                       (RouterInstruction.retries instruction)
                       (RouterInstruction.retryDelay instruction)
                       (RouterInstruction.timeout instruction) stepNumber in
           do! addLog info
                 ("Endpoint call successful for " +:+ Choice.id selectedOption)
                 (Some stepNumber) in
           ret r)
          (fun errMsg =>
             do! addLog error ("Endpoint call failed: " +:+ errMsg)
                   (Some stepNumber) in
             do! addError stepNumber (StepContext.stepIndex ctx) errMsg
                   "router-endpoint" (Some ("Endpoint " +:+ apiUrl +:+ " failed")) in
             throw ("Router endpoint call failed: " +:+ errMsg)) in
      let! data := liftResult (JSON_parse endpointResult) in
      ret (desc,
           Json.stringify2
             (Json.Obj
                [("routerDecision",
                  Json.Obj
                    [("selectedOption", Json.Str (Choice.id selectedOption));
                     ("selectedName", Json.Str (Choice.name selectedOption));
                     ("llmResponse", Json.Str (JS.trim selectedOptionId));
                     ("endpoint", Json.Str apiUrl)]);
                 ("data", data)]))
  end.

(** ** steps/agent-step.ts *)

Definition NO_TOOL_ID : string := "none".

Definition agentSystemPrompt : string :=
  "You are a decision-making assistant. Analyze the context and decide if you need external data or can answer with your knowledge. Respond with ONLY the option ID, nothing else.".

Definition agentDecisionPrompt (instruction : AgentInstruction.t)
    (ctx : StepContext.t) : string :=
  let toolsText :=
    lines (("0. " +:+ NO_TOOL_ID
            +:+ ": I don't need external data - I can answer with my existing knowledge")
             :: imap listedAs (AgentInstruction.availableTools instruction)) in
  lines
    ["You are an intelligent assistant deciding whether you need to fetch external data to complete a task.";
     "";
     "CONTEXT/PREVIOUS RESULT:";
     StepContext.previousResult ctx;
     "";
     "TASK: " +:+ AgentInstruction.decisionPrompt instruction;
     "";
     "AVAILABLE OPTIONS:";
     toolsText;
     "";
     "INSTRUCTIONS:";
     "- If you can answer the question or complete the task with your existing knowledge, respond with "
       +:+ JS.DQ +:+ NO_TOOL_ID +:+ JS.DQ;
     "- If you need real-time or external data that you don't have, respond with the appropriate tool ID";
     "- Consider: Do I need current/live data? Is this about recent events? Do I need to look something up?";
     "";
     "IMPORTANT: Respond with ONLY the option ID (e.g., " +:+ JS.DQ +:+ NO_TOOL_ID
       +:+ JS.DQ +:+ " or " +:+ JS.DQ
       +:+ firstIdOr (AgentInstruction.availableTools instruction) "tool1"
       +:+ JS.DQ +:+ "). ";
     "Do not include any other text, explanation, or punctuation. Just the ID."].

(** Whether the cleaned decision is the implicit choice of no tool. *)
Definition needsNoTool (cleanedDecision : string) : bool :=
  String.eqb cleanedDecision NO_TOOL_ID
  || String.eqb cleanedDecision "no"
  || String.eqb cleanedDecision "none"
  || JS.includes cleanedDecision "don't need"
  || JS.includes cleanedDecision "no tool"
  || JS.includes cleanedDecision "existing knowledge".

(** The result of the [skip] fallback, before it is printed. *)
Definition skipEnvelope (decisionResponse previousResult : string) : Json.t :=
  Json.Obj
    [("agentDecision",
      Json.Obj [("selectedTool", Json.Null);
                ("reason", Json.Str "No external data needed");
                ("llmResponse", Json.Str (JS.trim decisionResponse))]);
     ("data", Json.Str previousResult)].

Definition executeAgentStep (instruction : AgentInstruction.t)
    (ctx : StepContext.t) : M (string * string) :=
  let stepNumber := StepContext.stepNumber ctx in
  let availableTools := AgentInstruction.availableTools instruction in
  let desc :=
    JS.orElse (Some (AgentInstruction.description instruction))
      ("Agent: " +:+ AgentInstruction.decisionPrompt instruction) in
  do! addLog info
        ("Agent step started with " +:+ JS.showZ (Z.of_nat (length availableTools))
         +:+ " available tools")
        (Some stepNumber) in
  do! addLog debug "Sending decision prompt to LLM" (Some stepNumber) in
  let! decisionResponse :=
    tryCatch
      (let! answer :=
         liftWorld (callLLM (StepContext.provider ctx) (StepContext.apiKey ctx)
                      (StepContext.model ctx) agentSystemPrompt
                      (agentDecisionPrompt instruction ctx)) in
       do! addLog info
             ("LLM decision: " +:+ JS.DQ +:+ JS.trim answer +:+ JS.DQ)
             (Some stepNumber) in
       ret answer)
      (fun errMsg =>
         do! addLog error ("LLM decision failed: " +:+ errMsg) (Some stepNumber) in
         do! addError stepNumber (StepContext.stepIndex ctx) errMsg "agent-llm"
               (Some "LLM failed to make decision") in
         throw ("Agent LLM decision failed: " +:+ errMsg)) in
  let cleanedDecision := cleanResponse decisionResponse in
  if needsNoTool cleanedDecision then
    do! addLog info
          ("Agent decided no external data needed, using fallback: "
           +:+ match AgentInstruction.fallbackBehavior instruction with
               | fallbackSkip => "skip"
               | fallbackLlm => "llm"
               end)
          (Some stepNumber) in
    match AgentInstruction.fallbackBehavior instruction with
    | fallbackSkip =>
        ret (desc,
             Json.stringify2
               (skipEnvelope decisionResponse (StepContext.previousResult ctx)))
    | fallbackLlm =>
        let fallbackPrompt :=
          JS.orElse (AgentInstruction.llmFallbackPrompt instruction)
            "Based on the context provided, please provide a helpful response." in
        do! addLog info "Using LLM fallback to generate response" (Some stepNumber) in
        let! llmResponse :=
          tryCatch
            (liftWorld (callLLM (StepContext.provider ctx) (StepContext.apiKey ctx)
                          (StepContext.model ctx)
                          "You are a helpful assistant. Answer based on your knowledge."
                          (fallbackPrompt +:+ JS.NL +:+ JS.NL +:+ "Context:" +:+ JS.NL
                           +:+ StepContext.previousResult ctx)))
            (fun errMsg =>
               do! addLog error ("LLM fallback failed: " +:+ errMsg)
                     (Some stepNumber) in
               do! addError stepNumber (StepContext.stepIndex ctx) errMsg
                     "agent-llm-fallback" (Some "LLM fallback response failed") in
               throw ("Agent LLM fallback failed: " +:+ errMsg)) in
        ret (desc,
             Json.stringify2
               (Json.Obj
                  [("agentDecision",
                    Json.Obj
                      [("selectedTool", Json.Null);
                       ("reason",
                        Json.Str "No external data needed - answered with LLM");
                       ("llmResponse", Json.Str (JS.trim decisionResponse))]);
                   ("data", Json.Str llmResponse)]))
    end
  else
    let selectedTool := List.find (exactMatch cleanedDecision) availableTools in
    let! selectedTool :=
      match selectedTool with
      | Some t => ret (Some t)
      | None =>
          do! addLog warn
                ("Exact match not found for " +:+ JS.DQ +:+ cleanedDecision
                 +:+ JS.DQ +:+ ", trying partial match")
                (Some stepNumber) in
          ret (List.find (partialMatch cleanedDecision) availableTools)
      end in
    let! selectedTool :=
      match selectedTool, availableTools with
      | None, first :: _ =>
          do! addLog warn
                ("No matching tool found, using first available tool: "
                 +:+ Choice.id first)
                (Some stepNumber) in
          ret (Some first)
      | _, _ => ret selectedTool
      end in
    match selectedTool with
    | None =>
        let errMsg :=
          "Agent has no available tools but LLM requested external data. LLM returned: "
          +:+ JS.DQ +:+ decisionResponse +:+ JS.DQ in
        do! addLog error errMsg (Some stepNumber) in
        do! addError stepNumber (StepContext.stepIndex ctx) errMsg "agent-no-tools"
              (Some "No tools available for agent") in
        throw errMsg
    | Some selectedTool =>
        let apiUrl := Endpoint.apiUrl (Choice.endpoint selectedTool) in
        do! addLog info
              ("Selected tool: " +:+ Choice.id selectedTool +:+ " ("
               +:+ Choice.name selectedTool +:+ ")")
              (Some stepNumber) in
        let! endpointResult :=
          tryCatch
            (let! r := callSelected (Choice.endpoint selectedTool)
                         (AgentInstruction.retries instruction)
                         (AgentInstruction.retryDelay instruction)
                         (AgentInstruction.timeout instruction) stepNumber in
             do! addLog info
                   ("Tool call successful for " +:+ Choice.id selectedTool)
                   (Some stepNumber) in
             ret r)
            (fun errMsg =>
               do! addLog error ("Tool call failed: " +:+ errMsg) (Some stepNumber) in
               do! addError stepNumber (StepContext.stepIndex ctx) errMsg
                     "agent-endpoint"
                     (Some ("Tool " +:+ Choice.id selectedTool +:+ " endpoint failed")) in
               throw ("Agent tool call failed: " +:+ errMsg)) in
        let! data := liftResult (JSON_parse endpointResult) in
        ret (desc,
             Json.stringify2
               (Json.Obj
                  [("agentDecision",
                    Json.Obj
                      [("selectedTool", Json.Str (Choice.id selectedTool));
                       ("selectedName", Json.Str (Choice.name selectedTool));
                       ("reason", Json.Str "External data needed");
                       ("llmResponse", Json.Str (JS.trim decisionResponse));
                       ("endpoint", Json.Str apiUrl)]);
                   ("data", data)]))
    end.

(** ** steps/index.ts *)

Definition getStepType (instruction : NormalizedInstruction) : string :=
  match instruction with
  | Conditional _ => "llm"
  | EndpointI _ => "endpoint"
  | ThreadI _ => "thread"
  | RouterI _ => "router"
  | AgentI _ => "agent"
  end.

Definition executeStep (instruction : NormalizedInstruction) (ctx : StepContext.t)
  : M (string * string) :=
  match instruction with
  | EndpointI i => executeEndpointStep i ctx
  | ThreadI i => executeThreadStep i ctx
  | RouterI i => executeRouterStep i ctx
  | AgentI i => executeAgentStep i ctx
  | Conditional i => executeLLMStep i ctx
  end.

(** ** index.ts: the sequential scheduler of [MyWorkflow.run] *)

(** The set of branch targets: every index listed in an [ifTrue] or
    [ifFalse] of any instruction. It is built once, before the loop. *)
Definition branchTargetSteps (normalizedInstructions : list NormalizedInstruction)
  : gset Z :=
  fold_left
    (fun acc inst =>
       match conditionOf inst with
       | Some condition =>
           let acc :=
             match Condition.ifTrue condition with
             | Some l => acc ∪ list_to_set l
             | None => acc
             end in
           match Condition.ifFalse condition with
           | Some l => acc ∪ list_to_set l
           | None => acc
           end
       | None => acc
       end)
    normalizedInstructions ∅.

(** The variables of the loop. [steps] is [currentResult.steps].
    [stepIndices] is a ghost of the model: [StepResult] has no field for the
    instruction index, so the index each pushed step result was produced
    for is recorded next to it, in the same order. *)
Record LoopState := mkLoop {
  executedSteps : gset Z;
  executionQueue : list Z;
  steps : list StepResult.t;
  stepIndices : list Z }.

Section Scheduler.

Variable context : string.
Variable provider : Provider.
Variable apiKey : string.
Variable selectedModel : string.
Variable normalizedInstructions : list NormalizedInstruction.

(** [stepIndex + 1 < normalizedInstructions.length] *)
Definition hasNext (stepIndex : Z) : bool :=
  (stepIndex + 1 <? Z.of_nat (length normalizedInstructions))%Z.

(** The queue after the branch decision of a conditioned step. *)
Definition enqueueBranch (queue : list Z) (stepIndex : Z)
    (branch : option (list Z)) : list Z :=
  match branch with
  | Some (idx :: rest) => queue ++ idx :: rest
  | _ => if hasNext stepIndex then queue ++ [(stepIndex + 1)%Z] else queue
  end.

(** The queue after an unconditioned step. *)
Definition enqueueSequential (queue : list Z) (stepIndex : Z) : list Z :=
  if negb (bool_decide (stepIndex ∈ branchTargetSteps normalizedInstructions))
     && hasNext stepIndex
  then queue ++ [(stepIndex + 1)%Z]
  else queue.

(** The body of the loop from [const stepNumber] on, for the index
    [stepIndex] just dequeued and marked executed in [st]. [step.do] runs its
    callback; the retries of the hosting runtime belong to the world. *)
Definition stepBody (stepIndex : Z) (instructionConfig : NormalizedInstruction)
    (st : LoopState) : M LoopState :=
  let stepNumber := (Z.of_nat (length (steps st)) + 1)%Z in
  let isFirstStep := Nat.eqb (length (steps st)) 0 in
  let previousResult :=
    match last (steps st) with
    | Some s => StepResult.result s
    | None => context
    end in
  let instructionType := getStepType instructionConfig in
  do! addLog info
        ("Starting step " +:+ JS.showZ stepNumber +:+ " (" +:+ instructionType
         +:+ ")")
        (Some stepNumber) in
  let stepContext :=
    StepContext.mk provider apiKey selectedModel previousResult isFirstStep
                   stepNumber stepIndex (steps st) in
  let! stepResult := executeStep instructionConfig stepContext in
  match conditionOf instructionConfig with
  | Some condition =>
      let! toEvaluate :=
        match Condition.evaluateAfterStep condition with
        | Some after =>
            match findStep (steps st) after with
            | Some stepToEvaluate => ret (StepResult.result stepToEvaluate, after)
            | None =>
                throw ("Cannot evaluate condition: step " +:+ JS.showZ after
                       +:+ " not found")
            end
        | None => ret (snd stepResult, stepNumber)
        end in
      let! conditionResult :=
        evaluateCondition provider apiKey selectedModel
          (Condition.expression condition) (fst toEvaluate) (snd toEvaluate) in
      let branch :=
        if conditionResult then Condition.ifTrue condition
        else Condition.ifFalse condition in
      ret (mkLoop (executedSteps st)
                  (enqueueBranch (executionQueue st) stepIndex branch)
                  (steps st ++
                   [StepResult.mk stepNumber (fst stepResult) (snd stepResult)
                      true (Some conditionResult)
                      (if conditionResult then branchTrue else branchFalse)])
                  (stepIndices st ++ [stepIndex]))
  | None =>
      ret (mkLoop (executedSteps st)
                  (enqueueSequential (executionQueue st) stepIndex)
                  (steps st ++
                   [StepResult.mk stepNumber (fst stepResult) (snd stepResult)
                      false None branchSequential])
                  (stepIndices st ++ [stepIndex]))
  end.

(** [stepIndex < 0 || stepIndex >= normalizedInstructions.length] *)
Definition outOfBounds (stepIndex : Z) : bool :=
  (stepIndex <? 0)%Z || (Z.of_nat (length normalizedInstructions) <=? stepIndex)%Z.

(** One iteration of the [while] loop. It returns the loop variables as the
    iteration leaves them and the message of the error it threw, if any. *)
Definition iteration (st : LoopState) (s : Store)
  : LoopState * option string * Store :=
  match executionQueue st with
  | [] => (st, None, s)
  | stepIndex :: queue =>
      let shifted := mkLoop (executedSteps st) queue (steps st) (stepIndices st) in
      if bool_decide (stepIndex ∈ executedSteps st) then (shifted, None, s)
      else if outOfBounds stepIndex then (shifted, None, s)
      else
        match normalizedInstructions !! Z.to_nat stepIndex with
        | None => (shifted, None, s)
        | Some instructionConfig =>
            let marked :=
              mkLoop ({[stepIndex]} ∪ executedSteps st) queue (steps st)
                     (stepIndices st) in
            match stepBody stepIndex instructionConfig marked s with
            | (Ok st', s') => (st', None, s')
            | (Throw e, s') => (marked, Some e, s')
            end
        end
  end.

(** [while (executionQueue.length > 0)], with a bound on the number of
    iterations; [None] when the bound is reached. *)
Fixpoint loop (fuel : nat) (st : LoopState) (s : Store)
  : option (LoopState * option string * Store) :=
  match executionQueue st with
  | [] => Some (st, None, s)
  | _ :: _ =>
      match fuel with
      | O => None
      | S fuel' =>
          match iteration st s with
          | (st', None, s') => loop fuel' st' s'
          | (st', Some e, s') => Some (st', Some e, s')
          end
      end
  end.

(** The loop variables when the loop is entered. *)
Definition initialLoop : LoopState := mkLoop ∅ [0%Z] [] [].

(** What executing an instruction can add to the queue, plus one for its own
    dequeue. *)
Definition cost (inst : NormalizedInstruction) : nat :=
  match conditionOf inst with
  | Some condition =>
      S (length (default [] (Condition.ifTrue condition))
         + length (default [] (Condition.ifFalse condition)))
  | None => 1
  end.

(** The number of iterations the loop is given: enough for every run, as
    [loop_total] shows. *)
Definition loopBound : nat := S (sum_list (map cost normalizedInstructions)).

End Scheduler.

(** The bindings of the worker ([this.env]). *)
Record Env := mkEnv {
  ANTHROPIC_API_KEY : option string;
  OPENAI_API_KEY : option string }.

(** [rawInstructions.map(...)]: a bare string becomes a simple instruction,
    an object is kept as it is. *)
Definition normalize (inst : string + NormalizedInstruction) : NormalizedInstruction :=
  match inst with
  | inl s => Simple s
  | inr i => i
  end.

Definition truthyOpt (o : option string) : bool :=
  match o with Some s => JS.truthy s | None => false end.

Definition rawInstructions (payload : Params.t)
  : list (string + NormalizedInstruction) :=
  match Params.instructions payload with
  | Some (i :: l) => i :: l
  | _ =>
      match Params.firstInstruction payload, Params.secondInstruction payload with
      | Some f, Some g => if JS.truthy f && JS.truthy g then [inl f; inl g] else []
      | _, _ => []
      end
  end.

Definition keyName (provider : Provider) : string :=
  match provider with
  | anthropic => "ANTHROPIC_API_KEY"
  | openai => "OPENAI_API_KEY"
  end.

Definition missingKey (provider : Provider) : string :=
  keyName provider +:+ " environment variable is required. "
  +:+ "For local development, ensure .dev.vars file exists in the project root with "
  +:+ keyName provider +:+ " set. "
  +:+ "For production, set it using: wrangler secret put " +:+ keyName provider.

(** How a run ends: with the workflow result, or with the error it threw;
    in both cases the loop variables it ended with are kept for the
    statements below. *)
Record RunExit := mkExit {
  outcome : Result WorkflowResult.t;
  final : LoopState;
  store : Store }.

(** [MyWorkflow.run]; [None] only if the bound of the loop were reached. *)
Definition run (env : Env) (payload : Params.t) (w : World) : option RunExit :=
  let provider := default openai (Params.provider payload) in
  let defaultModel :=
    match provider with
    | anthropic => "claude-haiku-4-5"
    | openai => "gpt-5-nano"
    end in
  let selectedModel := JS.orElse (Params.model payload) defaultModel in
  let apiKey :=
    match provider with
    | anthropic => ANTHROPIC_API_KEY env
    | openai => OPENAI_API_KEY env
    end in
  let s0 := mkStore w [] [] [] in
  if negb (truthyOpt apiKey) then
    Some (mkExit (Throw (missingKey provider)) (mkLoop ∅ [] [] []) s0)
  else
    let apiKey := default "" apiKey in
    match rawInstructions payload with
    | [] =>
        Some (mkExit (Throw "At least one instruction is required")
                     (mkLoop ∅ [] [] []) s0)
    | raw =>
        let normalizedInstructions := map normalize raw in
        let context := Params.context payload in
        let s1 :=
          snd (addLog info
                 ("Starting workflow with "
                  +:+ JS.showZ (Z.of_nat (length normalizedInstructions))
                  +:+ " instructions")
                 None s0) in
        match loop context provider apiKey selectedModel normalizedInstructions
                   (loopBound normalizedInstructions) initialLoop s1 with
        | None => None
        | Some (st, Some e, s) => Some (mkExit (Throw e) st s)
        | Some (st, None, s) =>
            Some (mkExit (Ok (WorkflowResult.mk context (steps st) (errors s)
                                                (logs s)))
                         st s)
        end
    end.

End Engine.

(** ** index.ts: the validation of a submission in [fetch] (POST /) *)

(** An element of [body.instructions] as it arrives: a bare string, or an
    object seen through what the handlers read of it: its [type], the names
    of the other fields it carries, and its [condition]. *)
Inductive RawInstruction :=
| RawString (s : string)
| RawObject (type : option string) (fields : list string)
            (condition : option Condition.t).

Module Body.
Record t := mk {
  context : option string;
  instructions : option (list RawInstruction);
  provider : option Provider;
  model : option string;
  firstInstruction : option string;
  secondInstruction : option string }.
End Body.

(** What the handler answers: an error response, or the parameters it
    creates the workflow instance with. *)
Inductive Submission :=
| Rejected (status : Z) (error : string)
| Created (context : string) (instructions : option (list RawInstruction))
          (provider : Provider) (model : option string)
          (firstInstruction secondInstruction : option string).

(** [idx < 0 || idx >= body.instructions.length] *)
Definition indexOutOfBounds (n : nat) (idx : Z) : bool :=
  (idx <? 0)%Z || (Z.of_nat n <=? idx)%Z.

Definition outOfBoundsError (i : nat) (which : string) (idx : Z) : string :=
  "Conditional instruction " +:+ JS.showZ (Z.of_nat i) +:+ ": " +:+ which
  +:+ " index " +:+ JS.showZ idx +:+ " is out of bounds".

(** The checks of one instruction: the first index out of bounds of its
    [ifTrue], else of its [ifFalse], with the error that reports it. *)
Definition checkInstruction (n i : nat) (inst : RawInstruction) : option string :=
  match inst with
  | RawObject _ _ (Some cond) =>
      match Condition.ifTrue cond ≫= List.find (indexOutOfBounds n) with
      | Some idx => Some (outOfBoundsError i "ifTrue" idx)
      | None =>
          match Condition.ifFalse cond ≫= List.find (indexOutOfBounds n) with
          | Some idx => Some (outOfBoundsError i "ifFalse" idx)
          | None => None
          end
      end
  | _ => None
  end.

(** The validation loop, from the instruction at index [i] on. *)
Fixpoint checkFrom (n i : nat) (l : list RawInstruction) : option string :=
  match l with
  | [] => None
  | inst :: rest =>
      match checkInstruction n i inst with
      | Some e => Some e
      | None => checkFrom n (S i) rest
      end
  end.

Definition validateInstructions (l : list RawInstruction) : option string :=
  checkFrom (length l) 0 l.

(** The POST / branch of [fetch], up to the creation of the instance. *)
Definition fetchPost (body : Body.t) : Submission :=
  if negb (truthyOpt (Body.context body)) then
    Rejected 400 "Missing required field: context"
  else
    let hasInstructions :=
      match Body.instructions body with
      | Some (_ :: _) => true
      | _ => false
      end in
    let hasLegacyInstructions :=
      truthyOpt (Body.firstInstruction body)
      && truthyOpt (Body.secondInstruction body) in
    if negb hasInstructions && negb hasLegacyInstructions then
      Rejected 400
        "Missing required fields: either 'instructions' array or 'firstInstruction' and 'secondInstruction'"
    else
      let created :=
        Created (default "" (Body.context body)) (Body.instructions body)
                (default openai (Body.provider body))
                (match Body.model body with
                 | Some m => if JS.truthy m then Some m else None
                 | None => None
                 end)
                (Body.firstInstruction body) (Body.secondInstruction body) in
      match Body.instructions body with
      | Some (i :: l) =>
          match validateInstructions (i :: l) with
          | Some e => Rejected 400 e
          | None => created
          end
      | _ => created
      end.



(** ** index.ts: the validation of a batch in [fetch] (POST /batch) *)

(** What the batch handler answers: an error response, or the parameters of
    the instances it creates, one element per instance. The parameters of a
    batch instance have no legacy fields. *)
Inductive BatchSubmission :=
| BatchRejected (status : Z) (error : string)
| BatchCreated (instances : list Submission).

(** The POST /batch branch of [fetch], up to the creation of the instances;
    [count] is the field [body.count], an integer when it is there. *)
Definition fetchBatch (count : option Z) (body : Body.t) : BatchSubmission :=
  if negb (truthyOpt (Body.context body)) then
    BatchRejected 400 "Missing required field: context"
  else
    let countOutOfRange :=
      match count with
      | None => true
      | Some n => (n =? 0)%Z || (n <? 1)%Z || (20 <? n)%Z
      end in
    if countOutOfRange then BatchRejected 400 "Count must be between 1 and 20"
    else
      let hasInstructions :=
        match Body.instructions body with
        | Some (_ :: _) => true
        | _ => false
        end in
      if negb hasInstructions then
        BatchRejected 400 "Missing required field: instructions"
      else
        BatchCreated
          (replicate (Z.to_nat (default 0%Z count))
             (Created (default "" (Body.context body)) (Body.instructions body)
                (default openai (Body.provider body))
                (match Body.model body with
                 | Some m => if JS.truthy m then Some m else None
                 | None => None
                 end)
                None None)).

(** ** workflow-engine-ui/app/page.tsx: reordering the instructions *)

Inductive InstructionMode :=
| modeSimple | modeConditional | modeEndpoint | modeThread | modeRouter.

(** [const [draggedItem] = copy.splice(draggedIndex, 1);
     copy.splice(targetIndex, 0, draggedItem)] on a copy of [l]. The cells of
    the result are optional: [None] is the [undefined] that is inserted when
    there is no element at [draggedIndex]. *)
Definition moveItem {A} (draggedIndex targetIndex : nat) (l : list A)
  : list (option A) :=
  let draggedItem := l !! draggedIndex in
  let rest := Some <$> delete draggedIndex l in
  take targetIndex rest ++ draggedItem :: drop targetIndex rest.

(** The callback that [handleDrop] maps over the indices of [ifTrue] and
    [ifFalse]. *)
Definition remapIndex (draggedIndex targetIndex : nat) (idx : Z) : Z :=
  if (idx =? Z.of_nat draggedIndex)%Z then Z.of_nat targetIndex
  else if (draggedIndex <? targetIndex)%nat then
    if (Z.of_nat draggedIndex <? idx)%Z && (idx <=? Z.of_nat targetIndex)%Z
    then (idx - 1)%Z else idx
  else
    if (Z.of_nat targetIndex <=? idx)%Z && (idx <? Z.of_nat draggedIndex)%Z
    then (idx + 1)%Z else idx.

Definition remapCondition (draggedIndex targetIndex : nat) (c : Condition.t)
  : Condition.t :=
  Condition.mk (Condition.evaluateAfterStep c) (Condition.expression c)
    (map (remapIndex draggedIndex targetIndex) <$> Condition.ifTrue c)
    (map (remapIndex draggedIndex targetIndex) <$> Condition.ifFalse c).

(** The update of one instruction: an object with a condition gets the
    remapped condition, anything else is kept. *)
Definition updateReferences (draggedIndex targetIndex : nat)
    (inst : RawInstruction) : RawInstruction :=
  match inst with
  | RawObject type fields (Some c) =>
      RawObject type fields (Some (remapCondition draggedIndex targetIndex c))
  | _ => inst
  end.

(** [handleDrop(targetIndex)]: the new values of the states [instructions]
    and [instructionModes]. *)
Definition handleDrop (draggedIndex : option nat) (targetIndex : nat)
    (instructions : list RawInstruction) (instructionModes : list InstructionMode)
  : list (option RawInstruction) * list (option InstructionMode) :=
  match draggedIndex with
  | None => (Some <$> instructions, Some <$> instructionModes)
  | Some draggedIndex =>
      if Nat.eqb draggedIndex targetIndex
      then (Some <$> instructions, Some <$> instructionModes)
      else
        (option_map (updateReferences draggedIndex targetIndex)
           <$> moveItem draggedIndex targetIndex instructions,
         moveItem draggedIndex targetIndex instructionModes)
  end.

(** ** workflow-flow-ui/app/page.tsx: the nodes of an exported flow *)

(** A node of the canvas, with the fields the export reads before it
    converts the step configuration, which is carried along as it is. *)
Module FlowNode.
Record t {Config : Type} := mk {
  id : string;
  label : string;
  description : option string;
  stepConfig : Config }.
Arguments t : clear implicits.
Arguments mk {Config}.
End FlowNode.

Module FlowEdge.
Record t := mk {
  source : string;
  target : string }.
End FlowEdge.

(** The two variables the traversal updates: the set [visited] and the
    array [orderedNodes]. *)
Record Visit {Config : Type} := mkVisit {
  visited : gset string;
  orderedNodes : list (FlowNode.t Config) }.
Arguments Visit : clear implicits.
Arguments mkVisit {Config}.

Section FlowExport.

Context {Config : Type}.
Variable nodes : list (FlowNode.t Config).
Variable edges : list FlowEdge.t.

(** The adjacency lists: for each source, its targets in the order of the
    edges. Node ids are keys of a plain object; they are taken to be names
    that an empty object does not have. *)
Definition adjacency : gmap string (list string) :=
  fold_left
    (fun adj edge =>
       <[FlowEdge.source edge :=
           default [] (adj !! FlowEdge.source edge) ++ [FlowEdge.target edge]]> adj)
    edges ∅.

(** [visit(nodeId)]; [None] when the bound on the depth of the recursion is
    reached. *)
Fixpoint visit (fuel : nat) (nodeId : string) (st : Visit Config)
  : option (Visit Config) :=
  match fuel with
  | O => None
  | S fuel' =>
      if bool_decide (nodeId ∈ visited st) then Some st
      else
        let node :=
          List.find (fun n => String.eqb (FlowNode.id n) nodeId) nodes in
        let st1 :=
          mkVisit ({[nodeId]} ∪ visited st)
                  (match node with
                   | Some n => orderedNodes st ++ [n]
                   | None => orderedNodes st
                   end) in
        fold_left
          (fun acc child =>
             match acc with
             | Some st' => visit fuel' child st'
             | None => None
             end)
          (default [] (adjacency !! nodeId)) (Some st1)
  end.

(** The depth the traversal is given: enough for every flow, as
    [orderNodes_total] shows. *)
Definition visitBound : nat := S (length nodes + length edges).

(** The nodes without an incoming edge. *)
Definition startNodes : list (FlowNode.t Config) :=
  let hasIncoming : gset string := list_to_set (FlowEdge.target <$> edges) in
  List.filter (fun n => negb (bool_decide (FlowNode.id n ∈ hasIncoming))) nodes.

(** The execution order: the traversal from each start node, then the
    nodes it did not reach. *)
Definition orderNodes : option (list (FlowNode.t Config)) :=
  match fold_left
          (fun acc n =>
             match acc with
             | Some st => visit visitBound (FlowNode.id n) st
             | None => None
             end)
          startNodes (Some (mkVisit ∅ [])) with
  | None => None
  | Some st =>
      Some (orderedNodes
              (fold_left
                 (fun st n =>
                    if bool_decide (FlowNode.id n ∈ visited st) then st
                    else mkVisit ({[FlowNode.id n]} ∪ visited st)
                                 (orderedNodes st ++ [n]))
                 nodes st))
  end.

(** [label.toLowerCase().includes("start")] *)
Definition isStartNode (n : FlowNode.t Config) : bool :=
  JS.includes (JS.toLowerCase (FlowNode.label n)) "start".

(** [handleExportFlow], up to the conversion of the step configurations:
    the context of the payload and the nodes that become its instructions,
    in their order. *)
Definition handleExportFlow : option (string * list (FlowNode.t Config)) :=
  match orderNodes with
  | None => None
  | Some ordered =>
      let context :=
        match List.find isStartNode ordered with
        | Some startNode => JS.orElse (FlowNode.description startNode) "Workflow context"
        | None => "Workflow context"
        end in
      Some (context, List.filter (fun n => negb (isStartNode n)) ordered)
  end.

End FlowExport.

(** ** Sample worlds

    A world without state, whose LLM answers [verdict] to the condition
    evaluator and [other] to every other prompt, and whose gateway is down. *)

Definition sampleLLM (verdict other : string)
  : Provider -> string -> string -> string -> string -> unit -> Result string * unit :=
  fun _ _ _ systemPrompt _ w =>
    if String.eqb systemPrompt evaluatorSystemPrompt then (Ok verdict, w)
    else (Ok other, w).

Definition offlineEndpoint : GatewayCall.t -> unit -> Result string * unit :=
  fun _ w => (Throw "gateway offline", w).

Definition offlineFetch : FetchRequest.t -> unit -> Result Response.t * unit :=
  fun _ w => (Throw "network offline", w).

Definition rejectParse : string -> Result Json.t :=
  fun _ => Throw "Unexpected token".

Definition emptyStore : @Store unit := mkStore tt [] [] [].

(** Example A of the specification. *)
Definition checkCondition : Condition.t :=
  Condition.mk None "contains YES" (Some [2%Z]) (Some [3%Z]).

Definition exampleA : Params.t :=
  Params.mk "input"
    (Some [inl "A";
           inr (Conditional (ConditionalInstruction.mk "check" (Some checkCondition)));
           inl "success";
           inl "fail"])
    None None None None.

Definition sampleEnv : Env := mkEnv None (Some "sk-test").

(** A router with two options and a default, an agent that skips, and a
    thread over three steps of which two have run. *)
Definition sampleEndpoint (path : string) : Endpoint.t :=
  Endpoint.mk "https://endpoint-1.workers.dev" ("https://api.example.com/" +:+ path)
              None None None.

Definition weatherOption : Choice.t :=
  Choice.mk "weather" "Weather" "Current weather" (sampleEndpoint "weather").

Definition newsOption : Choice.t :=
  Choice.mk "news" "News" "Latest headlines" (sampleEndpoint "news").

Definition sampleRouter : RouterInstruction.t :=
  RouterInstruction.mk "Pick a source" "Which source fits?"
    [weatherOption; newsOption] (Some "news") None None None None.





(** Two instructions whose branches point at each other and at themselves. *)
Definition cyclicInstructions : list NormalizedInstruction :=
  [Conditional (ConditionalInstruction.mk "ping"
     (Some (Condition.mk None "again?" (Some [0%Z; 1%Z]) (Some [0%Z]))));
   Conditional (ConditionalInstruction.mk "pong"
     (Some (Condition.mk None "again?" (Some [0%Z]) (Some [1%Z; 0%Z]))))].

Definition cyclicPayload : Params.t :=
  Params.mk "input" (Some (inr <$> cyclicInstructions)) None None None None.

(** A branch on two simple steps, and the loop state after its first step
    ran and chose the true branch. *)
Definition forkInstructions : list NormalizedInstruction :=
  [Conditional (ConditionalInstruction.mk "check"
     (Some (Condition.mk None "ok?" (Some [1%Z]) (Some [2%Z]))));
   Simple "on true";
   Simple "on false"].

Definition firstStepDone : list StepResult.t :=
  [StepResult.mk 1 "check" "done" true (Some true) branchTrue].

Definition afterFork : LoopState := mkLoop {[0%Z]} [1%Z] firstStepDone [0%Z].

(** The same with a conditioned branch target that lists no branch of its
    own. *)
Definition recheck : NormalizedInstruction :=
  Conditional (ConditionalInstruction.mk "recheck"
    (Some (Condition.mk None "still ok?" None (Some [])))).

Definition chainInstructions : list NormalizedInstruction :=
  [Conditional (ConditionalInstruction.mk "check"
     (Some (Condition.mk None "ok?" (Some [1%Z]) None)));
   recheck;
   Simple "finish"].

Definition afterRecheck : LoopState :=
  mkLoop ({[1%Z]} ∪ {[0%Z]}) [2%Z]
         (firstStepDone
          ++ [StepResult.mk 2 "recheck" "done" true (Some true) branchTrue])
         [0%Z; 1%Z].

Definition storeAfterRecheck : @Store unit :=
  mkStore tt [LogEntry.mk info "Starting step 2 (llm)" (Some 2%Z)] [] [].

(** The instructions of Example A, normalized. *)
Definition instructionsA : list NormalizedInstruction :=
  [Simple "A";
   Conditional (ConditionalInstruction.mk "check" (Some checkCondition));
   Simple "success";
   Simple "fail"].


Definition danglingBody : Body.t :=
  Body.mk (Some "input")
          (Some [RawString "first";
                 RawObject None ["instruction"]
                   (Some (Condition.mk None "ok?" (Some [1%Z]) (Some [7%Z])))])
          None None None None.

(** A branch into a thread that asks for a step that never ran. *)
Definition brokenPayload : Params.t :=
  Params.mk "input"
    (Some [inr (Conditional (ConditionalInstruction.mk "check"
                  (Some (Condition.mk None "ok?" (Some [1%Z; 2%Z]) None))));
           inr (ThreadI (ThreadInstruction.mk [9%Z] None None None None));
           inl "finish"])
    None None None None.

(** Three bare strings, and a condition that asks for the result of its
    own step. *)
Definition plainInstructions : list NormalizedInstruction :=
  [Simple "draft"; Simple "refine"; Simple "summarize"].

Definition selfCondition : Condition.t :=
  Condition.mk (Some 1%Z) "ok?" (Some [1%Z]) None.

Definition selfReference : list NormalizedInstruction :=
  [Conditional (ConditionalInstruction.mk "check" (Some selfCondition));
   Simple "next"].

(** A list in the editor: a conditioned instruction between two simple ones,
    with branches to its two neighbours. *)
Definition editorInstructions : list RawInstruction :=
  [RawString "draft";
   RawObject None ["instruction"]
     (Some (Condition.mk None "ok?" (Some [2%Z]) (Some [0%Z])));
   RawString "publish"].

Definition editorModes : list InstructionMode :=
  [modeSimple; modeConditional; modeSimple].

(** A flow on the canvas: a start node, a step, and a step whose label
    happens to contain the word start, on a cycle with the step before. *)
Definition flowNodes : list (FlowNode.t unit) :=
  [FlowNode.mk "1" "Start Node" (Some "Workflow entry point") tt;
   FlowNode.mk "2" "Fetch" None tt;
   FlowNode.mk "3" "Restart service" None tt].

Definition flowEdges : list FlowEdge.t :=
  [FlowEdge.mk "1" "2"; FlowEdge.mk "2" "3"; FlowEdge.mk "3" "2"].

(** ** Notions used in the statements *)

(** [sub] occurs in [s]. *)
Definition Contains (s sub : string) : Prop :=
  exists pre post, s = pre +:+ sub +:+ post.


(** No element of [l] satisfies [P]. *)
Definition NoneSuch {A} (P : A -> bool) (l : list A) : Prop :=
  Forall (fun y => P y = false) l.

(** A step result with the step number [n] has been produced. *)
Definition Produced (steps : list StepResult.t) (n : Z) : Prop :=
  exists sr, sr ∈ steps /\ StepResult.stepNumber sr = n.

(** The evaluator's reading of an answer. *)
Definition normalizeAnswer (response : string) : string :=
  JS.toLowerCase (JS.trim response).




(** The cost of the instructions from index [k] on that are not executed
    yet: what the loop may still have to enqueue and dequeue for them. *)
Fixpoint pendingFrom (k : nat) (l : list NormalizedInstruction)
    (executed : gset Z) : nat :=
  match l with
  | [] => 0
  | inst :: rest =>
      (if bool_decide (Z.of_nat k ∈ executed) then 0 else cost inst)
      + pendingFrom (S k) rest executed
  end.

(** The measure that decreases at every iteration of the loop. *)
Definition measure (instructions : list NormalizedInstruction) (st : LoopState)
  : nat :=
  length (executionQueue st) + pendingFrom 0 instructions (executedSteps st).

Definition inRange (instructions : list NormalizedInstruction) (i : Z) : Prop :=
  (0 <= i < Z.of_nat (length instructions))%Z.

(** The invariant of the loop. *)
Record Inv (instructions : list NormalizedInstruction) (st : LoopState) : Prop :=
  mkInv {
    inv_nodup : NoDup (stepIndices st);
    inv_executed : forall i, i ∈ stepIndices st -> i ∈ executedSteps st;
    inv_range : forall i, i ∈ executedSteps st -> inRange instructions i;
    inv_length : length (stepIndices st) = length (steps st);
    inv_numbers :
      forall k sr, steps st !! k = Some sr ->
                   StepResult.stepNumber sr = (Z.of_nat k + 1)%Z }.

(** An index is listed as a branch target by an instruction. *)
Definition ListedBy (inst : NormalizedInstruction) (i : Z) : Prop :=
  exists condition,
    conditionOf inst = Some condition
    /\ (i ∈ default [] (Condition.ifTrue condition)
        \/ i ∈ default [] (Condition.ifFalse condition)).

(** How an index can come to be executed: it is the entry index 0, or a
    branch target, or the successor of an index that produced a step
    result. *)
Definition Reachable (instructions : list NormalizedInstruction)
    (st : LoopState) (j : Z) : Prop :=
  j = 0%Z \/ j ∈ branchTargetSteps instructions \/ (j - 1)%Z ∈ stepIndices st.

(** The indices in the queue and the indices executed are reachable. *)
Definition AllReachable (instructions : list NormalizedInstruction)
    (st : LoopState) : Prop :=
  forall j, j ∈ executionQueue st \/ j ∈ stepIndices st ->
            Reachable instructions st j.

(** The character [c] occurs in [s]. *)
Definition HasChar (c : ascii) (s : string) : Prop :=
  In c (list_ascii_of_string s).



(** Every id the traversal of a flow can meet: the ids of the nodes and the
    targets of the edges. *)
Definition flowIds {Config} (nodes : list (FlowNode.t Config))
    (edges : list FlowEdge.t) : gset string :=
  list_to_set (FlowNode.id <$> nodes) ∪ list_to_set (FlowEdge.target <$> edges).

(** The invariant of the traversal: the ordered nodes are nodes of the flow
    with visited ids, no id is ordered twice, and every visited id of a node
    is ordered. *)
Record VisitInv {Config} (nodes : list (FlowNode.t Config)) (st : Visit Config)
  : Prop := mkVisitInv {
  vi_sound :
    forall n, n ∈ orderedNodes st -> n ∈ nodes /\ FlowNode.id n ∈ visited st;
  vi_nodup : NoDup (FlowNode.id <$> orderedNodes st);
  vi_complete :
    forall n, n ∈ nodes -> FlowNode.id n ∈ visited st ->
              FlowNode.id n ∈ FlowNode.id <$> orderedNodes st }.

(** The edges of a linear flow: from each id to the next. *)
Definition chainEdges (ids : list string) : list FlowEdge.t :=
  zip_with FlowEdge.mk ids (tail ids).

(** * Properties *)

(** ** Strings *)


Lemma append_cons (c : ascii) (a b : string) :
  String c a +:+ b = String c (a +:+ b).
Proof. reflexivity. Qed.

Lemma prefix_split (p s : string) :
  String.prefix p s = true <-> exists post, s = p +:+ post.
Proof.
  revert s. induction p as [|c p IH]; intros s.
  - split; [intros _; exists s; reflexivity | destruct s; reflexivity].
  - destruct s as [|d s].
    + split; [discriminate | intros [post H]; discriminate].
    + cbn [String.prefix]. destruct (ascii_dec c d) as [->|Hne].
      * rewrite IH. split; intros [post H]; exists post.
        -- rewrite append_cons. congruence.
        -- rewrite append_cons in H. congruence.
      * split; [discriminate|]. intros [post H].
        rewrite append_cons in H. congruence.
Qed.

Lemma includes_Contains (s sub : string) :
  JS.includes s sub = true <-> Contains s sub.
Proof.
  induction s as [|c s IH].
  - cbn [JS.includes]. rewrite orb_false_r, prefix_split. split.
    + intros [post H]. exists "", post. exact H.
    + intros [[|c pre] [post H]]; [exists post; exact H|].
      rewrite append_cons in H. discriminate.
  - cbn [JS.includes]. rewrite orb_true_iff, prefix_split, IH. split.
    + intros [[post H]|[pre [post H]]].
      * exists "", post. exact H.
      * exists (String c pre), post. rewrite append_cons. congruence.
    + intros [[|d pre] [post H]].
      * left. exists post. exact H.
      * right. rewrite append_cons in H. injection H as _ H.
        exists pre, post. exact H.
Qed.

Lemma includes_empty (s : string) : JS.includes s "" = true.
Proof. apply includes_Contains. exists "", s. reflexivity. Qed.

Lemma not_includes_Contains (s sub : string) :
  JS.includes s sub = false <-> ~ Contains s sub.
Proof.
  rewrite <- includes_Contains. destruct (JS.includes s sub); split; done.
Qed.

(** ** JSON string literals *)







(** ** The monad *)

Section MonadFacts.

Context {World : Type}.
Implicit Types s : @Store World.

Lemma bind_Ok_inv {A B} (m : M A) (k : A -> M B) s b s' :
  bind m k s = (Ok b, s') ->
  exists a s1, m s = (Ok a, s1) /\ k a s1 = (Ok b, s').
Proof.
  unfold bind. destruct (m s) as [[a|e] s1]; [eauto | discriminate].
Qed.

Lemma bind_Ok {A B} (m : M A) (k : A -> M B) s a s1 :
  m s = (Ok a, s1) -> bind m k s = k a s1.
Proof. unfold bind. by intros ->. Qed.

Lemma bind_Throw {A B} (m : M A) (k : A -> M B) s e s1 :
  m s = (Throw e, s1) -> bind m k s = (Throw e, s1).
Proof. unfold bind. by intros ->. Qed.

Lemma liftWorld_Ok {A} (op : World -> Result A * World) s r w :
  op (world s) = (r, w) ->
  liftWorld op s = (r, mkStore w (logs s) (errors s) (console s)).
Proof. unfold liftWorld. by intros ->. Qed.

End MonadFacts.

(** ** The condition evaluator *)

Section EvaluatorFacts.

Context {World : Type}.
Variable callLLM :
  Provider -> string -> string -> string -> string -> World -> Result string * World.
Implicit Types s : @Store World.

(** What the evaluator computes from an answer. *)
Lemma evaluateCondition_eval provider apiKey model expr subject n s response w :
  callLLM provider apiKey model evaluatorSystemPrompt
          (evaluatorUserPrompt expr subject n) (world s) = (Ok response, w) ->
  let hasTrue := JS.includes (normalizeAnswer response) "true" in
  let hasFalse := JS.includes (normalizeAnswer response) "false" in
  evaluateCondition callLLM provider apiKey model expr subject n s
  = (Ok (hasTrue && negb hasFalse),
     mkStore w (logs s) (errors s)
             (console s ++ if hasTrue || hasFalse then []
                           else [unclearWarning response])).
Proof.
  intros Hcall hasTrue hasFalse. unfold evaluateCondition.
  rewrite (bind_Ok _ _ _ _ _ (liftWorld_Ok _ _ _ _ Hcall)).
  fold (normalizeAnswer response). fold hasTrue hasFalse.
  destruct hasTrue, hasFalse; cbn; by rewrite ?app_nil_r.
Qed.

(** C4. Whatever the Oracle answers, the evaluator returns true exactly when
    the trimmed, lowercased answer contains "true" and does not contain
    "false"; it returns false when the normalized answer contains "false";
    and when it contains neither, the evaluator logs one warning on the
    console and returns false. In the other cases nothing is logged. *)
Theorem evaluateCondition_verdict provider apiKey model expr subject n s response w :
  callLLM provider apiKey model evaluatorSystemPrompt
          (evaluatorUserPrompt expr subject n) (world s) = (Ok response, w) ->
  let normalized := normalizeAnswer response in
  exists verdict s',
    evaluateCondition callLLM provider apiKey model expr subject n s
      = (Ok verdict, s')
    /\ (verdict = true <->
        Contains normalized "true" /\ ~ Contains normalized "false")
    /\ (Contains normalized "false" -> verdict = false)
    /\ (~ Contains normalized "true" -> ~ Contains normalized "false" ->
        verdict = false /\ console s' = console s ++ [unclearWarning response])
    /\ (Contains normalized "true" \/ Contains normalized "false" ->
        console s' = console s)
    /\ world s' = w /\ logs s' = logs s /\ errors s' = errors s.
Proof.
  intros Hcall normalized. rewrite (evaluateCondition_eval _ _ _ _ _ _ _ _ _ Hcall).
  fold normalized.
  pose proof (includes_Contains normalized "true") as Ht.
  pose proof (includes_Contains normalized "false") as Hf.
  destruct (JS.includes normalized "true"), (JS.includes normalized "false").
  all: eexists _, _; split; [reflexivity|]; cbn; rewrite ?app_nil_r.
  all: intuition congruence.
Qed.

End EvaluatorFacts.

(** An instance: the answer [maybe] gives false and one warning. *)
Lemma evaluateCondition_verdict_witness :
  sampleLLM "maybe" "done" openai "sk-test" "gpt-5-nano" evaluatorSystemPrompt
            (evaluatorUserPrompt "contains YES" "no idea" 2) (world emptyStore)
    = (Ok "maybe", tt)
  /\ exists s',
       evaluateCondition (sampleLLM "maybe" "done") openai "sk-test" "gpt-5-nano"
                         "contains YES" "no idea" 2 emptyStore = (Ok false, s')
       /\ console s' = [unclearWarning "maybe"].
Proof.
  split; [reflexivity|].
  destruct (evaluateCondition_verdict (sampleLLM "maybe" "done") openai "sk-test"
              "gpt-5-nano" "contains YES" "no idea" 2 emptyStore "maybe" tt
              eq_refl)
    as (verdict & s' & Hrun & _ & _ & Hneither & _).
  assert (Hno : forall sub, JS.includes (normalizeAnswer "maybe") sub = false ->
                            ~ Contains (normalizeAnswer "maybe") sub)
    by (intros sub; apply not_includes_Contains).
  destruct Hneither as [-> Hconsole]; [by apply Hno | by apply Hno |].
  exists s'. split; [exact Hrun | exact Hconsole].
Defined.

(** ** The router's selection *)


Lemma find_None_NoneSuch {A} (P : A -> bool) (l : list A) :
  List.find P l = None <-> NoneSuch P l.
Proof.
  unfold NoneSuch. induction l as [|y l IH]; cbn.
  - split; [constructor | reflexivity].
  - destruct (P y) eqn:Hy.
    + split; [discriminate | intros H; inversion H; congruence].
    + rewrite IH. split; [by constructor | by inversion 1].
Qed.



Section RouterFacts.

Context {World : Type}.
Implicit Types s : @Store World.


End RouterFacts.


(** ** The thread handler *)

Lemma findStep_None (steps : list StepResult.t) (n : Z) :
  findStep steps n = None <-> ~ Produced steps n.
Proof.
  unfold findStep, Produced. split.
  - intros Hnone (sr & Hin & Hn).
    apply list_elem_of_In in Hin. apply (find_none _ _ Hnone) in Hin.
    apply Z.eqb_neq in Hin. contradiction.
  - intros Hno. destruct (find _ steps) as [sr|] eqn:Hfind; [|done].
    apply find_some in Hfind as [Hin Hn]. destruct Hno. exists sr.
    split; [by apply list_elem_of_In | by apply Z.eqb_eq].
Qed.






Section ThreadFacts.

Context {World : Type}.
Variable callLLM :
  Provider -> string -> string -> string -> string -> World -> Result string * World.
Implicit Types s : @Store World.


End ThreadFacts.


(** ** The agent handler *)

Section AgentFacts.

Context {World : Type}.
Variable callLLM :
  Provider -> string -> string -> string -> string -> World -> Result string * World.
Variable callEndpoint : GatewayCall.t -> World -> Result string * World.
Variable fetch : FetchRequest.t -> World -> Result Response.t * World.
Variable JSON_parse : string -> Result Json.t.
Implicit Types s : @Store World.


End AgentFacts.



(** ** The scheduler: the measure *)

Lemma pendingFrom_empty k l : pendingFrom k l ∅ = sum_list (map cost l).
Proof.
  revert k. induction l as [|inst l IH]; intros k; cbn; [done|].
  rewrite IH. rewrite bool_decide_eq_false_2 by set_solver. done.
Qed.

Lemma pendingFrom_below k l (executed : gset Z) (i : Z) :
  (i < Z.of_nat k)%Z ->
  pendingFrom k l ({[i]} ∪ executed) = pendingFrom k l executed.
Proof.
  revert k. induction l as [|inst l IH]; intros k Hi; cbn; [done|].
  rewrite IH by lia. f_equal.
  rewrite (bool_decide_ext (Z.of_nat k ∈ {[i]} ∪ executed) (Z.of_nat k ∈ executed));
    [done|].
  rewrite elem_of_union, elem_of_singleton. split; [intros [?|?]; [lia|done] | auto].
Qed.

Lemma pendingFrom_mark k l (executed : gset Z) (i : nat) inst :
  (k <= i)%nat -> l !! (i - k)%nat = Some inst -> Z.of_nat i ∉ executed ->
  pendingFrom k l executed
  = (cost inst + pendingFrom k l ({[Z.of_nat i]} ∪ executed))%nat.
Proof.
  revert k. induction l as [|a l IH]; intros k Hk Hlook Hfresh; [done|].
  cbn [pendingFrom]. destruct (decide (i = k)) as [->|Hne].
  - rewrite Nat.sub_diag in Hlook. injection Hlook as ->.
    rewrite bool_decide_eq_false_2 by done.
    rewrite bool_decide_eq_true_2 by set_solver.
    rewrite pendingFrom_below by lia. lia.
  - replace (i - k)%nat with (S (i - S k)) in Hlook by lia. cbn in Hlook.
    rewrite (IH (S k)) by (done || lia).
    rewrite (bool_decide_ext (Z.of_nat k ∈ {[Z.of_nat i]} ∪ executed)
                             (Z.of_nat k ∈ executed)); [lia|].
    rewrite elem_of_union, elem_of_singleton. split; [intros [?|?]; [lia|done] | auto].
Qed.

Lemma size_in_range (instructions : list NormalizedInstruction) (executed : gset Z) :
  (forall i, i ∈ executed -> inRange instructions i) ->
  size executed <= length instructions.
Proof.
  intros Hrange.
  set (all := Z.of_nat <$> seq 0 (length instructions)).
  assert (Hnodup : NoDup all).
  { apply NoDup_fmap_2; [apply _ | apply NoDup_seq]. }
  transitivity (size (list_to_set all : gset Z)).
  - apply subseteq_size. intros i Hi. apply elem_of_list_to_set.
    apply list_elem_of_fmap. exists (Z.to_nat i). destruct (Hrange i Hi).
    split; [lia|]. apply elem_of_seq. lia.
  - rewrite size_list_to_set by done. unfold all.
    by rewrite length_fmap, length_seq.
Qed.

Lemma length_le_size (l : list Z) (executed : gset Z) :
  NoDup l -> (forall i, i ∈ l -> i ∈ executed) -> length l <= size executed.
Proof.
  intros Hnodup Hsub. rewrite <- (size_list_to_set (C := gset Z) l) by done.
  apply subseteq_size. intros i Hi. apply Hsub. by apply elem_of_list_to_set in Hi.
Qed.

(** ** The scheduler: one iteration *)

Section SchedulerFacts.

Context {World : Type}.
Variable callLLM :
  Provider -> string -> string -> string -> string -> World -> Result string * World.
Variable callEndpoint : GatewayCall.t -> World -> Result string * World.
Variable fetch : FetchRequest.t -> World -> Result Response.t * World.
Variable JSON_parse : string -> Result Json.t.
Variable context : string.
Variable provider : Provider.
Variable apiKey : string.
Variable selectedModel : string.
Variable instructions : list NormalizedInstruction.
Implicit Types s : @Store World.
Implicit Types st : LoopState.

Abbreviation stepBody' :=
  (stepBody callLLM callEndpoint fetch JSON_parse context provider apiKey
            selectedModel instructions).
Abbreviation iteration' :=
  (iteration callLLM callEndpoint fetch JSON_parse context provider apiKey
             selectedModel instructions).
Abbreviation loop' :=
  (loop callLLM callEndpoint fetch JSON_parse context provider apiKey
        selectedModel instructions).

(** What a step body that does not throw leaves behind. *)
Lemma stepBody_Ok i inst st s st' s' :
  stepBody' i inst st s = (Ok st', s') ->
  exists sr,
    executedSteps st' = executedSteps st
    /\ steps st' = steps st ++ [sr]
    /\ stepIndices st' = stepIndices st ++ [i]
    /\ StepResult.stepNumber sr = (Z.of_nat (length (steps st)) + 1)%Z
    /\ match conditionOf inst with
       | None =>
           executionQueue st' = enqueueSequential instructions (executionQueue st) i
           /\ StepResult.conditionResult sr = None
           /\ StepResult.branchTaken sr = branchSequential
       | Some condition =>
           exists verdict,
             StepResult.conditionResult sr = Some verdict
             /\ executionQueue st'
                = enqueueBranch instructions (executionQueue st) i
                    (if verdict then Condition.ifTrue condition
                     else Condition.ifFalse condition)
             /\ StepResult.branchTaken sr
                = (if verdict then branchTrue else branchFalse)
       end.
Proof.
  unfold stepBody. intros H.
  apply bind_Ok_inv in H as (_ & s1 & _ & H).
  apply bind_Ok_inv in H as (stepResult & s2 & _ & H).
  destruct (conditionOf inst) as [condition|].
  - apply bind_Ok_inv in H as (toEvaluate & s3 & _ & H).
    apply bind_Ok_inv in H as (verdict & s4 & _ & H).
    injection H as <- <-. eexists. repeat split. exists verdict. by repeat split.
  - injection H as <- <-. eexists. by repeat split.
Qed.

Lemma enqueueBranch_length queue i branch :
  length (enqueueBranch instructions queue i branch)
  <= length queue + S (length (default [] branch)).
Proof.
  unfold enqueueBranch. destruct branch as [[|idx rest]|]; cbn.
  all: try (destruct (hasNext instructions i)); rewrite ?length_app; cbn; lia.
Qed.

Lemma enqueueSequential_length queue i :
  length (enqueueSequential instructions queue i) <= length queue + 1.
Proof.
  unfold enqueueSequential.
  destruct (_ && _); rewrite ?length_app; cbn; lia.
Qed.

Lemma stepBody_queue_length i inst st s st' s' :
  stepBody' i inst st s = (Ok st', s') ->
  length (executionQueue st') <= length (executionQueue st) + cost inst.
Proof.
  intros (sr & _ & _ & _ & _ & H)%stepBody_Ok. unfold cost.
  destruct (conditionOf inst) as [condition|].
  - destruct H as ([] & _ & -> & _).
    + pose proof (enqueueBranch_length (executionQueue st) i
                    (Condition.ifTrue condition)). lia.
    + pose proof (enqueueBranch_length (executionQueue st) i
                    (Condition.ifFalse condition)). lia.
  - destruct H as (-> & _). apply enqueueSequential_length.
Qed.

Lemma outOfBounds_inRange i :
  outOfBounds instructions i = false <-> inRange instructions i.
Proof.
  unfold outOfBounds, inRange.
  rewrite orb_false_iff, Z.ltb_ge, Z.leb_gt. lia.
Qed.

Lemma inRange_lookup i :
  inRange instructions i -> is_Some (instructions !! Z.to_nat i).
Proof. intros [? ?]. apply lookup_lt_is_Some. lia. Qed.

(** The three ways an iteration goes: the index is discarded; the step runs
    and its result is pushed; the step throws. *)
Lemma iteration_cases st s i queue :
  executionQueue st = i :: queue ->
  let shifted := mkLoop (executedSteps st) queue (steps st) (stepIndices st) in
  let marked :=
    mkLoop ({[i]} ∪ executedSteps st) queue (steps st) (stepIndices st) in
  ((i ∈ executedSteps st \/ ~ inRange instructions i)
   /\ iteration' st s = (shifted, None, s))
  \/ ((i ∉ executedSteps st) /\ inRange instructions i
      /\ exists inst,
           instructions !! Z.to_nat i = Some inst
           /\ ((exists st' s',
                  stepBody' i inst marked s = (Ok st', s')
                  /\ iteration' st s = (st', None, s'))
               \/ (exists e s',
                     stepBody' i inst marked s = (Throw e, s')
                     /\ iteration' st s = (marked, Some e, s')))).
Proof.
  intros Hqueue shifted marked. unfold iteration. rewrite Hqueue.
  fold shifted marked.
  destruct (decide (i ∈ executedSteps st)) as [Hin|Hnotin].
  { rewrite bool_decide_eq_true_2 by done. left. auto. }
  rewrite bool_decide_eq_false_2 by done.
  destruct (outOfBounds instructions i) eqn:Hbounds.
  { left. split; [right|done]. rewrite <- outOfBounds_inRange. congruence. }
  apply outOfBounds_inRange in Hbounds.
  destruct (inRange_lookup i Hbounds) as [inst Hinst]. rewrite Hinst.
  right. repeat split; [done | apply Hbounds | apply Hbounds |]. exists inst.
  split; [done|].
  destruct (stepBody' i inst marked s) as [[st'|e] s'] eqn:Hbody.
  - left. by exists st', s'.
  - right. by exists e, s'.
Qed.

Lemma iteration_Inv st s st' thrown s' :
  Inv instructions st -> iteration' st s = (st', thrown, s') ->
  Inv instructions st'.
Proof.
  intros HInv Hiter. destruct (executionQueue st) as [|i queue] eqn:Hqueue.
  { unfold iteration in Hiter. rewrite Hqueue in Hiter. by injection Hiter as <- _ _. }
  destruct HInv as [Hnodup Hexec Hrange Hlen Hnum].
  destruct (iteration_cases st s i queue Hqueue)
    as [[_ Heq]|(Hfresh & Hin & inst & Hinst & [(st1 & s1 & Hbody & Heq)|(e & s1 & Hbody & Heq)])].
  - rewrite Heq in Hiter. injection Hiter as <- _ _. by constructor.
  - rewrite Heq in Hiter. injection Hiter as <- _ _.
    apply stepBody_Ok in Hbody as (sr & He & Hs & Hi & Hn & _). cbn in *.
    constructor.
    + rewrite Hi. apply NoDup_app. split; [done|]. split; [|apply NoDup_singleton].
      intros j Hj ->%list_elem_of_singleton. auto.
    + rewrite Hi, He. intros j [Hj| ->%list_elem_of_singleton]%elem_of_app.
      * apply elem_of_union_r. auto.
      * by apply elem_of_union_l, elem_of_singleton.
    + rewrite He. intros j [->%elem_of_singleton|Hj]%elem_of_union; auto.
    + rewrite Hi, Hs, !length_app. cbn. lia.
    + rewrite Hs. intros k x Hk.
      apply lookup_app_Some in Hk as [Hk|[Hge Hk]]; [by apply Hnum|].
      apply list_lookup_singleton_Some in Hk as [Hk ->].
      rewrite Hn. lia.
  - rewrite Heq in Hiter. injection Hiter as <- _ _. constructor; cbn; try done.
    + intros j Hj. apply elem_of_union_r. auto.
    + intros j [->%elem_of_singleton|Hj]%elem_of_union; auto.
Qed.

Lemma iteration_measure st s st' s' :
  executionQueue st <> [] -> iteration' st s = (st', None, s') ->
  measure instructions st' < measure instructions st.
Proof.
  intros Hne Hiter. destruct (executionQueue st) as [|i queue] eqn:Hqueue; [done|].
  unfold measure. rewrite Hqueue.
  destruct (iteration_cases st s i queue Hqueue)
    as [[_ Heq]|(Hfresh & Hin & inst & Hinst & [(st1 & s1 & Hbody & Heq)|(e & s1 & Hbody & Heq)])].
  - rewrite Heq in Hiter. injection Hiter as <- _. cbn. lia.
  - rewrite Heq in Hiter. injection Hiter as <- _.
    pose proof (stepBody_queue_length _ _ _ _ _ _ Hbody) as Hlen.
    apply stepBody_Ok in Hbody as (sr & He & _). rewrite He. cbn in *.
    destruct Hin as [Hlo Hhi].
    rewrite (pendingFrom_mark 0 instructions (executedSteps st) (Z.to_nat i) inst);
      rewrite ?Nat.sub_0_r, ?Z2Nat.id; try done; lia.
  - rewrite Heq in Hiter. discriminate.
Qed.

(** ** The scheduler: the loop *)

(** With a bound that covers the measure, the loop ends, the invariant
    holds where it ends, and the queue is empty unless a step threw. *)
Lemma loop_total fuel st s :
  measure instructions st <= fuel -> Inv instructions st ->
  exists st' thrown s',
    loop' fuel st s = Some (st', thrown, s')
    /\ Inv instructions st'
    /\ (thrown = None -> executionQueue st' = []).
Proof.
  revert st s. induction fuel as [|fuel IH]; intros st s Hfuel HInv.
  - unfold measure in Hfuel. destruct (executionQueue st) eqn:Hqueue; [|cbn in Hfuel; lia].
    exists st, None, s. cbn. rewrite Hqueue. auto.
  - cbn [loop]. destruct (executionQueue st) as [|i queue] eqn:Hqueue.
    { exists st, None, s. auto. }
    destruct (iteration' st s) as [[st1 [e|]] s1] eqn:Hiter.
    + exists st1, (Some e), s1. split; [done|]. split; [|done].
      by eapply iteration_Inv.
    + apply IH; [|by eapply iteration_Inv].
      assert (measure instructions st1 < measure instructions st); [|lia].
      eapply iteration_measure; [|done]. by rewrite Hqueue.
Qed.

(** A larger bound changes nothing. *)
Lemma loop_more_fuel fuel fuel' st s r :
  loop' fuel st s = Some r -> fuel <= fuel' -> loop' fuel' st s = Some r.
Proof.
  revert fuel' st s. induction fuel as [|fuel IH]; intros fuel' st s Hrun Hle.
  - destruct fuel'; cbn in *; destruct (executionQueue st); done.
  - destruct fuel' as [|fuel']; [lia|]. cbn in *.
    destruct (executionQueue st); [done|].
    destruct (iteration' st s) as [[st1 [e|]] s1]; [done|].
    apply IH; [done | lia].
Qed.

Lemma initialLoop_Inv : Inv instructions initialLoop.
Proof.
  constructor; cbn; try done.
  - constructor.
  - intros i Hi. by apply elem_of_nil in Hi.
Qed.

Lemma initialLoop_measure : measure instructions initialLoop = loopBound instructions.
Proof. unfold measure, loopBound. cbn. by rewrite pendingFrom_empty. Qed.

End SchedulerFacts.

(** ** The scheduler: the claims on one iteration *)

Section IterationClaims.

Context {World : Type}.
Variable callLLM :
  Provider -> string -> string -> string -> string -> World -> Result string * World.
Variable callEndpoint : GatewayCall.t -> World -> Result string * World.
Variable fetch : FetchRequest.t -> World -> Result Response.t * World.
Variable JSON_parse : string -> Result Json.t.
Variable context : string.
Variable provider : Provider.
Variable apiKey : string.
Variable selectedModel : string.
Variable instructions : list NormalizedInstruction.
Implicit Types s : @Store World.
Implicit Types st : LoopState.

Abbreviation iterate :=
  (iteration callLLM callEndpoint fetch JSON_parse context provider apiKey
             selectedModel instructions).

(** C3. Let the loop dequeue an index [i] that is in range, not executed yet
    and unconditioned. If [i] is a branch target, the iteration enqueues
    nothing: the queue it leaves is the rest of the queue. In general the
    iteration enqueues nothing or exactly [i+1], and [i+1] only when [i] is
    not a branch target and [i+1] is in range; and it does enqueue [i+1] then,
    unless the step throws. *)
Theorem unconditioned_fallthrough st s i queue inst :
  executionQueue st = i :: queue ->
  i ∉ executedSteps st ->
  inRange instructions i ->
  instructions !! Z.to_nat i = Some inst ->
  conditionOf inst = None ->
  exists st' thrown s',
    iterate st s = (st', thrown, s')
    /\ i ∈ executedSteps st'
    /\ (i ∈ branchTargetSteps instructions -> executionQueue st' = queue)
    /\ (executionQueue st' = queue
        \/ (executionQueue st' = queue ++ [(i + 1)%Z]
            /\ (i ∉ branchTargetSteps instructions)
            /\ (i + 1 < Z.of_nat (length instructions))%Z))
    /\ (thrown = None -> i ∉ branchTargetSteps instructions ->
        (i + 1 < Z.of_nat (length instructions))%Z ->
        executionQueue st' = queue ++ [(i + 1)%Z]).
Proof.
  intros Hqueue Hfresh Hin Hinst Hcond.
  destruct (iteration_cases callLLM callEndpoint fetch JSON_parse context provider
              apiKey selectedModel instructions st s i queue Hqueue)
    as [[[?|?] _]|(_ & _ & inst' & Hinst' & Hcases)]; [done | done |].
  assert (inst' = inst) as -> by congruence.
  destruct Hcases as [(st' & s' & Hbody & Heq)|(e & s' & Hbody & Heq)].
  - exists st', None, s'. split; [done|].
    apply stepBody_Ok in Hbody as (sr & He & _ & _ & _ & Hq).
    rewrite Hcond in Hq. destruct Hq as (Hq & _). cbn in He, Hq.
    rewrite He, Hq. unfold enqueueSequential, hasNext.
    split; [by apply elem_of_union_l, elem_of_singleton|].
    destruct (decide (i ∈ branchTargetSteps instructions)) as [Hbt|Hbt].
    + rewrite bool_decide_eq_true_2 by done. cbn.
      split; [done|]. split; [by left|]. done.
    + rewrite bool_decide_eq_false_2 by done. cbn.
      destruct (Z.ltb_spec (i + 1) (Z.of_nat (length instructions))).
      * split; [done|]. split; [by right|]. done.
      * split; [done|]. split; [by left|]. intros; lia.
  - eexists _, (Some e), s'. split; [exact Heq|]. cbn.
    split; [by apply elem_of_union_l, elem_of_singleton|].
    split; [done|]. split; [by left|]. done.
Qed.

(** C10. Let the loop dequeue an index [i] that is in range, not executed
    yet and conditioned, and let its step and the evaluation of its
    condition succeed. The step result pushed records the verdict; when the
    branch list of that verdict ([ifTrue] on true, [ifFalse] on false) is
    absent or empty, the iteration enqueues [i+1] if it is in range, and
    nothing otherwise. Whether [i] is a branch target plays no part. *)
Theorem conditioned_fallthrough st s i queue inst condition st' s' :
  executionQueue st = i :: queue ->
  i ∉ executedSteps st ->
  inRange instructions i ->
  instructions !! Z.to_nat i = Some inst ->
  conditionOf inst = Some condition ->
  iterate st s = (st', None, s') ->
  exists verdict sr,
    steps st' = steps st ++ [sr]
    /\ StepResult.conditionResult sr = Some verdict
    /\ StepResult.branchTaken sr = (if verdict then branchTrue else branchFalse)
    /\ let branch :=
         if verdict then Condition.ifTrue condition
         else Condition.ifFalse condition in
       (branch = None \/ branch = Some [] ->
        executionQueue st'
        = if (i + 1 <? Z.of_nat (length instructions))%Z
          then queue ++ [(i + 1)%Z] else queue).
Proof.
  intros Hqueue Hfresh Hin Hinst Hcond Hiter.
  destruct (iteration_cases callLLM callEndpoint fetch JSON_parse context provider
              apiKey selectedModel instructions st s i queue Hqueue)
    as [[[?|?] _]|(_ & _ & inst' & Hinst' & Hcases)]; [done | done |].
  assert (inst' = inst) as -> by congruence.
  destruct Hcases as [(st1 & s1 & Hbody & Heq)|(e & s1 & Hbody & Heq)];
    [|congruence].
  assert (st1 = st') as -> by congruence.
  apply stepBody_Ok in Hbody as (sr & _ & Hs & _ & _ & Hq).
  rewrite Hcond in Hq. destruct Hq as (verdict & Hv & Hq & Hb).
  exists verdict, sr. repeat split; [done | done | done |].
  intros branch Hbranch. rewrite Hq. fold branch. cbn.
  unfold enqueueBranch, hasNext. by destruct Hbranch as [-> | ->].
Qed.

End IterationClaims.

(** An instance: index 1 of the fork is an unconditioned branch target, and
    the queue is empty after it. *)
Lemma unconditioned_fallthrough_witness :
  executionQueue afterFork = [1%Z]
  /\ (1%Z ∉ executedSteps afterFork)
  /\ inRange forkInstructions 1
  /\ forkInstructions !! Z.to_nat 1 = Some (Simple "on true")
  /\ conditionOf (Simple "on true") = None
  /\ 1%Z ∈ branchTargetSteps forkInstructions
  /\ exists st' thrown s',
       iteration (sampleLLM "true" "done") offlineEndpoint offlineFetch rejectParse
                 "input" openai "sk-test" "gpt-5-nano" forkInstructions
                 afterFork emptyStore = (st', thrown, s')
       /\ executionQueue st' = [].
Proof.
  assert (Hfresh : 1%Z ∉ executedSteps afterFork) by (by vm_compute).
  assert (Hrange : inRange forkInstructions 1) by (by vm_compute).
  assert (Htarget : 1%Z ∈ branchTargetSteps forkInstructions) by (by vm_compute).
  repeat split; try done.
  destruct (unconditioned_fallthrough (sampleLLM "true" "done") offlineEndpoint
              offlineFetch rejectParse "input" openai "sk-test" "gpt-5-nano"
              forkInstructions afterFork emptyStore 1 [] (Simple "on true")
              eq_refl Hfresh Hrange eq_refl eq_refl)
    as (st' & thrown & s' & Hiter & _ & Hstop & _).
  exists st', thrown, s'. split; [exact Hiter | exact (Hstop Htarget)].
Defined.

(** An instance: index 1 of the chain is a conditioned branch target whose
    condition lists no branch, and index 2 follows it. *)
Lemma conditioned_fallthrough_witness :
  executionQueue afterFork = [1%Z]
  /\ (1%Z ∉ executedSteps afterFork)
  /\ inRange chainInstructions 1
  /\ chainInstructions !! Z.to_nat 1 = Some recheck
  /\ iteration (sampleLLM "true" "done") offlineEndpoint offlineFetch rejectParse
               "input" openai "sk-test" "gpt-5-nano" chainInstructions
               afterFork emptyStore = (afterRecheck, None, storeAfterRecheck)
  /\ 1%Z ∈ branchTargetSteps chainInstructions
  /\ executionQueue afterRecheck = [2%Z].
Proof.
  assert (Hfresh : 1%Z ∉ executedSteps afterFork) by (by vm_compute).
  assert (Hrange : inRange chainInstructions 1) by (by vm_compute).
  assert (Htarget : 1%Z ∈ branchTargetSteps chainInstructions) by (by vm_compute).
  assert (Hiter : iteration (sampleLLM "true" "done") offlineEndpoint offlineFetch
                    rejectParse "input" openai "sk-test" "gpt-5-nano"
                    chainInstructions afterFork emptyStore
                  = (afterRecheck, None, storeAfterRecheck))
    by (vm_compute; reflexivity).
  refine (conj eq_refl (conj Hfresh (conj Hrange (conj eq_refl
            (conj Hiter (conj Htarget _)))))).
  destruct (conditioned_fallthrough (sampleLLM "true" "done") offlineEndpoint
              offlineFetch rejectParse "input" openai "sk-test" "gpt-5-nano"
              chainInstructions afterFork emptyStore 1 [] recheck
              (Condition.mk None "still ok?" None (Some []))
              afterRecheck storeAfterRecheck
              eq_refl Hfresh Hrange eq_refl eq_refl Hiter)
    as (verdict & sr & _ & _ & _ & Hnext).
  rewrite Hnext; [reflexivity|]. destruct verdict; auto.
Defined.

(** ** The scheduler: the claims on a run *)

Section LoopClaims.

Context {World : Type}.
Variable callLLM :
  Provider -> string -> string -> string -> string -> World -> Result string * World.
Variable callEndpoint : GatewayCall.t -> World -> Result string * World.
Variable fetch : FetchRequest.t -> World -> Result Response.t * World.
Variable JSON_parse : string -> Result Json.t.
Implicit Types s : @Store World.

(** C2. For every instruction array and every world (so every sequence of
    answers and verdicts), the loop started by a run ends: for every bound
    from [loopBound] on it returns the same final variables. Unless a step
    or an evaluation threw, it ends with the empty queue. In all cases the
    indices dispatched, which are the executed ones, are distinct indices of
    the array, so at most as many as there are instructions, and so are the
    step results. *)
Theorem loop_terminates context provider apiKey selectedModel
    (instructions : list NormalizedInstruction) s :
  exists st thrown s',
    (forall fuel, loopBound instructions <= fuel ->
       loop callLLM callEndpoint fetch JSON_parse context provider apiKey
            selectedModel instructions fuel initialLoop s
       = Some (st, thrown, s'))
    /\ (thrown = None -> executionQueue st = [])
    /\ (forall i, i ∈ executedSteps st -> inRange instructions i)
    /\ size (executedSteps st) <= length instructions
    /\ length (steps st) <= length instructions.
Proof.
  destruct (loop_total callLLM callEndpoint fetch JSON_parse context provider
              apiKey selectedModel instructions (loopBound instructions)
              initialLoop s)
    as (st & thrown & s' & Hrun & HInv & Hempty).
  { by rewrite initialLoop_measure. }
  { apply initialLoop_Inv. }
  exists st, thrown, s'. destruct HInv as [Hnodup Hexec Hrange Hlen Hnum].
  pose proof (size_in_range instructions _ Hrange) as Hsize.
  pose proof (length_le_size _ _ Hnodup Hexec) as Hle.
  split; [intros fuel Hfuel; by eapply loop_more_fuel|].
  split; [done|]. split; [done|]. split; [done|lia].
Qed.

(** C1. Every run ends, and the step results it produced were produced for
    pairwise distinct instruction indices, one index per step result, each
    an index of the instruction array; the steps of the workflow result it
    returns are these step results. Cyclic [ifTrue] and [ifFalse] lists make
    no difference. *)
Theorem each_index_at_most_once (env : Env) (payload : Params.t) (w : World) :
  exists exit,
    run callLLM callEndpoint fetch JSON_parse env payload w = Some exit
    /\ NoDup (stepIndices (final exit))
    /\ length (stepIndices (final exit)) = length (steps (final exit))
    /\ (forall i, i ∈ stepIndices (final exit) ->
                  inRange (map normalize (rawInstructions payload)) i)
    /\ (forall result, outcome exit = Ok result ->
                       WorkflowResult.steps result = steps (final exit)).
Proof.
  unfold run.
  destruct (negb (truthyOpt _)).
  { eexists. split; [reflexivity|]. cbn.
    split; [apply NoDup_nil_2|]. split; [done|].
    split; [by intros i Hi%elem_of_nil | done]. }
  destruct (rawInstructions payload) as [|raw0 raw] eqn:Hraw.
  { eexists. split; [reflexivity|]. cbn.
    split; [apply NoDup_nil_2|]. split; [done|].
    split; [by intros i Hi%elem_of_nil | done]. }
  match goal with
  | |- context [loop _ _ _ _ ?c ?p ?k ?m ?ins ?f initialLoop ?s1] =>
      destruct (loop_total callLLM callEndpoint fetch JSON_parse c p k m ins f
                  initialLoop s1)
        as (st & thrown & s' & Hrun & HInv & _);
        [by rewrite initialLoop_measure | apply initialLoop_Inv |]
  end.
  rewrite Hrun. destruct HInv as [Hnodup Hexec Hrange Hlen Hnum].
  destruct thrown as [e|]; eexists; (split; [reflexivity|]); cbn [final outcome].
  all: split; [done|]; split; [done|].
  all: split; [intros i Hi; apply Hrange, Hexec, Hi|].
  - intros result [=].
  - intros result [= <-]. reflexivity.
Qed.

End LoopClaims.

(** A step that throws ends the run where it stands: here the thread at
    index 1 throws, with index 2 still in the queue. *)
Example throwing_step_ends_run :
  (fun exit => (outcome exit, stepIndices (final exit),
                executionQueue (final exit)))
    <$> run (sampleLLM "true" "done") offlineEndpoint offlineFetch rejectParse
            sampleEnv brokenPayload tt
  = Some (Throw (threadIncomplete [9%Z]), [0%Z], [2%Z]).
Proof. vm_compute. reflexivity. Qed.

(** The cyclic instructions run once each, whatever the verdicts. *)
Example cyclic_run_true :
  (fun exit => stepIndices (final exit))
    <$> run (sampleLLM "true" "done") offlineEndpoint offlineFetch rejectParse
            sampleEnv cyclicPayload tt
  = Some [0%Z; 1%Z].
Proof. vm_compute. reflexivity. Qed.

Example cyclic_run_false :
  (fun exit => (stepIndices (final exit), executionQueue (final exit)))
    <$> run (sampleLLM "false" "done") offlineEndpoint offlineFetch rejectParse
            sampleEnv cyclicPayload tt
  = Some ([0%Z], []).
Proof. vm_compute. reflexivity. Qed.

(** ** Example A *)

(** With the Oracle answering [yes] to the condition evaluation, the claim
    C6 as stated fails: [yes] contains neither [true] nor [false], the
    evaluator warns and returns false, and the run takes the false branch:
    it executes the indices 0, 1, 3, records the branch [false] on step 2,
    and never executes index 2. *)
Lemma exampleA_yes_takes_false_branch :
  exists exit result,
    run (sampleLLM "yes" "done") offlineEndpoint offlineFetch rejectParse
        sampleEnv exampleA tt = Some exit
    /\ outcome exit = Ok result
    /\ stepIndices (final exit) = [0%Z; 1%Z; 3%Z]
    /\ StepResult.stepNumber <$> WorkflowResult.steps result = [1%Z; 2%Z; 3%Z]
    /\ StepResult.branchTaken <$> WorkflowResult.steps result !! 1%nat
       = Some branchFalse
    /\ console (store exit) = [unclearWarning "yes"]
    /\ stepIndices (final exit) <> [0%Z; 1%Z; 2%Z].
Proof.
  eexists _, _. split; [vm_compute; reflexivity|].
  split; [reflexivity|]. repeat split. discriminate.
Qed.

Section ExampleFacts.

Context {World : Type}.
Variable callLLM :
  Provider -> string -> string -> string -> string -> World -> Result string * World.
Variable callEndpoint : GatewayCall.t -> World -> Result string * World.
Variable fetch : FetchRequest.t -> World -> Result Response.t * World.
Variable JSON_parse : string -> Result Json.t.
Variable context : string.
Variable provider : Provider.
Variable apiKey : string.
Variable selectedModel : string.
Variable instructions : list NormalizedInstruction.
Implicit Types s : @Store World.
Implicit Types st : LoopState.

Abbreviation iterateA :=
  (iteration callLLM callEndpoint fetch JSON_parse context provider apiKey
             selectedModel instructions).

(** An iteration whose step body succeeds. *)
Lemma iteration_runs st s i queue inst st' s' :
  executionQueue st = i :: queue ->
  i ∉ executedSteps st ->
  inRange instructions i ->
  instructions !! Z.to_nat i = Some inst ->
  stepBody callLLM callEndpoint fetch JSON_parse context provider apiKey
           selectedModel instructions i inst
           (mkLoop ({[i]} ∪ executedSteps st) queue (steps st) (stepIndices st)) s
    = (Ok st', s') ->
  iterateA st s = (st', None, s').
Proof.
  intros Hqueue Hfresh Hin Hinst Hbody. unfold iteration.
  rewrite Hqueue, bool_decide_eq_false_2 by done.
  apply outOfBounds_inRange in Hin. by rewrite Hin, Hinst, Hbody.
Qed.

Lemma loop_iterate fuel st s st' s' i queue :
  executionQueue st = i :: queue ->
  iterateA st s = (st', None, s') ->
  loop callLLM callEndpoint fetch JSON_parse context provider apiKey selectedModel
       instructions (S fuel) st s
  = loop callLLM callEndpoint fetch JSON_parse context provider apiKey selectedModel
         instructions fuel st' s'.
Proof. intros Hqueue Hiter. cbn [loop]. by rewrite Hqueue, Hiter. Qed.

Lemma loop_done fuel st s :
  executionQueue st = [] ->
  loop callLLM callEndpoint fetch JSON_parse context provider apiKey selectedModel
       instructions fuel st s
  = Some (st, None, s).
Proof. intros Hqueue. destruct fuel; cbn [loop]; by rewrite Hqueue. Qed.

(** The Oracle always answers. *)
Hypothesis answers :
  forall p k m systemPrompt userPrompt w,
    exists r w', callLLM p k m systemPrompt userPrompt w = (Ok r, w').

Lemma executeLLMStep_answers (instruction : ConditionalInstruction.t) ctx s :
  exists r s',
    executeLLMStep callLLM instruction ctx s
    = (Ok (ConditionalInstruction.instruction instruction, r), s')
    /\ console s' = console s.
Proof.
  unfold executeLLMStep, bind, liftWorld, ret.
  match goal with
  | |- context [callLLM ?p ?k ?m ?sp ?up ?w] =>
      destruct (answers p k m sp up w) as (r & w' & Hcall); rewrite Hcall
  end.
  by eexists _, _.
Qed.

(** An LLM step without a condition, under an Oracle that answers. *)
Lemma iteration_simple st s i queue text :
  executionQueue st = i :: queue ->
  i ∉ executedSteps st ->
  inRange instructions i ->
  instructions !! Z.to_nat i = Some (Simple text) ->
  exists r s',
    iterateA st s
    = (mkLoop ({[i]} ∪ executedSteps st)
              (enqueueSequential instructions queue i)
              (steps st ++
               [StepResult.mk (Z.of_nat (length (steps st)) + 1) text r false None
                              branchSequential])
              (stepIndices st ++ [i]),
       None, s')
    /\ console s' = console s.
Proof.
  intros Hqueue Hfresh Hin Hinst.
  pose (marked := mkLoop ({[i]} ∪ executedSteps st) queue (steps st) (stepIndices st)).
  assert (exists r s',
            stepBody callLLM callEndpoint fetch JSON_parse context provider apiKey
                     selectedModel instructions i (Simple text) marked s
            = (Ok (mkLoop ({[i]} ∪ executedSteps st)
                          (enqueueSequential instructions queue i)
                          (steps st ++
                           [StepResult.mk (Z.of_nat (length (steps st)) + 1) text r
                                          false None branchSequential])
                          (stepIndices st ++ [i])), s')
            /\ console s' = console s) as (r & s' & Hbody & Hconsole).
  { unfold stepBody. erewrite bind_Ok by reflexivity.
    match goal with
    | |- context [bind (executeStep _ _ _ _ _ ?ctx) _ ?s1] =>
        destruct (executeLLMStep_answers (ConditionalInstruction.mk text None) ctx s1)
          as (r & s' & Hexec & Hconsole)
    end.
    erewrite bind_Ok by exact Hexec. cbn.
    eexists _, _. split; [reflexivity | exact Hconsole]. }
  exists r, s'. split; [|done]. by eapply iteration_runs.
Qed.

(** The Oracle's answers to the condition evaluator read as true. *)
Hypothesis affirms :
  forall p k m userPrompt w r w',
    callLLM p k m evaluatorSystemPrompt userPrompt w = (Ok r, w') ->
    Contains (normalizeAnswer r) "true" /\ ~ Contains (normalizeAnswer r) "false".

Lemma evaluateCondition_affirmed p k m expr subject n s :
  exists s',
    evaluateCondition callLLM p k m expr subject n s = (Ok true, s')
    /\ console s' = console s.
Proof.
  destruct (answers p k m evaluatorSystemPrompt (evaluatorUserPrompt expr subject n)
                    (world s)) as (a & w & Hcall).
  destruct (affirms _ _ _ _ _ _ _ Hcall) as [Hyes Hno].
  apply includes_Contains in Hyes. apply not_includes_Contains in Hno.
  rewrite (evaluateCondition_eval callLLM _ _ _ _ _ _ _ _ _ Hcall), Hyes, Hno.
  eexists. split; [reflexivity|]. cbn. by rewrite app_nil_r.
Qed.

(** An LLM step whose condition is evaluated on its own result, under such
    an Oracle: the true branch is taken. *)
Lemma iteration_affirmed st s i queue text condition :
  executionQueue st = i :: queue ->
  i ∉ executedSteps st ->
  inRange instructions i ->
  instructions !! Z.to_nat i
    = Some (Conditional (ConditionalInstruction.mk text (Some condition))) ->
  Condition.evaluateAfterStep condition = None ->
  exists r s',
    iterateA st s
    = (mkLoop ({[i]} ∪ executedSteps st)
              (enqueueBranch instructions queue i (Condition.ifTrue condition))
              (steps st ++
               [StepResult.mk (Z.of_nat (length (steps st)) + 1) text r true
                              (Some true) branchTrue])
              (stepIndices st ++ [i]),
       None, s')
    /\ console s' = console s.
Proof.
  intros Hqueue Hfresh Hin Hinst Hafter.
  pose (marked := mkLoop ({[i]} ∪ executedSteps st) queue (steps st) (stepIndices st)).
  assert (exists r s',
            stepBody callLLM callEndpoint fetch JSON_parse context provider apiKey
                     selectedModel instructions i
                     (Conditional (ConditionalInstruction.mk text (Some condition)))
                     marked s
            = (Ok (mkLoop ({[i]} ∪ executedSteps st)
                          (enqueueBranch instructions queue i
                             (Condition.ifTrue condition))
                          (steps st ++
                           [StepResult.mk (Z.of_nat (length (steps st)) + 1) text r
                                          true (Some true) branchTrue])
                          (stepIndices st ++ [i])), s')
            /\ console s' = console s) as (r & s' & Hbody & Hconsole).
  { unfold stepBody. erewrite bind_Ok by reflexivity.
    match goal with
    | |- context [bind (executeStep _ _ _ _ _ ?ctx) _ ?s1] =>
        destruct (executeLLMStep_answers
                    (ConditionalInstruction.mk text (Some condition)) ctx s1)
          as (r & s2 & Hexec & Hconsole)
    end.
    erewrite bind_Ok by exact Hexec.
    cbn [conditionOf ConditionalInstruction.condition]. rewrite Hafter.
    erewrite bind_Ok by reflexivity.
    match goal with
    | |- context [bind (evaluateCondition callLLM ?p ?k ?m ?e ?r0 ?n) _ ?s3] =>
        destruct (evaluateCondition_affirmed p k m e r0 n s3)
          as (s' & Heval & Hconsole')
    end.
    erewrite bind_Ok by exact Heval. cbn.
    eexists _, _. split; [reflexivity | by rewrite Hconsole', Hconsole]. }
  exists r, s'. split; [|done]. by eapply iteration_runs.
Qed.

End ExampleFacts.

(** C6, as the code has it. On the instructions of Example A, when the
    Oracle always answers and its answers to the condition evaluation read
    as true (the normalized answer contains [true] and not [false]), the run
    completes; its three step results, numbered 1, 2, 3, were produced for
    the indices 0, 1, 2 in that order; step 2 records the branch [true]; and
    index 3 is never executed. *)
Theorem exampleA_true_branch {World : Type}
    (callLLM : Provider -> string -> string -> string -> string -> World
               -> Result string * World)
    (callEndpoint : GatewayCall.t -> World -> Result string * World)
    (fetch : FetchRequest.t -> World -> Result Response.t * World)
    (JSON_parse : string -> Result Json.t)
    (env : Env) (key : string) (w : World) :
  OPENAI_API_KEY env = Some key ->
  JS.truthy key = true ->
  (forall p k m systemPrompt userPrompt w0,
     exists r w', callLLM p k m systemPrompt userPrompt w0 = (Ok r, w')) ->
  (forall p k m userPrompt w0 r w',
     callLLM p k m evaluatorSystemPrompt userPrompt w0 = (Ok r, w') ->
     Contains (normalizeAnswer r) "true" /\ ~ Contains (normalizeAnswer r) "false") ->
  exists exit result,
    run callLLM callEndpoint fetch JSON_parse env exampleA w = Some exit
    /\ outcome exit = Ok result
    /\ stepIndices (final exit) = [0%Z; 1%Z; 2%Z]
    /\ StepResult.stepNumber <$> WorkflowResult.steps result = [1%Z; 2%Z; 3%Z]
    /\ StepResult.branchTaken <$> WorkflowResult.steps result !! 1%nat
       = Some branchTrue
    /\ (3%Z ∉ executedSteps (final exit))
    /\ executionQueue (final exit) = [].
Proof.
  intros Hkey Htruthy answers affirms. unfold run.
  change (default openai (Params.provider exampleA)) with openai.
  cbn match. rewrite Hkey. cbn [truthyOpt default option_rect]. rewrite Htruthy.
  cbn [negb]. change (rawInstructions exampleA)
    with ([inl "A";
           inr (Conditional (ConditionalInstruction.mk "check" (Some checkCondition)));
           inl "success"; inl "fail"] : list (string + NormalizedInstruction)).
  cbn match. change (map normalize _) with instructionsA.
  change (loopBound instructionsA) with 7.
  match goal with
  | |- context [loop _ _ _ _ ?c ?p ?k ?m _ _ _ ?s1] =>
      set (ctx := c); set (model := m); set (s0 := s1)
  end.
  assert (Hrange : forall i, (0 <= i < 4)%Z -> inRange instructionsA i) by done.
  (* index 0: a simple step that falls through to index 1 *)
  destruct (iteration_simple callLLM callEndpoint fetch JSON_parse ctx openai key
              model instructionsA answers initialLoop s0 0 [] "A" eq_refl)
    as (r1 & s1 & Hiter1 & _); [by vm_compute | by apply Hrange | done |].
  change (enqueueSequential instructionsA [] 0) with [1%Z] in Hiter1.
  erewrite loop_iterate; [|reflexivity|exact Hiter1].
  (* index 1: the conditioned step, whose true branch is index 2 *)
  match type of Hiter1 with _ = (?st, _, _) => set (st1 := st) in * end.
  destruct (iteration_affirmed callLLM callEndpoint fetch JSON_parse ctx openai key
              model instructionsA answers affirms st1 s1 1 [] "check" checkCondition
              eq_refl)
    as (r2 & s2 & Hiter2 & _); [by vm_compute | by apply Hrange | done | done |].
  change (enqueueBranch instructionsA [] 1 (Condition.ifTrue checkCondition))
    with [2%Z] in Hiter2.
  erewrite loop_iterate; [|reflexivity|exact Hiter2].
  (* index 2: a simple step that is a branch target and stops there *)
  match type of Hiter2 with _ = (?st, _, _) => set (st2 := st) in * end.
  destruct (iteration_simple callLLM callEndpoint fetch JSON_parse ctx openai key
              model instructionsA answers st2 s2 2 [] "success" eq_refl)
    as (r3 & s3 & Hiter3 & _); [by vm_compute | by apply Hrange | done |].
  change (enqueueSequential instructionsA [] 2) with (@nil Z) in Hiter3.
  erewrite loop_iterate; [|reflexivity|exact Hiter3].
  rewrite loop_done by reflexivity.
  eexists _, _. split; [reflexivity|]. split; [reflexivity|].
  cbn. repeat split. by vm_compute.
Qed.

(** An instance: the Oracle answers [True.] to the condition evaluation. *)
Lemma exampleA_true_branch_witness :
  OPENAI_API_KEY sampleEnv = Some "sk-test"
  /\ JS.truthy "sk-test" = true
  /\ exists exit,
       run (sampleLLM "True." "done") offlineEndpoint offlineFetch rejectParse
           sampleEnv exampleA tt = Some exit
       /\ stepIndices (final exit) = [0%Z; 1%Z; 2%Z].
Proof.
  split; [reflexivity|]. split; [reflexivity|].
  destruct (exampleA_true_branch (sampleLLM "True." "done") offlineEndpoint
              offlineFetch rejectParse sampleEnv "sk-test" tt eq_refl eq_refl)
    as (exit & result & Hrun & _ & Hindices & _).
  - intros p k m systemPrompt userPrompt w0. unfold sampleLLM.
    destruct (String.eqb systemPrompt evaluatorSystemPrompt); eauto.
  - intros p k m userPrompt w0 r w' Hcall. unfold sampleLLM in Hcall.
    rewrite String.eqb_refl in Hcall. injection Hcall as <- _.
    split; [by apply includes_Contains | by apply not_includes_Contains].
  - exists exit. split; [exact Hrun | exact Hindices].
Defined.

(** ** The validation of a submission *)

Lemma checkInstruction_Some n i inst e :
  checkInstruction n i inst = Some e ->
  exists type fields cond which bad,
    inst = RawObject type fields (Some cond)
    /\ e = outOfBoundsError i which bad
    /\ indexOutOfBounds n bad = true
    /\ ((which = "ifTrue" /\ bad ∈ default [] (Condition.ifTrue cond))
        \/ (which = "ifFalse" /\ bad ∈ default [] (Condition.ifFalse cond))).
Proof.
  destruct inst as [text|type fields [cond|]]; cbn; try discriminate.
  destruct (Condition.ifTrue cond ≫= List.find (indexOutOfBounds n))
    as [bad|] eqn:Htrue.
  - intros [= <-]. exists type, fields, cond, "ifTrue", bad.
    destruct (Condition.ifTrue cond) as [l|]; [|discriminate]. cbn in Htrue.
    apply find_some in Htrue as [Hin Hbad]. apply list_elem_of_In in Hin.
    split; [done|]. split; [done|]. split; [done|]. left. by split.
  - destruct (Condition.ifFalse cond ≫= List.find (indexOutOfBounds n))
      as [bad|] eqn:Hfalse; [|discriminate].
    intros [= <-]. exists type, fields, cond, "ifFalse", bad.
    destruct (Condition.ifFalse cond) as [l|]; [|discriminate]. cbn in Hfalse.
    apply find_some in Hfalse as [Hin Hbad]. apply list_elem_of_In in Hin.
    split; [done|]. split; [done|]. split; [done|]. right. by split.
Qed.

Lemma checkInstruction_None n i type fields cond idx :
  checkInstruction n i (RawObject type fields (Some cond)) = None ->
  idx ∈ default [] (Condition.ifTrue cond) \/ idx ∈ default [] (Condition.ifFalse cond) ->
  indexOutOfBounds n idx = false.
Proof.
  cbn. destruct (Condition.ifTrue cond) as [lt|], (Condition.ifFalse cond) as [lf|];
    cbn.
  all: repeat match goal with
         | |- context [List.find ?f ?l] => destruct (List.find f l) eqn:?; cbn
         end; try discriminate.
  all: intros _ [Hin|Hin]; try (by apply elem_of_nil in Hin).
  all: apply list_elem_of_In in Hin; eapply find_none in Hin; eauto.
Qed.

Lemma checkFrom_finds n k l i type fields cond idx :
  l !! i = Some (RawObject type fields (Some cond)) ->
  idx ∈ default [] (Condition.ifTrue cond) \/ idx ∈ default [] (Condition.ifFalse cond) ->
  indexOutOfBounds n idx = true ->
  exists j which bad type' fields' cond',
    checkFrom n k l = Some (outOfBoundsError (k + j) which bad)
    /\ j <= i
    /\ l !! j = Some (RawObject type' fields' (Some cond'))
    /\ indexOutOfBounds n bad = true
    /\ ((which = "ifTrue" /\ bad ∈ default [] (Condition.ifTrue cond'))
        \/ (which = "ifFalse" /\ bad ∈ default [] (Condition.ifFalse cond'))).
Proof.
  revert k i. induction l as [|inst l IH]; intros k i Hlook Hidx Hbad; [done|].
  cbn [checkFrom]. destruct (checkInstruction n k inst) as [e|] eqn:Hcheck.
  - apply checkInstruction_Some in Hcheck
      as (type' & fields' & cond' & which & bad & -> & -> & Hbad' & Hwhich).
    exists 0, which, bad, type', fields', cond'.
    rewrite Nat.add_0_r. split; [done|]. split; [lia|]. by split.
  - destruct i as [|i].
    + injection Hlook as ->.
      rewrite (checkInstruction_None _ _ _ _ _ _ Hcheck Hidx) in Hbad. discriminate.
    + destruct (IH (S k) i Hlook Hidx Hbad)
        as (j & which & bad & type' & fields' & cond' & Hrun & Hle & Hj & Hrest).
      exists (S j), which, bad, type', fields', cond'.
      replace (k + S j) with (S k + j) by lia.
      split; [done|]. split; [lia|]. by split.
Qed.



(** What the handler answers to that submission. *)
Example dangling_branch_error :
  fetchPost danglingBody
  = Rejected 400 "Conditional instruction 1: ifFalse index 7 is out of bounds".
Proof. reflexivity. Qed.


(** * Further properties of the engine *)

(** ** The branch targets *)

Lemma branchTargets_from (l : list NormalizedInstruction) (acc : gset Z) (i : Z) :
  i ∈ fold_left
        (fun acc inst =>
           match conditionOf inst with
           | Some condition =>
               let acc :=
                 match Condition.ifTrue condition with
                 | Some l => acc ∪ list_to_set l
                 | None => acc
                 end in
               match Condition.ifFalse condition with
               | Some l => acc ∪ list_to_set l
               | None => acc
               end
           | None => acc
           end)
        l acc
  <-> i ∈ acc \/ exists inst, inst ∈ l /\ ListedBy inst i.
Proof.
  revert acc. induction l as [|a l IH]; intros acc; cbn [fold_left].
  - split; [auto|]. intros [H|(inst & Hin & _)]; [done|]. by apply elem_of_nil in Hin.
  - rewrite IH. clear IH.
    assert (Hhead : forall X : gset Z,
               i ∈ match conditionOf a with
                   | Some condition =>
                       let acc0 :=
                         match Condition.ifTrue condition with
                         | Some l0 => X ∪ list_to_set l0
                         | None => X
                         end in
                       match Condition.ifFalse condition with
                       | Some l0 => acc0 ∪ list_to_set l0
                       | None => acc0
                       end
                   | None => X
                   end
               <-> i ∈ X \/ ListedBy a i).
    { intros X. unfold ListedBy. destruct (conditionOf a) as [c|].
      - transitivity (i ∈ X \/ (i ∈ default [] (Condition.ifTrue c)
                                \/ i ∈ default [] (Condition.ifFalse c))).
        + destruct (Condition.ifTrue c) as [lt|], (Condition.ifFalse c) as [lf|]; cbn.
          all: rewrite ?elem_of_union, ?elem_of_list_to_set, ?elem_of_nil; tauto.
        + split; (intros [H|H]; [by left|right]).
          * by exists c.
          * by destruct H as (c' & [= <-] & H).
      - split; [auto|]. intros [H|(c' & [=] & _)]. done. }
    rewrite Hhead. split.
    + intros [[H|H]|(inst & Hin & H)]; [by left | right | right].
      * exists a. split; [apply list_elem_of_here | done].
      * exists inst. split; [by apply list_elem_of_further | done].
    + intros [H|(inst & Hin & H)]; [by left; left|].
      apply elem_of_cons in Hin as [->|Hin]; [by left; right|].
      right. by exists inst.
Qed.

(** X1. The set [branchTargetSteps] holds exactly the indices that some
    instruction of the array lists in the [ifTrue] or the [ifFalse] of its
    condition. *)
Theorem branchTargetSteps_spec (instructions : list NormalizedInstruction) (i : Z) :
  i ∈ branchTargetSteps instructions
  <-> exists inst, inst ∈ instructions /\ ListedBy inst i.
Proof.
  unfold branchTargetSteps. rewrite branchTargets_from. split; [|auto].
  intros [H|H]; [|done]. by apply not_elem_of_empty in H.
Qed.

Lemma listed_is_target (instructions : list NormalizedInstruction) inst (i : Z) :
  inst ∈ instructions -> ListedBy inst i -> i ∈ branchTargetSteps instructions.
Proof.
  intros Hin Hlisted. unfold branchTargetSteps. apply branchTargets_from.
  right. by exists inst.
Qed.

Lemma no_condition_no_target (instructions : list NormalizedInstruction) (i : Z) :
  (forall inst, inst ∈ instructions -> conditionOf inst = None) ->
  i ∉ branchTargetSteps instructions.
Proof.
  intros Hnone Hin. unfold branchTargetSteps in Hin.
  apply branchTargets_from in Hin as [Hin|(inst & Hinst & c & Hc & _)].
  - by apply not_elem_of_empty in Hin.
  - rewrite (Hnone inst Hinst) in Hc. discriminate.
Qed.

(** ** The scheduler: what every run keeps *)

Section SchedulerMore.

Context {World : Type}.
Variable callLLM :
  Provider -> string -> string -> string -> string -> World -> Result string * World.
Variable callEndpoint : GatewayCall.t -> World -> Result string * World.
Variable fetch : FetchRequest.t -> World -> Result Response.t * World.
Variable JSON_parse : string -> Result Json.t.
Variable context : string.
Variable provider : Provider.
Variable apiKey : string.
Variable selectedModel : string.
Variable instructions : list NormalizedInstruction.
Implicit Types s : @Store World.
Implicit Types st : LoopState.

Abbreviation body' :=
  (stepBody callLLM callEndpoint fetch JSON_parse context provider apiKey
            selectedModel instructions).
Abbreviation iter' :=
  (iteration callLLM callEndpoint fetch JSON_parse context provider apiKey
             selectedModel instructions).
Abbreviation run' :=
  (loop callLLM callEndpoint fetch JSON_parse context provider apiKey
        selectedModel instructions).

(** Induction along the loop: [P] is kept by the iterations that do not
    throw, and [R] is what follows where the loop ends. *)
Lemma loop_ind (P : LoopState -> Prop) (R : LoopState -> option string -> Prop) :
  (forall st, P st -> executionQueue st = [] -> R st None) ->
  (forall st s st' s',
     P st -> executionQueue st <> [] -> iter' st s = (st', None, s') -> P st') ->
  (forall st s st' e s',
     P st -> executionQueue st <> [] -> iter' st s = (st', Some e, s') ->
     R st' (Some e)) ->
  forall fuel st s st' thrown s',
    P st -> run' fuel st s = Some (st', thrown, s') -> R st' thrown.
Proof.
  intros Hend Hstep Hthrow fuel.
  induction fuel as [|fuel IH]; intros st s st' thrown s' HP Hrun; cbn in Hrun.
  - destruct (executionQueue st) eqn:Hqueue; [|discriminate].
    injection Hrun as <- <- <-. by apply Hend.
  - destruct (executionQueue st) as [|i queue] eqn:Hqueue.
    { injection Hrun as <- <- <-. by apply Hend. }
    destruct (iter' st s) as [[st1 [e|]] s1] eqn:Hiter.
    + injection Hrun as <- <- <-. eapply Hthrow; [done | | done].
      by rewrite Hqueue.
    + eapply IH; [|done]. eapply Hstep; [done | | done]. by rewrite Hqueue.
Qed.

(** The queue after a step body that does not throw: the old queue, then
    indices the instruction lists, or the successor of its own index. *)
Lemma stepBody_enqueued i inst st s st' s' j :
  body' i inst st s = (Ok st', s') ->
  j ∈ executionQueue st' ->
  j ∈ executionQueue st \/ ListedBy inst j \/ j = (i + 1)%Z.
Proof.
  intros (sr & _ & _ & _ & _ & H)%stepBody_Ok Hj. unfold ListedBy.
  destruct (conditionOf inst) as [c|].
  - destruct H as (verdict & _ & Hq & _). rewrite Hq in Hj. clear Hq.
    unfold enqueueBranch in Hj.
    destruct verdict;
      [destruct (Condition.ifTrue c) as [[|x l]|] eqn:Hb
      |destruct (Condition.ifFalse c) as [[|x l]|] eqn:Hb].
    all: try (destruct (hasNext instructions i);
              [apply elem_of_app in Hj as [Hj|Hj%list_elem_of_singleton]|];
              auto; fail).
    all: apply elem_of_app in Hj as [Hj|Hj]; [by left|].
    all: right; left; exists c; split; [done|]; rewrite Hb; cbn; auto.
  - destruct H as (Hq & _). rewrite Hq in Hj. unfold enqueueSequential in Hj.
    destruct (_ && _); [|by left].
    apply elem_of_app in Hj as [Hj|Hj%list_elem_of_singleton]; auto.
Qed.

Lemma Reachable_mono st st' j :
  (forall k, k ∈ stepIndices st -> k ∈ stepIndices st') ->
  Reachable instructions st j -> Reachable instructions st' j.
Proof. intros Hsub [H|[H|H]]; unfold Reachable; auto. Qed.

Lemma iteration_AllReachable st s st' thrown s' :
  AllReachable instructions st -> iter' st s = (st', thrown, s') -> AllReachable instructions st'.
Proof.
  intros Hall Hiter. destruct (executionQueue st) as [|i queue] eqn:Hqueue.
  { unfold iteration in Hiter. rewrite Hqueue in Hiter. by injection Hiter as <- _ _. }
  assert (Hi : Reachable instructions st i).
  { apply Hall. left. rewrite Hqueue. apply list_elem_of_here. }
  assert (Hold : forall j, j ∈ queue \/ j ∈ stepIndices st ->
                           Reachable instructions st j).
  { intros j [Hj|Hj]; apply Hall; [left|by right].
    rewrite Hqueue. by apply list_elem_of_further. }
  destruct (iteration_cases callLLM callEndpoint fetch JSON_parse context provider
              apiKey selectedModel instructions st s i queue Hqueue)
    as [[_ Heq]|(Hfresh & Hin & inst & Hinst & [(st1 & s1 & Hbody & Heq)|(e & s1 & Hbody & Heq)])].
  - rewrite Heq in Hiter. injection Hiter as <- _ _. intros j Hj.
    eapply Reachable_mono; [|by apply Hold]. done.
  - rewrite Heq in Hiter. injection Hiter as <- _ _.
    pose proof (fun j => stepBody_enqueued _ _ _ _ _ _ j Hbody) as Hqueue'.
    apply stepBody_Ok in Hbody as (sr & _ & _ & Hindices & _). cbn in *.
    assert (Hsub : forall k, k ∈ stepIndices st -> k ∈ stepIndices st1).
    { intros k Hk. rewrite Hindices. apply elem_of_app. by left. }
    intros j [Hj|Hj].
    + destruct (Hqueue' j Hj) as [Hq|[Hl| ->]].
      * eapply Reachable_mono; [done|]. apply Hold. by left.
      * right. left. eapply listed_is_target; [|done].
        by eapply list_elem_of_lookup_2.
      * right. right. rewrite Hindices. replace (i + 1 - 1)%Z with i by lia.
        apply elem_of_app. right. apply list_elem_of_here.
    + rewrite Hindices in Hj.
      apply elem_of_app in Hj as [Hj| ->%list_elem_of_singleton].
      * eapply Reachable_mono; [done|]. apply Hold. by right.
      * by eapply Reachable_mono.
  - rewrite Heq in Hiter. injection Hiter as <- _ _. intros j Hj.
    eapply Reachable_mono; [|by apply Hold]. done.
Qed.

Lemma loop_AllReachable fuel st s st' thrown s' :
  AllReachable instructions st -> run' fuel st s = Some (st', thrown, s') -> AllReachable instructions st'.
Proof.
  apply (loop_ind (AllReachable instructions) (fun st' _ => AllReachable instructions st')).
  - done.
  - intros. by eapply iteration_AllReachable.
  - intros. by eapply iteration_AllReachable.
Qed.

Lemma initialLoop_AllReachable : AllReachable instructions initialLoop.
Proof.
  intros j [Hj|Hj]; cbn in Hj.
  - apply list_elem_of_singleton in Hj as ->. by left.
  - by apply elem_of_nil in Hj.
Qed.

(** A condition that asks for a step number no step result carries: the
    step runs, then the lookup throws. *)
Lemma stepBody_dangling i inst st s condition k :
  conditionOf inst = Some condition ->
  Condition.evaluateAfterStep condition = Some k ->
  ~ Produced (steps st) k ->
  exists e s',
    body' i inst st s = (Throw e, s')
    /\ (e = "Cannot evaluate condition: step " +:+ JS.showZ k +:+ " not found"
        \/ exists ctx s1 s2,
             executeStep callLLM callEndpoint fetch JSON_parse inst ctx s1
             = (Throw e, s2)).
Proof.
  intros Hcond Hafter Hno. apply findStep_None in Hno.
  unfold stepBody. erewrite bind_Ok by reflexivity.
  match goal with
  | |- context [bind (executeStep _ _ _ _ _ ?ctx) _ ?s1] =>
      destruct (executeStep callLLM callEndpoint fetch JSON_parse inst ctx s1)
        as [[r|e] s2] eqn:Hexec
  end.
  - erewrite bind_Ok by exact Hexec. rewrite Hcond, Hafter, Hno.
    eexists _, _. split; [reflexivity|]. by left.
  - erewrite bind_Throw by exact Hexec. eexists _, _. split; [reflexivity|].
    right. eauto.
Qed.

Lemma Inv_not_produced st k :
  Inv instructions st ->
  (k <= 0 \/ Z.of_nat (length (steps st)) < k)%Z ->
  ~ Produced (steps st) k.
Proof.
  intros HInv Hk (sr & Hin & Hn).
  apply list_elem_of_lookup_1 in Hin as [idx Hidx].
  pose proof (lookup_lt_Some _ _ _ Hidx) as Hlt.
  apply (inv_numbers _ _ HInv) in Hidx. lia.
Qed.

(** X5. A conditioned instruction whose [evaluateAfterStep] names a step
    number that no step result carries yet (its own step number, a later
    one, or one below 1) never yields a step result: the iteration that
    runs it throws, with the error of the step itself if the step fails and
    with [Cannot evaluate condition: step k not found] otherwise. The index
    stays marked as executed and nothing is enqueued. *)
Theorem dangling_evaluateAfterStep st s i queue inst condition k :
  Inv instructions st ->
  executionQueue st = i :: queue ->
  i ∉ executedSteps st ->
  inRange instructions i ->
  instructions !! Z.to_nat i = Some inst ->
  conditionOf inst = Some condition ->
  Condition.evaluateAfterStep condition = Some k ->
  (k <= 0 \/ Z.of_nat (length (steps st)) < k)%Z ->
  exists st' e s',
    iter' st s = (st', Some e, s')
    /\ steps st' = steps st
    /\ executionQueue st' = queue
    /\ i ∈ executedSteps st'
    /\ (e = "Cannot evaluate condition: step " +:+ JS.showZ k +:+ " not found"
        \/ exists ctx s1 s2,
             executeStep callLLM callEndpoint fetch JSON_parse inst ctx s1
             = (Throw e, s2)).
Proof.
  intros HInv Hqueue Hfresh Hin Hinst Hcond Hafter Hk.
  pose (marked := mkLoop ({[i]} ∪ executedSteps st) queue (steps st) (stepIndices st)).
  destruct (stepBody_dangling i inst marked s condition k Hcond Hafter)
    as (e & s' & Hbody & He).
  { change (steps marked) with (steps st). by apply Inv_not_produced. }
  exists marked, e, s'. split.
  - unfold iteration. rewrite Hqueue, bool_decide_eq_false_2 by done.
    apply outOfBounds_inRange in Hin. rewrite Hin, Hinst. fold marked.
    by rewrite Hbody.
  - split; [done|]. split; [done|].
    split; [by apply elem_of_union_l, elem_of_singleton | exact He].
Qed.

(** An unconditioned step whose handler succeeds. *)
Lemma stepBody_unconditioned i inst st s :
  conditionOf inst = None ->
  (forall ctx s0, exists r s',
      executeStep callLLM callEndpoint fetch JSON_parse inst ctx s0 = (Ok r, s')) ->
  exists sr s',
    body' i inst st s
    = (Ok (mkLoop (executedSteps st)
                  (enqueueSequential instructions (executionQueue st) i)
                  (steps st ++ [sr]) (stepIndices st ++ [i])), s').
Proof.
  intros Hcond Hrun. unfold stepBody. erewrite bind_Ok by reflexivity.
  match goal with
  | |- context [bind (executeStep _ _ _ _ _ ?ctx) _ ?s1] =>
      destruct (Hrun ctx s1) as (r & s2 & Hexec)
  end.
  erewrite bind_Ok by exact Hexec. rewrite Hcond. by eexists _, _.
Qed.

(** X4. When no instruction carries a condition and the handler of every
    instruction succeeds, the loop runs the whole array in order: the
    indices 0, 1, ..., n-1, one step result each, and it ends with the empty
    queue without throwing. *)
Theorem sequential_run_in_order s :
  (forall inst, inst ∈ instructions -> conditionOf inst = None) ->
  (forall inst, inst ∈ instructions ->
     forall ctx s0, exists r s',
       executeStep callLLM callEndpoint fetch JSON_parse inst ctx s0 = (Ok r, s')) ->
  exists st s',
    run' (loopBound instructions) initialLoop s = Some (st, None, s')
    /\ stepIndices st = Z.of_nat <$> seq 0 (length instructions)
    /\ length (steps st) = length instructions
    /\ executionQueue st = [].
Proof.
  intros Hplain Hruns.
  destruct (loop_total callLLM callEndpoint fetch JSON_parse context provider
              apiKey selectedModel instructions (loopBound instructions)
              initialLoop s)
    as (st & thrown & s' & Hrun & _ & _);
    [by rewrite initialLoop_measure | apply initialLoop_Inv |].
  set (n := length instructions).
  pose (P := fun st : LoopState =>
               exists k, k <= n
                 /\ stepIndices st = Z.of_nat <$> seq 0 k
                 /\ length (steps st) = k
                 /\ (forall j, j ∈ executedSteps st <-> (0 <= j < Z.of_nat k)%Z)
                 /\ (executionQueue st = [Z.of_nat k]
                     \/ (executionQueue st = [] /\ k = n))).
  pose (R := fun (st : LoopState) (thrown : option string) =>
               thrown = None
               /\ stepIndices st = Z.of_nat <$> seq 0 n
               /\ length (steps st) = n
               /\ executionQueue st = []).
  assert (HP0 : P initialLoop).
  { exists 0. split; [lia|]. split; [done|]. split; [done|]. split; [|by left].
    intros j. cbn. split; [by intros ?%not_elem_of_empty | lia]. }
  assert (Hstep : forall a sa b thr sb,
             P a -> executionQueue a <> [] -> iter' a sa = (b, thr, sb) ->
             P b /\ thr = None).
  { intros a sa b thr sb (k & Hk & Hidx & Hlen & Hexec & Hq) Hne Hiter.
    destruct Hq as [Hq|[Hq _]]; [|congruence].
    destruct (iteration_cases callLLM callEndpoint fetch JSON_parse context provider
                apiKey selectedModel instructions a sa (Z.of_nat k) [] Hq)
      as [[Hskip Heq]
         |(Hfresh & Hin & inst & Hinst & [(st1 & s1 & Hbody & Heq)|(e & s1 & Hbody & Heq)])].
    - rewrite Heq in Hiter. injection Hiter as <- <- _. split; [|done].
      exists k. split; [done|]. split; [done|]. split; [done|]. split; [done|].
      right. split; [done|]. destruct Hskip as [Hdone|Hout].
      + apply Hexec in Hdone. lia.
      + unfold inRange in Hout. fold n in Hout. lia.
    - assert (Hmem : inst ∈ instructions) by (by eapply list_elem_of_lookup_2).
      destruct (stepBody_unconditioned (Z.of_nat k) inst
                  (mkLoop ({[Z.of_nat k]} ∪ executedSteps a) [] (steps a)
                          (stepIndices a)) sa (Hplain inst Hmem) (Hruns inst Hmem))
        as (sr & s2 & Hbody').
      rewrite Hbody' in Hbody. injection Hbody as <- <-.
      rewrite Heq in Hiter. injection Hiter as <- <- _. split; [|done].
      destruct Hin as [_ Hlt]. fold n in Hlt.
      exists (S k). cbn [executedSteps executionQueue steps stepIndices].
      split; [lia|].
      split; [by rewrite seq_S, fmap_app, Hidx|].
      split; [rewrite length_app; cbn; lia|].
      split.
      + intros j. rewrite elem_of_union, elem_of_singleton, Hexec. lia.
      + unfold enqueueSequential, hasNext. fold n.
        rewrite bool_decide_eq_false_2 by (by apply no_condition_no_target).
        cbn. destruct (Z.ltb_spec (Z.of_nat k + 1) (Z.of_nat n)).
        * left. cbn. f_equal. lia.
        * right. split; [done | lia].
    - assert (Hmem : inst ∈ instructions) by (by eapply list_elem_of_lookup_2).
      destruct (stepBody_unconditioned (Z.of_nat k) inst
                  (mkLoop ({[Z.of_nat k]} ∪ executedSteps a) [] (steps a)
                          (stepIndices a)) sa (Hplain inst Hmem) (Hruns inst Hmem))
        as (sr & s2 & Hbody').
      rewrite Hbody' in Hbody. discriminate. }
  assert (HR : R st thrown).
  { apply (loop_ind P R) with (fuel := loopBound instructions) (st := initialLoop)
                              (s := s) (s' := s'); [| | |done|done].
    - intros st0 (k & Hk & Hidx & Hlen & _ & Hq) Hempty.
      destruct Hq as [Hq|[_ ->]]; [congruence|]. by repeat split.
    - intros st0 s0 st1 s1 HP Hne Hiter. by destruct (Hstep _ _ _ _ _ HP Hne Hiter).
    - intros st0 s0 st1 e s1 HP Hne Hiter.
      by destruct (Hstep _ _ _ _ _ HP Hne Hiter) as [_ ?]. }
  destruct HR as (-> & Hidx & Hlen & Hq). by exists st, s'.
Qed.
End SchedulerMore.

Section RunFacts.

Context {World : Type}.
Variable callLLM :
  Provider -> string -> string -> string -> string -> World -> Result string * World.
Variable callEndpoint : GatewayCall.t -> World -> Result string * World.
Variable fetch : FetchRequest.t -> World -> Result Response.t * World.
Variable JSON_parse : string -> Result Json.t.
Implicit Types s : @Store World.
Implicit Types st : LoopState.

Lemma loop_Inv context provider apiKey selectedModel instructions fuel st s st'
    thrown s' :
  Inv instructions st ->
  loop callLLM callEndpoint fetch JSON_parse context provider apiKey selectedModel
       instructions fuel st s = Some (st', thrown, s') ->
  Inv instructions st'.
Proof.
  apply (loop_ind callLLM callEndpoint fetch JSON_parse context provider apiKey
           selectedModel instructions (Inv instructions)
           (fun st' _ => Inv instructions st')).
  - done.
  - intros. by eapply iteration_Inv.
  - intros. by eapply iteration_Inv.
Qed.

(** The first index executed, if any, is the entry index 0. *)
Lemma loop_starts_at_zero context provider apiKey selectedModel instructions fuel
    st' thrown s s' :
  loop callLLM callEndpoint fetch JSON_parse context provider apiKey selectedModel
       instructions fuel initialLoop s = Some (st', thrown, s') ->
  stepIndices st' = [] \/ head (stepIndices st') = Some 0%Z.
Proof.
  pose (P := fun st : LoopState =>
               (stepIndices st = []
                /\ (executionQueue st = [0%Z] \/ executionQueue st = []))
               \/ head (stepIndices st) = Some 0%Z).
  assert (Hstep : forall a sa b thr sb,
             P a -> executionQueue a <> [] ->
             iteration callLLM callEndpoint fetch JSON_parse context provider apiKey
                       selectedModel instructions a sa = (b, thr, sb) ->
             P b).
  { intros a sa b thr sb HP Hne Hiter.
    destruct (executionQueue a) as [|i queue] eqn:Hqueue; [done|].
    destruct (iteration_cases callLLM callEndpoint fetch JSON_parse context provider
                apiKey selectedModel instructions a sa i queue Hqueue)
      as [[_ Heq]
         |(_ & _ & inst & _ & [(st1 & s1 & Hbody & Heq)|(e & s1 & Hbody & Heq)])].
    - rewrite Heq in Hiter. injection Hiter as <- _ _.
      destruct HP as [[Hnil Hq]|Hhead]; [|by right]. left. split; [done|]. cbn.
      destruct Hq as [Hq|Hq]; rewrite Hqueue in Hq; [|done].
      injection Hq as -> ->. by right.
    - rewrite Heq in Hiter. injection Hiter as <- _ _.
      apply stepBody_Ok in Hbody as (sr & _ & _ & Hidx & _). cbn in Hidx.
      right. rewrite Hidx. destruct HP as [[Hnil Hq]|Hhead].
      + rewrite Hnil. destruct Hq as [Hq|Hq]; rewrite Hqueue in Hq; [|done].
        by injection Hq as -> ->.
      + destruct (stepIndices a); [done|]. done.
    - rewrite Heq in Hiter. injection Hiter as <- _ _.
      destruct HP as [[Hnil Hq]|Hhead]; [|by right]. left. split; [done|]. cbn.
      destruct Hq as [Hq|Hq]; rewrite Hqueue in Hq; [|done].
      injection Hq as -> ->. by right. }
  intros Hrun.
  assert (HP : P st').
  { apply (loop_ind callLLM callEndpoint fetch JSON_parse context provider apiKey
             selectedModel instructions P (fun st' _ => P st'))
      with (fuel := fuel) (st := initialLoop) (s := s) (s' := s') (thrown := thrown);
      eauto.
    left. split; [done | by left]. }
  destruct HP as [[Hnil _]|Hhead]; auto.
Qed.

(** The ways a run ends: before the loop, with an error and the world
    untouched; or with what the loop returns. *)
Lemma run_shape (env : Env) (payload : Params.t) (w : World) :
  let instructions := map normalize (rawInstructions payload) in
  exists exit,
    run callLLM callEndpoint fetch JSON_parse env payload w = Some exit
    /\ ((final exit = mkLoop ∅ [] [] [] /\ store exit = mkStore w [] [] []
         /\ exists e, outcome exit = Throw e)
        \/ exists provider key model s1 thrown,
             loop callLLM callEndpoint fetch JSON_parse (Params.context payload)
                  provider key model instructions (loopBound instructions)
                  initialLoop s1
             = Some (final exit, thrown, store exit)
             /\ outcome exit
                = match thrown with
                  | Some e => Throw e
                  | None =>
                      Ok (WorkflowResult.mk (Params.context payload)
                            (steps (final exit)) (errors (store exit))
                            (logs (store exit)))
                  end).
Proof.
  intros instructions. unfold run, instructions.
  destruct (negb (truthyOpt _)).
  { eexists. split; [reflexivity|]. left. cbn. eauto. }
  destruct (rawInstructions payload) as [|raw0 raw] eqn:Hraw.
  { eexists. split; [reflexivity|]. left. cbn. eauto. }
  match goal with
  | |- context [loop _ _ _ _ ?c ?p ?k ?m ?ins ?f initialLoop ?s1] =>
      destruct (loop_total callLLM callEndpoint fetch JSON_parse c p k m ins f
                  initialLoop s1)
        as (st & thrown & s' & Hrun & _ & _);
        [by rewrite initialLoop_measure | apply initialLoop_Inv |]
  end.
  rewrite Hrun. destruct thrown as [e|]; eexists; (split; [reflexivity|]).
  all: right; eexists _, _, _, _, _; split; [exact Hrun | reflexivity].
Qed.

(** X2. In every run the step results are numbered in the order they were
    produced: the result at position [k] of [steps] has the step number
    [k+1], whatever instruction index it was produced for; and the workflow
    result returns these steps. *)
Theorem step_numbers_count_up (env : Env) (payload : Params.t) (w : World) :
  exists exit,
    run callLLM callEndpoint fetch JSON_parse env payload w = Some exit
    /\ (forall k sr, steps (final exit) !! k = Some sr ->
                     StepResult.stepNumber sr = (Z.of_nat k + 1)%Z)
    /\ (forall result, outcome exit = Ok result ->
                       WorkflowResult.steps result = steps (final exit)).
Proof.
  destruct (run_shape env payload w)
    as (exit & Hrun & [(Hfinal & _ & e & Hout)
                      |(provider & key & model & s1 & thrown & Hloop & Hout)]).
  - exists exit. split; [done|]. rewrite Hfinal, Hout. split; [|done].
    intros k sr Hk. cbn in Hk. by rewrite lookup_nil in Hk.
  - exists exit. split; [done|].
    apply loop_Inv in Hloop; [|apply initialLoop_Inv]. split.
    + apply (inv_numbers _ _ Hloop).
    + rewrite Hout. destruct thrown; [done|]. by intros result [= <-].
Qed.

(** X3. No run executes an index it has no way to: every index executed is
    the entry index 0, or a branch target of the array, or the successor of
    an index that produced a step result in the same run; and the first
    index executed is 0. *)
Theorem executed_indices_reachable (env : Env) (payload : Params.t) (w : World) :
  exists exit,
    run callLLM callEndpoint fetch JSON_parse env payload w = Some exit
    /\ (forall j, j ∈ stepIndices (final exit) ->
                  Reachable (map normalize (rawInstructions payload))
                            (final exit) j)
    /\ (stepIndices (final exit) = []
        \/ head (stepIndices (final exit)) = Some 0%Z).
Proof.
  destruct (run_shape env payload w)
    as (exit & Hrun & [(Hfinal & _ & e & Hout)
                      |(provider & key & model & s1 & thrown & Hloop & Hout)]).
  - exists exit. split; [done|]. rewrite Hfinal. cbn. split; [|by left].
    by intros j Hj%elem_of_nil.
  - exists exit. split; [done|]. split.
    + intros j Hj. eapply loop_AllReachable in Hloop.
      * apply Hloop. by right.
      * apply initialLoop_AllReachable.
    + by eapply loop_starts_at_zero.
Qed.

End RunFacts.

(** An instance: three bare strings run as the indices 0, 1, 2. *)
Lemma sequential_run_in_order_witness :
  (forall inst, inst ∈ plainInstructions -> conditionOf inst = None)
  /\ exists st s',
       loop (sampleLLM "true" "done") offlineEndpoint offlineFetch rejectParse
            "input" openai "sk-test" "gpt-5-nano" plainInstructions
            (loopBound plainInstructions) initialLoop emptyStore
       = Some (st, None, s')
       /\ stepIndices st = [0%Z; 1%Z; 2%Z].
Proof.
  assert (Hplain : forall inst, inst ∈ plainInstructions -> conditionOf inst = None).
  { intros inst Hin. apply list_elem_of_In in Hin. cbn in Hin.
    by destruct Hin as [<-|[<-|[<-|[]]]]. }
  split; [exact Hplain|].
  destruct (sequential_run_in_order (sampleLLM "true" "done") offlineEndpoint
              offlineFetch rejectParse "input" openai "sk-test" "gpt-5-nano"
              plainInstructions emptyStore Hplain)
    as (st & s' & Hrun & Hindices & _).
  - intros inst Hin ctx s0. apply list_elem_of_In in Hin. cbn in Hin.
    destruct Hin as [<-|[<-|[<-|[]]]].
    all: cbn; unfold executeLLMStep, bind, liftWorld, ret, sampleLLM.
    all: destruct (String.eqb _ evaluatorSystemPrompt); eauto.
  - exists st, s'. split; [exact Hrun | exact Hindices].
Defined.

(** An instance: the first instruction asks for the result of step 1 while
    it is itself step 1. *)
Lemma dangling_evaluateAfterStep_witness :
  Inv selfReference initialLoop
  /\ inRange selfReference 0
  /\ (0%Z ∉ executedSteps initialLoop)
  /\ (Z.of_nat (length (steps initialLoop)) < 1)%Z
  /\ exists st' s',
       iteration (sampleLLM "true" "done") offlineEndpoint offlineFetch rejectParse
                 "input" openai "sk-test" "gpt-5-nano" selfReference
                 initialLoop emptyStore
       = (st', Some "Cannot evaluate condition: step 1 not found", s')
       /\ steps st' = [].
Proof.
  assert (HInv : Inv selfReference initialLoop) by apply initialLoop_Inv.
  assert (Hrange : inRange selfReference 0) by done.
  assert (Hfresh : 0%Z ∉ executedSteps initialLoop) by (by vm_compute).
  assert (Hlater : (Z.of_nat (length (steps initialLoop)) < 1)%Z) by done.
  refine (conj HInv (conj Hrange (conj Hfresh (conj Hlater _)))).
  destruct (dangling_evaluateAfterStep (sampleLLM "true" "done") offlineEndpoint
              offlineFetch rejectParse "input" openai "sk-test" "gpt-5-nano"
              selfReference initialLoop emptyStore 0 []
              (Conditional (ConditionalInstruction.mk "check" (Some selfCondition)))
              selfCondition 1 HInv eq_refl Hfresh Hrange eq_refl eq_refl eq_refl
              (or_intror Hlater))
    as (st' & e & s' & Hiter & Hsteps & _ & _ & He).
  exists st', s'. split; [|exact Hsteps].
  destruct He as [->|(ctx & s1 & s2 & Hexec)]; [exact Hiter|].
  exfalso. cbn in Hexec. unfold executeLLMStep, bind, liftWorld, ret, sampleLLM in Hexec.
  destruct (String.eqb _ evaluatorSystemPrompt); discriminate.
Defined.

(** ** The handlers: which failures are recorded *)

Section CatchFacts.

Context {World : Type}.
Implicit Types s : @Store World.

Lemma tryCatch_Ok {A} (m : M A) (h : string -> M A) s a s1 :
  m s = (Ok a, s1) -> tryCatch m h s = (Ok a, s1).
Proof. unfold tryCatch. by intros ->. Qed.

Lemma tryCatch_Throw {A} (m : M A) (h : string -> M A) s e s1 :
  m s = (Throw e, s1) -> tryCatch m h s = h e s1.
Proof. unfold tryCatch. by intros ->. Qed.

End CatchFacts.

(** Rewriting along the monad, keeping the store in normal form. *)
Ltac store_simpl := cbn [world logs errors console].
Ltac bind_ok := erewrite bind_Ok by reflexivity; store_simpl.

Section HandlerFacts.

Context {World : Type}.
Variable callLLM :
  Provider -> string -> string -> string -> string -> World -> Result string * World.
Variable callEndpoint : GatewayCall.t -> World -> Result string * World.
Variable fetch : FetchRequest.t -> World -> Result Response.t * World.
Variable JSON_parse : string -> Result Json.t.
Implicit Types s : @Store World.

(** The selection never throws and writes only to the log; it comes back
    empty-handed only when there is no option. *)
Lemma selectOption_frame (instruction : RouterInstruction.t) cleaned n s :
  exists r s',
    selectOption instruction cleaned n s = (Ok r, s')
    /\ world s' = world s /\ errors s' = errors s
    /\ (r = None -> RouterInstruction.options instruction = []).
Proof.
  unfold selectOption, bind, addLog.
  destruct (List.find (exactMatch cleaned) _) as [o|]; [unfold ret; by eexists _, _|].
  cbn [world logs errors console].
  destruct (List.find (partialMatch cleaned) _) as [o|]; [unfold ret; by eexists _, _|].
  cbn [world logs errors console].
  match goal with
  | |- context [match ?d with Some o => _ | None => ret (head ?l) end] =>
      destruct d as [o|]; unfold ret; [by eexists _, _|]; destruct l; by eexists _, _
  end.
Qed.

(** X6. The router's selection never throws and never invents an option:
    what it selects is one of the declared options, and it selects none
    only when no option is declared. *)
Theorem router_selects_declared (instruction : RouterInstruction.t) cleaned n s :
  exists r s',
    selectOption instruction cleaned n s = (Ok r, s')
    /\ match r with
       | Some o => o ∈ RouterInstruction.options instruction
       | None => RouterInstruction.options instruction = []
       end.
Proof.
  unfold selectOption, bind, addLog.
  destruct (List.find (exactMatch cleaned) _) as [o|] eqn:Hexact.
  { unfold ret. eexists _, _. split; [reflexivity|].
    apply find_some in Hexact as [Hin _]. by apply list_elem_of_In. }
  cbn [world logs errors console].
  destruct (List.find (partialMatch cleaned) _) as [o|] eqn:Hpartial.
  { unfold ret. eexists _, _. split; [reflexivity|].
    apply find_some in Hpartial as [Hin _]. by apply list_elem_of_In. }
  cbn [world logs errors console].
  match goal with
  | |- context [match ?d with Some o => _ | None => ret (head ?l) end] =>
      destruct d as [o|] eqn:Hdefault
  end; unfold ret.
  - eexists _, _. split; [reflexivity|].
    destruct (RouterInstruction.defaultOption instruction) as [d|]; [|done].
    destruct (JS.truthy d); [|done].
    apply find_some in Hdefault as [Hin _]. by apply list_elem_of_In.
  - destruct (RouterInstruction.options instruction) as [|o rest].
    + by eexists _, _.
    + eexists _, _. split; [reflexivity|]. apply list_elem_of_here.
Qed.

(** X7. An answer that cleans to the empty string never reaches the
    default option: every id contains the empty string, so unless an option
    has the empty id the substring stage selects the first declared
    option. *)
Theorem router_empty_answer (instruction : RouterInstruction.t) n s :
  NoneSuch (exactMatch "") (RouterInstruction.options instruction) ->
  exists s',
    selectOption instruction "" n s
    = (Ok (head (RouterInstruction.options instruction)), s').
Proof.
  intros Hnone. unfold selectOption, bind, addLog, ret.
  apply find_None_NoneSuch in Hnone as ->. cbn [world logs errors console].
  destruct (RouterInstruction.options instruction) as [|o rest] eqn:Hoptions.
  - cbn. destruct (RouterInstruction.defaultOption instruction) as [d|];
      [destruct (JS.truthy d)|]; by eexists.
  - cbn [List.find]. unfold partialMatch at 1. rewrite includes_empty, orb_true_r.
    by eexists.
Qed.

(** The call of the selected endpoint records no error itself. *)
Lemma callSelected_errors endpoint retries retryDelay timeout n s r s' :
  callSelected callEndpoint fetch endpoint retries retryDelay timeout n s = (r, s') ->
  errors s' = errors s.
Proof.
  unfold callSelected, bind, addLog, liftWorld, liftResult, throw, ret.
  destruct (JS.includes _ "/mock/"); cbn [world logs errors console].
  - destruct (fetch _ _) as [[response|e] w]; [|by intros [= <- <-]].
    destruct (negb (Response.ok response)); [by intros [= <- <-]|].
    destruct (Response.json response); by intros [= <- <-].
  - destruct (callEndpoint _ _) as [res w]. by intros [= <- <-].
Qed.

(** X8. A router step that succeeds records no error. When it throws, the
    failure was recorded, once, with its kind, before it was thrown: a
    failed selection call as [router-llm]; no option to select, which
    happens only for an empty option list, as [router-selection]; a failed
    call of the selected endpoint as [router-endpoint]. The one failure that
    is thrown without a record is the parsing of the endpoint's answer. *)
Theorem router_errors_recorded (instruction : RouterInstruction.t) ctx s :
  let stepNumber := StepContext.stepNumber ctx in
  let stepIndex := StepContext.stepIndex ctx in
  match executeRouterStep callLLM callEndpoint fetch JSON_parse instruction ctx s with
  | (Ok _, s') => errors s' = errors s
  | (Throw e, s') =>
      (exists detail,
         e = "Router LLM selection failed: " +:+ detail
         /\ errors s'
            = errors s ++ [ErrorEntry.mk stepNumber stepIndex detail "router-llm"
                             (Some "LLM failed to select option")])
      \/ (RouterInstruction.options instruction = []
          /\ errors s'
             = errors s ++ [ErrorEntry.mk stepNumber stepIndex e "router-selection"
                              (Some "No valid option could be selected")])
      \/ (exists detail url,
            e = "Router endpoint call failed: " +:+ detail
            /\ errors s'
               = errors s ++ [ErrorEntry.mk stepNumber stepIndex detail
                                "router-endpoint"
                                (Some ("Endpoint " +:+ url +:+ " failed"))])
      \/ (errors s' = errors s /\ exists text, JSON_parse text = Throw e)
  end.
Proof.
  intros stepNumber stepIndex. unfold executeRouterStep.
  fold stepNumber stepIndex.
  bind_ok. bind_ok.
  destruct (callLLM (StepContext.provider ctx) (StepContext.apiKey ctx)
              (StepContext.model ctx) routerSystemPrompt
              (selectionPrompt instruction ctx) (world s))
    as [[answer|e] w] eqn:Hcall.
  2:{ erewrite bind_Throw.
      2:{ erewrite tryCatch_Throw;
            [|erewrite bind_Throw by (apply liftWorld_Ok; exact Hcall); reflexivity].
          cbv beta. store_simpl.
          bind_ok. bind_ok.
          reflexivity. }
      left. by exists e. }
  erewrite bind_Ok.
  2:{ apply tryCatch_Ok. erewrite bind_Ok by (apply liftWorld_Ok; exact Hcall). store_simpl.
      bind_ok. reflexivity. }
  match goal with
  | |- context [bind (selectOption instruction ?c ?n) _ ?s1] =>
      destruct (selectOption_frame instruction c n s1)
        as (sel & s2 & Hsel & _ & Herr2 & Hnone)
  end.
  erewrite bind_Ok by exact Hsel. store_simpl. cbn [errors] in Herr2. destruct sel as [o|].
  2:{ bind_ok. bind_ok.
      right. left. split; [by apply Hnone|]. cbn. by rewrite Herr2. }
  bind_ok.
  match goal with
  | |- context [bind (tryCatch
                        (bind (callSelected callEndpoint fetch ?ep ?r ?d ?t ?n) _) _)
                     _ ?s3] =>
      destruct (callSelected callEndpoint fetch ep r d t n s3)
        as [[res|e] s4] eqn:Hcall2;
        pose proof (callSelected_errors _ _ _ _ _ _ _ _ Hcall2) as Herr4;
        cbn [errors] in Herr4
  end.
  2:{ erewrite bind_Throw.
      2:{ erewrite tryCatch_Throw; [|erewrite bind_Throw by exact Hcall2; reflexivity].
          cbv beta. store_simpl.
          bind_ok. bind_ok.
          reflexivity. }
      right. right. left. exists e, (Endpoint.apiUrl (Choice.endpoint o)).
      split; [done|]. cbn. by rewrite Herr4, Herr2. }
  erewrite bind_Ok.
  2:{ apply tryCatch_Ok. erewrite bind_Ok by exact Hcall2. store_simpl.
      bind_ok. reflexivity. }
  unfold bind, liftResult, ret.
  destruct (JSON_parse res) as [data|e] eqn:Hparse.
  - cbn. by rewrite Herr4, Herr2.
  - cbn. right. right. right. split; [by rewrite Herr4, Herr2 | by exists res].
Qed.

(** X9. An agent step that succeeds records no error. When it throws, the
    failure was recorded once, with its kind: a failed decision call as
    [agent-llm]; a failed answer of the [llm] fallback as
    [agent-llm-fallback]; no tool to call, which happens only when the list
    of tools is empty, as [agent-no-tools]; a failed call of the selected
    tool, which is one of the declared tools, as [agent-endpoint]. Only the
    parsing of the tool's answer is thrown without a record. *)
Theorem agent_errors_recorded (instruction : AgentInstruction.t) ctx s :
  let stepNumber := StepContext.stepNumber ctx in
  let stepIndex := StepContext.stepIndex ctx in
  let tools := AgentInstruction.availableTools instruction in
  match executeAgentStep callLLM callEndpoint fetch JSON_parse instruction ctx s with
  | (Ok _, s') => errors s' = errors s
  | (Throw e, s') =>
      (exists detail,
         e = "Agent LLM decision failed: " +:+ detail
         /\ errors s'
            = errors s ++ [ErrorEntry.mk stepNumber stepIndex detail "agent-llm"
                             (Some "LLM failed to make decision")])
      \/ (exists detail,
            e = "Agent LLM fallback failed: " +:+ detail
            /\ AgentInstruction.fallbackBehavior instruction = fallbackLlm
            /\ errors s'
               = errors s ++ [ErrorEntry.mk stepNumber stepIndex detail
                                "agent-llm-fallback"
                                (Some "LLM fallback response failed")])
      \/ (tools = []
          /\ errors s'
             = errors s ++ [ErrorEntry.mk stepNumber stepIndex e "agent-no-tools"
                              (Some "No tools available for agent")])
      \/ (exists detail tool,
            tool ∈ tools
            /\ e = "Agent tool call failed: " +:+ detail
            /\ errors s'
               = errors s ++ [ErrorEntry.mk stepNumber stepIndex detail
                                "agent-endpoint"
                                (Some ("Tool " +:+ Choice.id tool
                                       +:+ " endpoint failed"))])
      \/ (errors s' = errors s /\ exists text, JSON_parse text = Throw e)
  end.
Proof.
  intros stepNumber stepIndex tools. unfold executeAgentStep. cbv zeta.
  fold stepNumber stepIndex tools.
  bind_ok. bind_ok.
  destruct (callLLM (StepContext.provider ctx) (StepContext.apiKey ctx)
              (StepContext.model ctx) agentSystemPrompt
              (agentDecisionPrompt instruction ctx) (world s))
    as [[answer|e] w] eqn:Hcall.
  2:{ erewrite bind_Throw.
      2:{ erewrite tryCatch_Throw;
            [|erewrite bind_Throw by (apply liftWorld_Ok; exact Hcall); reflexivity].
          cbv beta. store_simpl.
          bind_ok. bind_ok.
          reflexivity. }
      left. by exists e. }
  erewrite bind_Ok.
  2:{ apply tryCatch_Ok. erewrite bind_Ok by (apply liftWorld_Ok; exact Hcall). store_simpl.
      bind_ok. reflexivity. }
  destruct (needsNoTool (cleanResponse answer)).
  { bind_ok.
    destruct (AgentInstruction.fallbackBehavior instruction) eqn:Hfallback; [|done].
    bind_ok.
    match goal with
    | |- context [tryCatch (liftWorld (callLLM ?a ?b ?c ?d ?u)) _] =>
        destruct (callLLM a b c d u w) as [[r|e] w'] eqn:Hcall2
    end.
    - erewrite bind_Ok; [|apply tryCatch_Ok, liftWorld_Ok; exact Hcall2]. done.
    - erewrite bind_Throw.
      2:{ erewrite tryCatch_Throw; [|apply liftWorld_Ok; exact Hcall2].
          cbv beta. store_simpl.
          bind_ok. bind_ok.
          reflexivity. }
      right. left. by exists e. }
  match goal with
  | |- context [bind ?m _ ?s1] =>
      assert (exists sel s2,
                 m s1 = (Ok sel, s2) /\ errors s2 = errors s
                 /\ match sel with Some t => t ∈ tools | None => True end)
        as (sel & s2 & Hsel & Herr2 & Hin)
  end.
  { destruct (List.find (exactMatch (cleanResponse answer)) tools) as [t|] eqn:Hexact.
    - eexists _, _. split; [reflexivity|]. split; [done|].
      apply find_some in Hexact as [Hin _]. by apply list_elem_of_In.
    - bind_ok. eexists _, _. split; [reflexivity|].
      split; [done|].
      destruct (List.find (partialMatch (cleanResponse answer)) tools) as [t|]
        eqn:Hpartial; [|done].
      apply find_some in Hpartial as [Hin _]. by apply list_elem_of_In. }
  erewrite bind_Ok by exact Hsel. store_simpl.
  match goal with
  | |- context [bind ?m _ s2] =>
      assert (exists sel' s3,
                 m s2 = (Ok sel', s3) /\ errors s3 = errors s
                 /\ match sel' with Some t => t ∈ tools | None => tools = [] end)
        as (sel' & s3 & Hsel' & Herr3 & Hin')
  end.
  { destruct sel as [t|].
    - destruct tools; eexists _, _; (split; [reflexivity|]); by split.
    - destruct tools as [|first rest].
      + eexists _, _. split; [reflexivity|]. by split.
      + bind_ok. eexists _, _. split; [reflexivity|].
        split; [done|]. apply list_elem_of_here. }
  erewrite bind_Ok by exact Hsel'. store_simpl. destruct sel' as [tool|].
  2:{ bind_ok. bind_ok.
      right. right. left. split; [done|]. cbn. by rewrite Herr3. }
  bind_ok.
  match goal with
  | |- context [bind (tryCatch
                        (bind (callSelected callEndpoint fetch ?ep ?r ?d ?t ?n) _) _)
                     _ ?s4] =>
      destruct (callSelected callEndpoint fetch ep r d t n s4)
        as [[res|e] s5] eqn:Hcall2;
        pose proof (callSelected_errors _ _ _ _ _ _ _ _ Hcall2) as Herr5;
        cbn [errors] in Herr5
  end.
  2:{ erewrite bind_Throw.
      2:{ erewrite tryCatch_Throw; [|erewrite bind_Throw by exact Hcall2; reflexivity].
          cbv beta. store_simpl.
          bind_ok. bind_ok.
          reflexivity. }
      right. right. right. left. exists e, tool.
      split; [done|]. split; [done|]. cbn. by rewrite Herr5, Herr3. }
  erewrite bind_Ok.
  2:{ apply tryCatch_Ok. erewrite bind_Ok by exact Hcall2. store_simpl.
      bind_ok. reflexivity. }
  unfold bind, liftResult, ret.
  destruct (JSON_parse res) as [data|e] eqn:Hparse.
  - cbn. by rewrite Herr5, Herr3.
  - cbn. right. right. right. right.
    split; [by rewrite Herr5, Herr3 | by exists res].
Qed.

(** X10. An endpoint step succeeds exactly when the gateway call does, and
    then returns the gateway's answer and records no error; when the gateway
    call throws, the step throws the same message, unchanged, after recording
    one error of kind [endpoint] for its own step. *)
Theorem endpoint_step_mirrors_gateway (instruction : EndpointInstruction.t) ctx s :
  let call :=
    GatewayCall.mk (EndpointInstruction.endpointUrl instruction)
      (EndpointInstruction.apiUrl instruction)
      (default GET (EndpointInstruction.method instruction))
      (EndpointInstruction.headers instruction)
      (EndpointInstruction.body instruction)
      (numOr (EndpointInstruction.retries instruction) 3)
      (numOr (EndpointInstruction.retryDelay instruction) 1000)
      (numOr (EndpointInstruction.timeout instruction) 30000) in
  match callEndpoint call (world s),
        executeEndpointStep callEndpoint instruction ctx s with
  | (Ok answer, w), (Ok r, s') =>
      snd r = answer /\ world s' = w /\ errors s' = errors s
  | (Throw e, w), (Throw e', s') =>
      e' = e /\ world s' = w
      /\ errors s'
         = errors s
           ++ [ErrorEntry.mk (StepContext.stepNumber ctx)
                 (StepContext.stepIndex ctx) e "endpoint"
                 (Some ("Endpoint " +:+ EndpointInstruction.apiUrl instruction
                        +:+ " failed"))]
  | _, _ => False
  end.
Proof.
  intros call. unfold executeEndpointStep. cbv zeta. fold call. bind_ok.
  destruct (callEndpoint call (world s)) as [[answer|e] w] eqn:Hcall.
  - erewrite tryCatch_Ok.
    2:{ erewrite bind_Ok by (apply liftWorld_Ok; exact Hcall). store_simpl.
        bind_ok. reflexivity. }
    done.
  - erewrite tryCatch_Throw.
    2:{ erewrite bind_Throw by (apply liftWorld_Ok; exact Hcall). reflexivity. }
    cbv beta. store_simpl. bind_ok. bind_ok. done.
Qed.

End HandlerFacts.

(** An instance: a router with two options, none of them with the empty id,
    and the empty answer. *)
Lemma router_empty_answer_witness :
  NoneSuch (exactMatch "") (RouterInstruction.options sampleRouter)
  /\ exists s',
       selectOption sampleRouter "" 1 emptyStore
       = (Ok (head (RouterInstruction.options sampleRouter)), s').
Proof.
  assert (H : NoneSuch (exactMatch "") (RouterInstruction.options sampleRouter)).
  { repeat constructor. }
  split; [exact H|]. exact (router_empty_answer sampleRouter 1 emptyStore H).
Defined.

(** ** What the cleaning of an answer leaves out *)

Lemma HasChar_append c (a b : string) :
  HasChar c (a +:+ b) <-> HasChar c a \/ HasChar c b.
Proof.
  unfold HasChar. induction a as [|d a IH]; [cbn; tauto|].
  rewrite append_cons. cbn [list_ascii_of_string In]. rewrite IH. tauto.
Qed.

Lemma Contains_HasChar c (s sub : string) :
  Contains s sub -> HasChar c sub -> HasChar c s.
Proof.
  intros (pre & post & ->) H. apply HasChar_append. right.
  apply HasChar_append. by left.
Qed.

Lemma stripQuotes_no_quote c (s : string) :
  c = JS.squote \/ c = JS.dquote -> ~ HasChar c (JS.stripQuotes s).
Proof.
  intros Hc. unfold HasChar. induction s as [|d s IH]; cbn; [tauto|].
  destruct (Ascii.eqb d JS.squote) eqn:Hs; [done|].
  destruct (Ascii.eqb d JS.dquote) eqn:Hd; [done|].
  cbn. intros [->|H]; [|done].
  destruct Hc as [->| ->]; by rewrite Ascii.eqb_refl in *.
Qed.

(** X11. A cleaned answer holds no quote character, so the clause of the
    agent's no-tool test that looks for the words [don't need] never fires:
    the test is decided by the other clauses alone, and an answer such as
    [I don't need it] counts as a request for a tool unless another clause
    applies. *)
Theorem apostrophe_clause_never_fires (response : string) :
  let cleaned := cleanResponse response in
  JS.includes cleaned "don't need" = false
  /\ needsNoTool cleaned
     = (String.eqb cleaned "none" || String.eqb cleaned "no"
        || JS.includes cleaned "no tool"
        || JS.includes cleaned "existing knowledge").
Proof.
  intros cleaned.
  assert (H : JS.includes cleaned "don't need" = false).
  { apply not_includes_Contains. intros Hsub.
    apply (stripQuotes_no_quote JS.squote
             (JS.toLowerCase (JS.trim response)) (or_introl eq_refl)).
    eapply Contains_HasChar; [exact Hsub|]. unfold HasChar. cbn. tauto. }
  split; [exact H|]. unfold needsNoTool, NO_TOOL_ID. rewrite H.
  by destruct (String.eqb cleaned "none"), (String.eqb cleaned "no").
Qed.


(** ** The thread handler in every mode *)

Section ThreadMore.

Context {World : Type}.
Variable callLLM :
  Provider -> string -> string -> string -> string -> World -> Result string * World.
Implicit Types s : @Store World.



End ThreadMore.

(** ** The validation of a submission, completed *)






(** ** The batch handler *)

(** X14. POST /batch does not validate branch indices: a body with a
    context, a count from 1 to 20 and an instruction array that lists an
    index outside the array, which POST / answers with status 400, makes
    POST /batch create [count] instances, all with that array. *)
Theorem batch_skips_branch_validation (count : Z) (body : Body.t) l i type fields
    cond idx :
  truthyOpt (Body.context body) = true ->
  (1 <= count <= 20)%Z ->
  Body.instructions body = Some l ->
  l !! i = Some (RawObject type fields (Some cond)) ->
  idx ∈ default [] (Condition.ifTrue cond) \/ idx ∈ default [] (Condition.ifFalse cond) ->
  indexOutOfBounds (length l) idx = true ->
  (exists e, fetchPost body = Rejected 400 e)
  /\ fetchBatch (Some count) body
     = BatchCreated
         (replicate (Z.to_nat count)
            (Created (default "" (Body.context body)) (Some l)
               (default openai (Body.provider body))
               (match Body.model body with
                | Some m => if JS.truthy m then Some m else None
                | None => None
                end)
               None None)).
Proof.
  intros Hcontext Hcount Hinstructions Hlook Hidx Hbad.
  destruct l as [|inst l]; [done|]. split.
  - destruct (checkFrom_finds _ 0 _ i type fields cond idx Hlook Hidx Hbad)
      as (j & which & bad & _ & _ & _ & Hrun & _).
    unfold fetchPost. rewrite Hcontext, Hinstructions. cbn [negb andb].
    unfold validateInstructions. rewrite Hrun. by eexists.
  - unfold fetchBatch. rewrite Hcontext, Hinstructions. cbn [negb default].
    replace ((count =? 0)%Z || (count <? 1)%Z || (20 <? count)%Z) with false by lia.
    done.
Qed.

(** An instance: three copies of the submission that POST / rejects. *)
Lemma batch_skips_branch_validation_witness :
  truthyOpt (Body.context danglingBody) = true
  /\ (exists e, fetchPost danglingBody = Rejected 400 e)
  /\ exists params,
       fetchBatch (Some 3%Z) danglingBody = BatchCreated [params; params; params].
Proof.
  destruct (batch_skips_branch_validation 3 danglingBody _ 1 None ["instruction"]
              (Condition.mk None "ok?" (Some [1%Z]) (Some [7%Z])) 7
              eq_refl ltac:(lia) eq_refl eq_refl)
    as [Hpost Hbatch].
  - right. cbn. apply list_elem_of_singleton. reflexivity.
  - reflexivity.
  - split; [reflexivity|]. split; [exact Hpost|]. eexists. exact Hbatch.
Defined.

(** ** Reordering the instructions in the editor *)

Lemma moveItem_length {A} d t (l : list A) :
  d < length l -> length (moveItem d t l) = length l.
Proof.
  intros Hd. unfold moveItem.
  rewrite length_app, length_cons, length_take, length_drop, length_fmap.
  rewrite length_delete by by apply lookup_lt_is_Some. lia.
Qed.

Lemma moveItem_lookup {A} d t (l : list A) p :
  d < length l -> t < length l ->
  moveItem d t l !! p
  = if decide (p = t) then Some (l !! d)
    else Some <$> delete d l !! (if decide (p < t) then p else p - 1).
Proof.
  intros Hd Ht. unfold moveItem.
  assert (length (delete d l) = length l - 1) as Hlen
    by by apply length_delete, lookup_lt_is_Some.
  assert (length (take t (Some <$> delete d l)) = t) as Htake.
  { rewrite length_take, length_fmap. lia. }
  destruct (decide (p = t)) as [->|Hne].
  { by apply list_lookup_middle. }
  destruct (decide (p < t)) as [Hlt|Hge].
  - rewrite lookup_app_l by lia. rewrite lookup_take_lt by done.
    by rewrite list_lookup_fmap.
  - rewrite lookup_app_r by lia. rewrite Htake.
    rewrite lookup_cons_ne_0 by lia.
    rewrite lookup_drop, list_lookup_fmap. do 2 f_equal. lia.
Qed.

(** The element at [i] is found at the remapped index after the move. *)
Lemma moveItem_remap {A} d t (l : list A) i x :
  d < length l -> t < length l -> d <> t ->
  l !! i = Some x ->
  moveItem d t l !! Z.to_nat (remapIndex d t (Z.of_nat i)) = Some (Some x).
Proof.
  intros Hd Ht Hne Hi. rewrite moveItem_lookup by done. unfold remapIndex.
  destruct (Z.eqb_spec (Z.of_nat i) (Z.of_nat d)) as [Heq|Hneq].
  { rewrite Nat2Z.id, decide_True by done. f_equal.
    apply Nat2Z.inj in Heq. by subst. }
  assert (i <> d) as Hid by lia.
  destruct (Nat.ltb_spec d t) as [Hdt|Htd].
  - destruct (Z.ltb_spec (Z.of_nat d) (Z.of_nat i)),
             (Z.leb_spec (Z.of_nat i) (Z.of_nat t)); cbn [andb].
    + replace (Z.to_nat (Z.of_nat i - 1)) with (i - 1) by lia.
      rewrite decide_False by lia. rewrite decide_True by lia.
      rewrite list_lookup_delete_ge by lia.
      replace (S (i - 1)) with i by lia. by rewrite Hi.
    + rewrite Nat2Z.id. rewrite decide_False by lia. rewrite decide_False by lia.
      rewrite list_lookup_delete_ge by lia.
      replace (S (i - 1)) with i by lia. by rewrite Hi.
    + rewrite Nat2Z.id. rewrite decide_False by lia. rewrite decide_True by lia.
      rewrite list_lookup_delete_lt by lia. by rewrite Hi.
    + lia.
  - destruct (Z.leb_spec (Z.of_nat t) (Z.of_nat i)),
             (Z.ltb_spec (Z.of_nat i) (Z.of_nat d)); cbn [andb].
    + replace (Z.to_nat (Z.of_nat i + 1)) with (S i) by lia.
      rewrite decide_False by lia. rewrite decide_False by lia.
      replace (S i - 1) with i by lia.
      rewrite list_lookup_delete_lt by lia. by rewrite Hi.
    + rewrite Nat2Z.id. rewrite decide_False by lia. rewrite decide_False by lia.
      rewrite list_lookup_delete_ge by lia.
      replace (S (i - 1)) with i by lia. by rewrite Hi.
    + rewrite Nat2Z.id. rewrite decide_False by lia. rewrite decide_True by lia.
      rewrite list_lookup_delete_lt by lia. by rewrite Hi.
    + lia.
Qed.

Lemma remapIndex_range d t n idx :
  d < n -> t < n ->
  (0 <= idx < Z.of_nat n)%Z -> (0 <= remapIndex d t idx < Z.of_nat n)%Z.
Proof.
  intros Hd Ht Hidx. unfold remapIndex.
  destruct (Z.eqb_spec idx (Z.of_nat d)); [lia|].
  destruct (Nat.ltb_spec d t).
  - destruct (Z.ltb_spec (Z.of_nat d) idx), (Z.leb_spec idx (Z.of_nat t));
      cbn [andb]; lia.
  - destruct (Z.leb_spec (Z.of_nat t) idx), (Z.ltb_spec idx (Z.of_nat d));
      cbn [andb]; lia.
Qed.

(** X15. Dragging the instruction at [draggedIndex] to another place
    [targetIndex] of the editor's list keeps every branch reference on its
    instruction: the list keeps its length, the instruction that was at
    index [i] is found at the remapped index, with its own references
    remapped, and so is its mode; and a reference that was in range stays in
    range. *)
Theorem drop_keeps_references (draggedIndex targetIndex : nat)
    (instructions : list RawInstruction) (modes : list InstructionMode) :
  draggedIndex < length instructions ->
  targetIndex < length instructions ->
  draggedIndex <> targetIndex ->
  length modes = length instructions ->
  let result := handleDrop (Some draggedIndex) targetIndex instructions modes in
  let remap := remapIndex draggedIndex targetIndex in
  length result.1 = length instructions
  /\ (forall i inst,
        instructions !! i = Some inst ->
        result.1 !! Z.to_nat (remap (Z.of_nat i))
        = Some (Some (updateReferences draggedIndex targetIndex inst)))
  /\ (forall i mode,
        modes !! i = Some mode ->
        result.2 !! Z.to_nat (remap (Z.of_nat i)) = Some (Some mode))
  /\ (forall idx,
        (0 <= idx < Z.of_nat (length instructions))%Z ->
        (0 <= remap idx < Z.of_nat (length instructions))%Z).
Proof.
  intros Hd Ht Hne Hmodes result remap. unfold result, handleDrop.
  destruct (Nat.eqb_spec draggedIndex targetIndex) as [|_]; [done|].
  cbn [fst snd]. split; [|split; [|split]].
  - by rewrite length_fmap, moveItem_length.
  - intros i inst Hi. rewrite list_lookup_fmap.
    unfold remap. by rewrite (moveItem_remap _ _ _ _ inst).
  - intros i mode Hi. apply moveItem_remap; [lia | lia | done | done].
  - intros idx. by apply remapIndex_range.
Qed.

(** An instance: the first of three instructions dragged to the end. The
    conditioned instruction moves from index 1 to index 0, and its branches
    to the indices 2 and 0 become branches to the indices 1 and 2. *)
Lemma drop_keeps_references_witness :
  length (handleDrop (Some 0) 2 editorInstructions editorModes).1 = 3
  /\ (handleDrop (Some 0) 2 editorInstructions editorModes).1 !! 0
     = Some (Some (RawObject None ["instruction"]
                     (Some (Condition.mk None "ok?" (Some [1%Z]) (Some [2%Z])))))
  /\ (handleDrop (Some 0) 2 editorInstructions editorModes).2 !! 0
     = Some (Some modeConditional).
Proof.
  destruct (drop_keeps_references 0 2 editorInstructions editorModes)
    as (Hlen & Hinst & Hmode & _).
  - cbn. lia.
  - cbn. lia.
  - lia.
  - reflexivity.
  - split; [exact Hlen|]. split.
    + exact (Hinst 1 _ eq_refl).
    + exact (Hmode 1 _ eq_refl).
Defined.

(** ** The size of a run *)

Lemma NoDup_bounded_length (l : list Z) (n : nat) :
  NoDup l -> (forall i, i ∈ l -> (0 <= i < Z.of_nat n)%Z) -> length l <= n.
Proof.
  intros Hnodup Hrange.
  assert (l ⊆+ seqZ 0 (Z.of_nat n)) as Hsub.
  { apply NoDup_submseteq; [done|]. intros i Hi. apply elem_of_seqZ.
    specialize (Hrange i Hi). lia. }
  apply submseteq_length in Hsub. rewrite length_seqZ in Hsub. lia.
Qed.

Section RunSize.

Context {World : Type}.
Variable callLLM :
  Provider -> string -> string -> string -> string -> World -> Result string * World.
Variable callEndpoint : GatewayCall.t -> World -> Result string * World.
Variable fetch : FetchRequest.t -> World -> Result Response.t * World.
Variable JSON_parse : string -> Result Json.t.

(** X16. A run produces at most as many step results as the payload has
    instructions, whatever the branches are; so does the workflow result it
    returns. *)
Theorem run_steps_bounded (env : Env) (payload : Params.t) (w : World) :
  exists exit,
    run callLLM callEndpoint fetch JSON_parse env payload w = Some exit
    /\ length (steps (final exit)) <= length (rawInstructions payload)
    /\ match outcome exit with
       | Ok result =>
           length (WorkflowResult.steps result) <= length (rawInstructions payload)
       | Throw _ => True
       end.
Proof.
  destruct (run_shape callLLM callEndpoint fetch JSON_parse env payload w)
    as (exit & Hrun & [(Hfinal & _ & e & Hout)
                      |(provider & key & model & s1 & thrown & Hloop & Hout)]).
  - exists exit. split; [done|]. rewrite Hfinal, Hout. cbn. split; [lia | done].
  - exists exit. split; [done|].
    apply loop_Inv in Hloop; [|apply initialLoop_Inv].
    destruct Hloop as [Hnodup Hexec Hrange Hlen Hnum].
    assert (length (steps (final exit)) <= length (rawInstructions payload)) as Hle.
    { rewrite <- Hlen, <- (length_map normalize). apply NoDup_bounded_length; [done|].
      intros i Hi. apply Hrange, Hexec, Hi. }
    split; [done|]. rewrite Hout. by destruct thrown.
Qed.

End RunSize.

(** ** The export of a flow *)

Lemma size_union_le (X Y : gset string) : size (X ∪ Y) <= size X + size Y.
Proof.
  rewrite size_union_alt.
  assert (size (Y ∖ X) <= size Y) by (apply subseteq_size; set_solver). lia.
Qed.

Lemma size_list_to_set_le (l : list string) :
  size (list_to_set l : gset string) <= length l.
Proof.
  induction l as [|x l IH]; cbn [list_to_set length].
  - by rewrite size_empty.
  - etrans; [apply size_union_le|]. rewrite size_singleton. lia.
Qed.

Lemma NoDup_fmap_inj {A B} (f : A -> B) (l : list A) x y :
  NoDup (f <$> l) -> x ∈ l -> y ∈ l -> f x = f y -> x = y.
Proof.
  induction l as [|a l IH]; [by intros _ ?%elem_of_nil|].
  rewrite fmap_cons, NoDup_cons. intros [Ha Hl] Hx Hy Heq.
  apply elem_of_cons in Hx as [->|Hx], Hy as [->|Hy]; [done| | |by apply IH].
  - destruct Ha. rewrite Heq. by apply list_elem_of_fmap_2.
  - destruct Ha. rewrite <- Heq. by apply list_elem_of_fmap_2.
Qed.

Section FlowFacts.

Context {Config : Type}.
Variable nodes : list (FlowNode.t Config).
Variable edges : list FlowEdge.t.
Implicit Types st : Visit Config.

(** The adjacency lists hold targets of edges only. *)
Lemma adjacency_targets x l y :
  adjacency edges !! x = Some l -> y ∈ l -> y ∈ FlowEdge.target <$> edges.
Proof.
  unfold adjacency.
  assert (forall es (adj : gmap string (list string)),
             (forall (x : string) (l : list string) (y : string),
                adj !! x = Some l -> y ∈ l -> y ∈ FlowEdge.target <$> edges) ->
             (forall e, e ∈ es -> e ∈ edges) ->
             forall (x : string) (l : list string) (y : string),
               fold_left
                 (fun adj edge =>
                    <[FlowEdge.source edge :=
                        default [] (adj !! FlowEdge.source edge)
                        ++ [FlowEdge.target edge]]> adj)
                 es adj !! x = Some l ->
               y ∈ l -> y ∈ FlowEdge.target <$> edges) as Hfold.
  { induction es as [|e es IH]; intros adj Hadj Hes; [exact Hadj|].
    cbn [fold_left]. apply IH; [|intros e' He'; apply Hes; by right].
    intros x' l' y' Hlook Hy'.
    apply lookup_insert_Some in Hlook as [[_ <-]|[_ Hlook]]; [|by eapply Hadj].
    apply elem_of_app in Hy' as [Hy'|Hy'%list_elem_of_singleton].
    - destruct (adj !! FlowEdge.source e) as [l0|] eqn:Hl0; cbn in Hy'.
      + by eapply Hadj.
      + by apply elem_of_nil in Hy'.
    - subst y'. apply list_elem_of_fmap_2, Hes. by left. }
  apply Hfold; [|done]. intros x' l' y' Hlook. by rewrite lookup_empty in Hlook.
Qed.

(** Visiting a new id keeps the invariant. *)
Lemma VisitInv_push st nodeId :
  VisitInv nodes st -> nodeId ∉ visited st ->
  VisitInv nodes
    (mkVisit ({[nodeId]} ∪ visited st)
       (match List.find (fun n => String.eqb (FlowNode.id n) nodeId) nodes with
        | Some n => orderedNodes st ++ [n]
        | None => orderedNodes st
        end)).
Proof.
  intros [Hsound Hnodup Hcomplete] Hfresh.
  destruct (List.find _ nodes) as [found|] eqn:Hfind.
  - apply find_some in Hfind as [Hin Hid]. apply list_elem_of_In in Hin.
    apply String.eqb_eq in Hid. split; cbn.
    + intros n [Hn|Hn%list_elem_of_singleton]%elem_of_app.
      * destruct (Hsound n Hn). split; [done | set_solver].
      * subst n. split; [done | set_solver].
    + rewrite fmap_app. apply NoDup_app. split; [done|]. split.
      * intros x Hx Hx'. cbn in Hx'. apply list_elem_of_singleton in Hx'. subst x.
        apply list_elem_of_fmap in Hx as (n & Hn & Hin'). destruct (Hsound n Hin').
        congruence.
      * cbn. apply NoDup_singleton.
    + intros n Hn Hvisited. rewrite fmap_app. apply elem_of_app.
      apply elem_of_union in Hvisited as [Hnew%elem_of_singleton|Hold].
      * right. cbn. apply list_elem_of_singleton. congruence.
      * left. by apply Hcomplete.
  - split; cbn.
    + intros n Hn. destruct (Hsound n Hn). split; [done | set_solver].
    + done.
    + intros n Hn Hvisited.
      apply elem_of_union in Hvisited as [Hnew%elem_of_singleton|Hold];
        [|by apply Hcomplete].
      apply list_elem_of_In in Hn. eapply find_none in Hfind; [|exact Hn].
      cbn in Hfind. apply String.eqb_neq in Hfind. done.
Qed.

(** A traversal given more depth than there are ids left returns, and keeps
    the invariant. *)
Lemma visit_total fuel nodeId st :
  VisitInv nodes st ->
  nodeId ∈ flowIds nodes edges ->
  size (flowIds nodes edges ∖ visited st) < fuel ->
  exists st',
    visit nodes edges fuel nodeId st = Some st'
    /\ VisitInv nodes st' /\ visited st ⊆ visited st'.
Proof.
  revert nodeId st. induction fuel as [|fuel IH]; intros nodeId st HInv Hid Hsize;
    [lia|].
  cbn [visit]. case_bool_decide as Hvisited; [by eauto|].
  pose proof (VisitInv_push st nodeId HInv Hvisited) as HInv1.
  set (st1 := mkVisit _ _) in *.
  assert (size (flowIds nodes edges ∖ visited st1) < fuel) as Hsize1.
  { assert (flowIds nodes edges ∖ visited st1 ⊂ flowIds nodes edges ∖ visited st)
      as Hsub by (unfold st1; cbn; set_solver).
    apply subset_size in Hsub. lia. }
  assert (visited st ⊆ visited st1) as Hmono by (unfold st1; cbn; set_solver).
  assert (forall c, c ∈ default [] (adjacency edges !! nodeId) ->
                    c ∈ flowIds nodes edges) as Hchildren.
  { intros c Hc. destruct (adjacency edges !! nodeId) as [l|] eqn:Hl; cbn in Hc.
    - apply elem_of_union_r, elem_of_list_to_set. by eapply adjacency_targets.
    - by apply elem_of_nil in Hc. }
  clearbody st1. revert Hchildren Hsize1 HInv1 Hmono.
  generalize (default [] (adjacency edges !! nodeId)). clear Hsize HInv Hvisited.
  intros children. revert st1.
  induction children as [|c children IHc]; intros st1 Hchildren Hsize1 HInv1 Hmono.
  { by eauto. }
  cbn [fold_left].
  destruct (IH c st1 HInv1) as (st2 & -> & HInv2 & Hmono2);
    [apply Hchildren; by left | done |].
  apply IHc.
  - intros c' Hc'. apply Hchildren. by right.
  - assert (flowIds nodes edges ∖ visited st2 ⊆ flowIds nodes edges ∖ visited st1)
      as Hsub by set_solver.
    apply subseteq_size in Hsub. lia.
  - done.
  - set_solver.
Qed.

(** The nodes the traversal did not reach are added, each id once. *)
Lemma addUnvisited_spec l st :
  VisitInv nodes st -> (forall n, n ∈ l -> n ∈ nodes) ->
  let st' :=
    fold_left
      (fun st n =>
         if bool_decide (FlowNode.id n ∈ visited st) then st
         else mkVisit ({[FlowNode.id n]} ∪ visited st) (orderedNodes st ++ [n]))
      l st in
  VisitInv nodes st' /\ visited st ⊆ visited st'
  /\ forall n, n ∈ l -> FlowNode.id n ∈ visited st'.
Proof.
  revert st. induction l as [|n l IH]; intros st HInv Hl; cbn [fold_left].
  { split; [done|]. split; [done|]. by intros n Hn%elem_of_nil. }
  assert (n ∈ nodes) as Hn by (apply Hl; by left).
  assert (forall m, m ∈ l -> m ∈ nodes) as Hl' by (intros m Hm; apply Hl; by right).
  case_bool_decide as Hvisited.
  - destruct (IH st HInv Hl') as (HInv' & Hmono & Hall).
    split; [done|]. split; [done|].
    intros m [->|Hm]%elem_of_cons; [by apply Hmono | by apply Hall].
  - destruct HInv as [Hsound Hnodup Hcomplete].
    destruct (IH (mkVisit ({[FlowNode.id n]} ∪ visited st) (orderedNodes st ++ [n])))
      as (HInv' & Hmono & Hall); [|done|].
    { split; cbn.
      - intros m [Hm|Hm%list_elem_of_singleton]%elem_of_app.
        + destruct (Hsound m Hm). split; [done | set_solver].
        + subst m. split; [done | set_solver].
      - rewrite fmap_app. apply NoDup_app. split; [done|]. split.
        + intros x Hx Hx'. cbn in Hx'. apply list_elem_of_singleton in Hx'. subst x.
          apply list_elem_of_fmap in Hx as (m & Hm & Hin'). destruct (Hsound m Hin').
          congruence.
        + cbn. apply NoDup_singleton.
      - intros m Hm Hv. rewrite fmap_app. apply elem_of_app.
        apply elem_of_union in Hv as [Hnew%elem_of_singleton|Hold].
        + right. cbn. apply list_elem_of_singleton. congruence.
        + left. by apply Hcomplete. }
    cbn in Hmono. split; [done|]. split; [set_solver|].
    intros m [->|Hm]%elem_of_cons; [apply Hmono; set_solver | by apply Hall].
Qed.

(** The ordering returns: each id of a node once, and nodes of the flow
    only. *)
Lemma orderNodes_total :
  exists ordered,
    orderNodes nodes edges = Some ordered
    /\ NoDup (FlowNode.id <$> ordered)
    /\ (forall n, n ∈ ordered -> n ∈ nodes)
    /\ (forall n, n ∈ nodes -> FlowNode.id n ∈ FlowNode.id <$> ordered).
Proof.
  unfold orderNodes.
  assert (size (flowIds nodes edges) < visitBound nodes edges) as Hbound.
  { unfold visitBound, flowIds.
    pose proof (size_union_le (list_to_set (FlowNode.id <$> nodes))
                  (list_to_set (FlowEdge.target <$> edges))) as H0.
    pose proof (size_list_to_set_le (FlowNode.id <$> nodes)) as H1.
    pose proof (size_list_to_set_le (FlowEdge.target <$> edges)) as H2.
    rewrite length_fmap in H1. rewrite length_fmap in H2. lia. }
  assert (forall l st,
             VisitInv nodes st -> (forall n, n ∈ l -> n ∈ nodes) ->
             exists st',
               fold_left
                 (fun acc n =>
                    match acc with
                    | Some st => visit nodes edges (visitBound nodes edges)
                                       (FlowNode.id n) st
                    | None => None
                    end)
                 l (Some st) = Some st'
               /\ VisitInv nodes st') as Hstart.
  { induction l as [|n l IH]; intros st HInv Hl; cbn [fold_left]; [by eauto|].
    destruct (visit_total (visitBound nodes edges) (FlowNode.id n) st HInv)
      as (st1 & -> & HInv1 & _).
    - apply elem_of_union_l, elem_of_list_to_set, list_elem_of_fmap_2, Hl. by left.
    - assert (flowIds nodes edges ∖ visited st ⊆ flowIds nodes edges) as Hle
        by set_solver.
      apply subseteq_size in Hle. lia.
    - apply IH; [done|]. intros m Hm. apply Hl. by right. }
  destruct (Hstart (startNodes nodes edges) (mkVisit ∅ [])) as (st & -> & HInv).
  { split; cbn.
    - by intros n Hn%elem_of_nil.
    - apply NoDup_nil_2.
    - intros n _ Hn. by apply not_elem_of_empty in Hn. }
  { intros n Hn. unfold startNodes in Hn.
    apply list_elem_of_In, filter_In in Hn as [Hn _]. by apply list_elem_of_In. }
  destruct (addUnvisited_spec nodes st HInv) as ([Hsound Hnodup Hcomplete] & _ & Hall);
    [done|].
  eexists. split; [reflexivity|]. split; [done|]. split.
  - intros n Hn. by destruct (Hsound n Hn).
  - intros n Hn. apply Hcomplete; [done | by apply Hall].
Qed.

(** X17. The export of a flow whose nodes have distinct ids loses no step
    and repeats none: the nodes that become the instructions of the payload
    are, up to their order, the nodes whose label does not contain [start],
    whatever the edges are, cycles and dangling edges included. A step whose
    label contains [start] is left out like the start node. *)
Theorem export_keeps_each_step_once :
  NoDup (FlowNode.id <$> nodes) ->
  exists context exported,
    handleExportFlow nodes edges = Some (context, exported)
    /\ exported ≡ₚ List.filter (fun n => negb (isStartNode n)) nodes.
Proof.
  intros Hids. unfold handleExportFlow.
  destruct orderNodes_total as (ordered & -> & Hnodup & Hsound & Hcomplete).
  eexists _, _. split; [reflexivity|].
  assert (ordered ≡ₚ nodes) as Hperm.
  { apply NoDup_Permutation.
    - by eapply NoDup_fmap_1.
    - by eapply NoDup_fmap_1.
    - intros n. split; [by apply Hsound|]. intros Hn.
      apply Hcomplete in Hn as Hid.
      apply list_elem_of_fmap in Hid as (n' & Hid & Hn').
      by rewrite (NoDup_fmap_inj FlowNode.id nodes n n' Hids Hn (Hsound n' Hn') Hid). }
  clear -Hperm. induction Hperm as [|x l l' _ IH|x y l|l l' l'' _ IH1 _ IH2];
    cbn [List.filter].
  - done.
  - destruct (negb (isStartNode x)); [by constructor | done].
  - destruct (negb (isStartNode x)), (negb (isStartNode y));
      try reflexivity. by constructor.
  - by etrans.
Qed.

End FlowFacts.

(** An instance: of the three nodes, only the step labelled [Fetch] is
    exported. *)
Lemma export_keeps_each_step_once_witness :
  NoDup (FlowNode.id <$> flowNodes)
  /\ exists context exported,
       handleExportFlow flowNodes flowEdges = Some (context, exported)
       /\ exported ≡ₚ [FlowNode.mk "2" "Fetch" None tt].
Proof.
  assert (H : NoDup (FlowNode.id <$> flowNodes)).
  { apply (bool_decide_unpack (NoDup (FlowNode.id <$> flowNodes))). by vm_compute. }
  split; [exact H|]. exact (export_keeps_each_step_once flowNodes flowEdges H).
Defined.


(** ** Linear flows *)

Section ChainFacts.

Context {Config : Type}.
Implicit Types nodes pre suf : list (FlowNode.t Config).
Implicit Types st : Visit Config.

Lemma adjacency_snoc (es : list FlowEdge.t) (e : FlowEdge.t) :
  adjacency (es ++ [e])
  = <[FlowEdge.source e :=
        default [] (adjacency es !! FlowEdge.source e) ++ [FlowEdge.target e]]>
      (adjacency es).
Proof. unfold adjacency. by rewrite fold_left_app. Qed.

(** The adjacency list of an id: the targets of its edges, in the order of
    the edges. *)
Lemma adjacency_lookup (es : list FlowEdge.t) (x : string) :
  default [] (adjacency es !! x)
  = FlowEdge.target
      <$> List.filter (fun e => String.eqb (FlowEdge.source e) x) es.
Proof.
  induction es as [|e es IH] using rev_ind; [done|].
  rewrite adjacency_snoc, List.filter_app, fmap_app. cbn [List.filter].
  destruct (String.eqb_spec (FlowEdge.source e) x) as [->|Hne].
  - rewrite lookup_insert_eq. cbn. by rewrite IH.
  - rewrite lookup_insert_ne by done. cbn. by rewrite app_nil_r.
Qed.

Lemma chainEdges_cons (a b : string) (l : list string) :
  chainEdges (a :: b :: l) = FlowEdge.mk a b :: chainEdges (b :: l).
Proof. reflexivity. Qed.

Lemma chainEdges_sources (ids : list string) (e : FlowEdge.t) :
  e ∈ chainEdges ids -> FlowEdge.source e ∈ ids.
Proof.
  induction ids as [|a [|b l] IH]; [by intros ?%elem_of_nil..|].
  rewrite chainEdges_cons. intros [->|He]%elem_of_cons; [by left|].
  right. by apply IH.
Qed.

Lemma chainEdges_targets (ids : list string) :
  FlowEdge.target <$> chainEdges ids = tail ids.
Proof.
  induction ids as [|a [|b l] IH]; [done..|].
  rewrite chainEdges_cons, fmap_cons, IH. done.
Qed.

Lemma filter_none {A} (f : A -> bool) (l : list A) :
  (forall x, x ∈ l -> f x = false) -> List.filter f l = [].
Proof.
  induction l as [|a l IH]; intros Hl; [done|]. cbn.
  rewrite (Hl a) by by left. apply IH. intros x Hx. apply Hl. by right.
Qed.

Lemma chainEdges_from_absent (ids : list string) (x : string) :
  x ∉ ids ->
  List.filter (fun e => String.eqb (FlowEdge.source e) x) (chainEdges ids) = [].
Proof.
  intros Hx. apply filter_none. intros e He%chainEdges_sources.
  apply String.eqb_neq. intros Heq. by rewrite Heq in He.
Qed.

(** In a chain, the adjacency list of an id holds the next id, if any. *)
Lemma chain_next (l1 l2 : list string) (x : string) :
  NoDup (l1 ++ x :: l2) ->
  default [] (adjacency (chainEdges (l1 ++ x :: l2)) !! x)
  = match l2 with y :: _ => [y] | [] => [] end.
Proof.
  rewrite adjacency_lookup. induction l1 as [|a l1 IH]; intros Hnodup.
  - cbn [app]. destruct l2 as [|y r]; [done|].
    rewrite chainEdges_cons. cbn [List.filter FlowEdge.source].
    rewrite String.eqb_refl, chainEdges_from_absent; [done|].
    by apply NoDup_cons in Hnodup as [? _].
  - cbn [app] in *. apply NoDup_cons in Hnodup as [Ha Hnodup].
    destruct (l1 ++ x :: l2) as [|b rest] eqn:Hrest; [by destruct l1|].
    rewrite chainEdges_cons. cbn [List.filter FlowEdge.source].
    destruct (String.eqb_spec a x) as [->|_]; [|by apply IH].
    destruct Ha. rewrite <- Hrest. apply elem_of_app. right. by left.
Qed.

Lemma find_NoDup pre (n : FlowNode.t Config) suf :
  NoDup (FlowNode.id <$> pre ++ n :: suf) ->
  List.find (fun m => String.eqb (FlowNode.id m) (FlowNode.id n)) (pre ++ n :: suf)
  = Some n.
Proof.
  induction pre as [|a pre IH]; intros Hnodup; cbn.
  - by rewrite String.eqb_refl.
  - cbn in Hnodup. apply NoDup_cons in Hnodup as [Ha Hnodup].
    destruct (String.eqb_spec (FlowNode.id a) (FlowNode.id n)) as [Heq|_];
      [|by apply IH].
    destruct Ha. rewrite Heq. apply list_elem_of_fmap_2, elem_of_app. right. by left.
Qed.

(** The traversal of a chain from one of its nodes, the nodes before it
    being the ones visited: it visits the rest of the chain in order. *)
Lemma visit_chain suf pre (n : FlowNode.t Config) fuel st :
  let nodes := pre ++ n :: suf in
  NoDup (FlowNode.id <$> nodes) ->
  length suf < fuel ->
  orderedNodes st = pre ->
  (forall x, x ∈ visited st <-> x ∈ FlowNode.id <$> pre) ->
  exists V,
    visit nodes (chainEdges (FlowNode.id <$> nodes)) fuel (FlowNode.id n) st
    = Some (mkVisit V nodes)
    /\ forall x, x ∈ V <-> x ∈ FlowNode.id <$> nodes.
Proof.
  revert pre n fuel st.
  induction suf as [|m suf IH]; intros pre n fuel st nodes Hnodup Hfuel Hordered
    Hvisited; unfold nodes in *; clear nodes.
  all: destruct fuel as [|fuel]; [cbn in Hfuel; lia|]; cbn [visit].
  all: pose proof Hnodup as Hids; rewrite fmap_app, fmap_cons in Hids.
  all: assert (FlowNode.id n ∉ visited st) as Hfresh;
    [rewrite Hvisited; apply NoDup_app in Hids as (_ & Hdisj & _);
     intros Hin; apply (Hdisj _ Hin); by left|].
  all: rewrite bool_decide_eq_false_2 by done.
  all: rewrite (find_NoDup pre n _ Hnodup), Hordered.
  all: rewrite fmap_app, fmap_cons, (chain_next _ _ _ Hids).
  - cbn [fmap list_fmap fold_left]. eexists. split; [reflexivity|].
    intros x. rewrite elem_of_app, elem_of_union, Hvisited.
    rewrite list_elem_of_singleton, elem_of_singleton. tauto.
  - cbn [fmap list_fmap fold_left].
    destruct (IH (pre ++ [n]) m fuel
                (mkVisit ({[FlowNode.id n]} ∪ visited st) (pre ++ [n])))
      as (V & Hvisit & HV).
    + by rewrite <- app_assoc.
    + cbn in Hfuel. lia.
    + done.
    + intros x. cbn. rewrite fmap_app, elem_of_app, elem_of_union, Hvisited.
      cbn. rewrite list_elem_of_singleton, elem_of_singleton. tauto.
    + rewrite <- app_assoc in Hvisit, HV. cbn [app] in Hvisit, HV.
      rewrite fmap_app in Hvisit, HV. exists V. split; [exact Hvisit | exact HV].
Qed.

Lemma startNodes_chain (n : FlowNode.t Config) suf :
  NoDup (FlowNode.id <$> n :: suf) ->
  startNodes (n :: suf) (chainEdges (FlowNode.id <$> n :: suf)) = [n].
Proof.
  intros Hnodup. unfold startNodes. rewrite chainEdges_targets.
  cbn [fmap list_fmap tail List.filter].
  apply NoDup_cons in Hnodup as [Hn _].
  rewrite bool_decide_eq_false_2 by by rewrite elem_of_list_to_set.
  cbn [negb]. f_equal. apply filter_none. intros m Hm.
  rewrite bool_decide_eq_true_2; [done|].
  by apply elem_of_list_to_set, list_elem_of_fmap_2.
Qed.

Lemma addUnvisited_noop (l : list (FlowNode.t Config)) st :
  (forall n, n ∈ l -> FlowNode.id n ∈ visited st) ->
  fold_left
    (fun st n =>
       if bool_decide (FlowNode.id n ∈ visited st) then st
       else mkVisit ({[FlowNode.id n]} ∪ visited st) (orderedNodes st ++ [n]))
    l st = st.
Proof.
  induction l as [|n l IH]; intros Hl; [done|]. cbn [fold_left].
  rewrite bool_decide_eq_true_2 by (apply Hl; by left).
  apply IH. intros m Hm. apply Hl. by right.
Qed.

(** When the traversal from the start nodes reaches every node, its order
    is the order of the export. *)
Lemma orderNodes_reached nodes edges st :
  fold_left
    (fun acc n =>
       match acc with
       | Some st => visit nodes edges (visitBound nodes edges) (FlowNode.id n) st
       | None => None
       end)
    (startNodes nodes edges) (Some (mkVisit ∅ [])) = Some st ->
  (forall n, n ∈ nodes -> FlowNode.id n ∈ visited st) ->
  orderNodes nodes edges = Some (orderedNodes st).
Proof.
  intros Hstart Hall. unfold orderNodes. rewrite Hstart.
  by rewrite addUnvisited_noop.
Qed.

(** X18. A linear flow is exported in its order: when the nodes have
    distinct ids and the edges lead from each node to the next in the list,
    the instructions of the payload come from the nodes in that order, the
    nodes whose label contains [start] left out. *)
Theorem chain_exported_in_order nodes :
  NoDup (FlowNode.id <$> nodes) ->
  exists context,
    handleExportFlow nodes (chainEdges (FlowNode.id <$> nodes))
    = Some (context, List.filter (fun n => negb (isStartNode n)) nodes).
Proof.
  intros Hnodup. unfold handleExportFlow.
  assert (orderNodes nodes (chainEdges (FlowNode.id <$> nodes)) = Some nodes) as ->;
    [|by eexists].
  destruct nodes as [|n suf]; [done|].
  destruct (visit_chain suf [] n
              (visitBound (n :: suf) (chainEdges (FlowNode.id <$> n :: suf)))
              (mkVisit ∅ []) Hnodup)
    as (V & Hvisit & HV).
  - unfold visitBound. cbn [length]. lia.
  - done.
  - intros x. cbn. by rewrite elem_of_nil, elem_of_empty.
  - cbn [app] in Hvisit.
    apply (orderNodes_reached _ _ (mkVisit V (n :: suf))).
    + rewrite startNodes_chain by done. exact Hvisit.
    + intros m Hm. cbn. apply HV. by apply list_elem_of_fmap_2.
Qed.

End ChainFacts.

(** An instance: the three nodes in a line. *)
Lemma chain_exported_in_order_witness :
  NoDup (FlowNode.id <$> flowNodes)
  /\ exists context,
       handleExportFlow flowNodes (chainEdges ["1"; "2"; "3"])
       = Some (context, [FlowNode.mk "2" "Fetch" None tt]).
Proof.
  assert (H : NoDup (FlowNode.id <$> flowNodes)).
  { apply (bool_decide_unpack (NoDup (FlowNode.id <$> flowNodes))). by vm_compute. }
  split; [exact H|]. exact (chain_exported_in_order flowNodes H).
Defined.

